(** * LowCard game engine: a shallow embedding of [src/services/lowcardService.js]

    The engine keeps its volatile state in a keyed store (Redis) and the
    authoritative balances in a relational table ([users.credits]).  Both are
    modelled as finite maps; every entry point of the service becomes a
    function from a [World] to a reply and a new [World].

    Conventions of the embedding:
    - JavaScript numbers that hold coins, identifiers and epoch milliseconds
      are integers ([Z]); the service never produces a fraction except inside
      [Math.floor], which is integer division here.
    - a value stored under a key is kept typed ([RedisVal]) instead of as its
      JSON text: [JSON.parse (JSON.stringify g)] is [g] for every snapshot the
      service writes.
    - [Date.now ()], [Math.random ()] and [crypto.randomBytes] are inputs of
      the functions that call them.
    - time-to-live expiry of a key is a step of the environment ([expire]).
    - the tables the service only appends to ([credit_logs], [game_history],
      [lowcard_games], [lowcard_history]) and the log output are not part of
      the world; of the durable store the world keeps [users.credits],
      [rooms.name] and the active [merchant_tags].
    - a failing call of the infrastructure appears only where the service
      itself distinguishes it (the guarded steps of [startGame]). *)

From Stdlib Require Import ZArith String Ascii List Lia.
From stdpp Require Import base option list gmap strings pretty.

Local Open Scope string_scope.
Local Open Scope Z_scope.

(** ** Constants *)

Definition JOIN_TIMEOUT : Z := 30000.
Definition DRAW_TIMEOUT : Z := 20000.
Definition COUNTDOWN_DELAY : Z := 3000.
Definition MIN_ENTRY : Z := 1.
Definition MAX_ENTRY : Z := 999999999.
Definition MIN_ENTRY_BIG_GAME : Z := 50.
Definition STALE_GAME_TIMEOUT : Z := 120000.
Definition HOUSE_FEE_PERCENT : Z := 10.

(** ** Cards and the deck *)

Inductive Suit := h | d | c | s.

Definition suitCode (x : Suit) : string :=
  match x with h => "h" | d => "d" | c => "c" | s => "s" end.

Record Card := mkCard {
  value : Z;
  suit : Suit;
  code : string;
  image : string
}.

Global Instance Suit_eq_dec : EqDecision Suit.
Proof. solve_decision. Defined.

Global Instance Card_eq_dec : EqDecision Card.
Proof. solve_decision. Defined.

Definition CARD_SUITS : list Suit := [h; d; c; s].
Definition CARD_VALUES : list Z := [2; 3; 4; 5; 6; 7; 8; 9; 10; 11; 12; 13; 14].

Definition getCardCode (v : Z) : string :=
  if decide (v = 11) then "j"
  else if decide (v = 12) then "q"
  else if decide (v = 13) then "k"
  else if decide (v = 14) then "a"
  else pretty v.

Definition makeCard (x : Suit) (v : Z) : Card :=
  let cd := "lc_" +:+ getCardCode v +:+ suitCode x in
  {| value := v; suit := x; code := cd; image := cd +:+ ".png" |}.

(** The two nested [for ... of] loops of [generateDeck], before shuffling. *)
Definition orderedDeck : list Card :=
  flat_map (fun x => map (makeCard x) CARD_VALUES) CARD_SUITS.

(** [[a[i], a[j]] = [a[j], a[i]]] *)
Definition swap {A} (l : list A) (i j : nat) : list A :=
  match l !! i, l !! j with
  | Some x, Some y => <[i:=y]> (<[j:=x]> l)
  | _, _ => l
  end.

(** The loop of [shuffleDeck], [i] running downwards to 1.  [rnd i] stands
    for the draw of [Math.random ()] at index [i]; the index picked is
    [Math.floor (Math.random () * (i + 1))], a number between 0 and [i]. *)
Fixpoint shuffleFrom {A} (rnd : nat -> nat) (i : nat) (l : list A) : list A :=
  match i with
  | O => l
  | S i' => shuffleFrom rnd i' (swap l i (rnd i mod (i + 1))%nat)
  end.

Definition shuffleDeck {A} (rnd : nat -> nat) (deck : list A) : list A :=
  shuffleFrom rnd (length deck - 1)%nat deck.

Definition generateDeck (rnd : nat -> nat) : list Card :=
  shuffleDeck rnd orderedDeck.

(** ** Game snapshot *)

Definition UserId := Z.

Record Player := mkPlayer {
  userId : UserId;
  username : string;
  isEliminated : bool;
  hasDrawn : bool;
  currentCard : option Card;
  inTieBreaker : bool
}.

Global Instance Player_eq_dec : EqDecision Player.
Proof. solve_decision. Defined.

Inductive Status := waiting | playing | finished.

Global Instance Status_eq_dec : EqDecision Status.
Proof. solve_decision. Defined.

Record Game := mkGame {
  game_id : Z;
  dbId : option Z;
  roomId : string;
  status : Status;
  entryAmount : Z;
  pot : Z;
  currentRound : Z;
  players : list Player;
  startedBy : UserId;
  startedByUsername : string;
  createdAt : Z;
  joinDeadline : option Z;
  countdownEndsAt : option Z;
  roundDeadline : option Z;
  isTieBreaker : bool;
  wasTieBreaker : bool;
  isRoundStarted : bool;
  winnerId : option UserId;
  winnerUsername : option string;
  winnings : option Z;
  houseFee : option Z;
  finishedAt : option Z
}.

(** A field that JavaScript tests for truthiness: absent and [0] are falsy. *)
Definition truthy (o : option Z) : bool :=
  match o with
  | Some z => negb (z =? 0)
  | None => false
  end.

(** Assignments to the fields of a snapshot or of a player. *)

Definition set_status (x : Status) (g : Game) : Game :=
  mkGame (game_id g) (dbId g) (roomId g) x (entryAmount g) (pot g)
    (currentRound g) (players g) (startedBy g) (startedByUsername g)
    (createdAt g) (joinDeadline g) (countdownEndsAt g) (roundDeadline g)
    (isTieBreaker g) (wasTieBreaker g) (isRoundStarted g) (winnerId g)
    (winnerUsername g) (winnings g) (houseFee g) (finishedAt g).

Definition set_pot (x : Z) (g : Game) : Game :=
  mkGame (game_id g) (dbId g) (roomId g) (status g) (entryAmount g) x
    (currentRound g) (players g) (startedBy g) (startedByUsername g)
    (createdAt g) (joinDeadline g) (countdownEndsAt g) (roundDeadline g)
    (isTieBreaker g) (wasTieBreaker g) (isRoundStarted g) (winnerId g)
    (winnerUsername g) (winnings g) (houseFee g) (finishedAt g).

Definition set_players (x : list Player) (g : Game) : Game :=
  mkGame (game_id g) (dbId g) (roomId g) (status g) (entryAmount g) (pot g)
    (currentRound g) x (startedBy g) (startedByUsername g)
    (createdAt g) (joinDeadline g) (countdownEndsAt g) (roundDeadline g)
    (isTieBreaker g) (wasTieBreaker g) (isRoundStarted g) (winnerId g)
    (winnerUsername g) (winnings g) (houseFee g) (finishedAt g).

(** [currentRound], [isRoundStarted = true] and the two deadlines are always
    assigned together when a round opens. *)
Definition openRound (round now : Z) (g : Game) : Game :=
  mkGame (game_id g) (dbId g) (roomId g) (status g) (entryAmount g) (pot g)
    round (players g) (startedBy g) (startedByUsername g)
    (createdAt g) (joinDeadline g) (Some (now + COUNTDOWN_DELAY))
    (Some (now + COUNTDOWN_DELAY + DRAW_TIMEOUT))
    (isTieBreaker g) (wasTieBreaker g) true (winnerId g)
    (winnerUsername g) (winnings g) (houseFee g) (finishedAt g).

Definition set_tie (tie was : bool) (g : Game) : Game :=
  mkGame (game_id g) (dbId g) (roomId g) (status g) (entryAmount g) (pot g)
    (currentRound g) (players g) (startedBy g) (startedByUsername g)
    (createdAt g) (joinDeadline g) (countdownEndsAt g) (roundDeadline g)
    tie was (isRoundStarted g) (winnerId g)
    (winnerUsername g) (winnings g) (houseFee g) (finishedAt g).

Definition set_isEliminated (x : bool) (p : Player) : Player :=
  mkPlayer (userId p) (username p) x (hasDrawn p) (currentCard p) (inTieBreaker p).

Definition set_draw (drawn : bool) (cd : option Card) (p : Player) : Player :=
  mkPlayer (userId p) (username p) (isEliminated p) drawn cd (inTieBreaker p).

Definition set_inTieBreaker (x : bool) (p : Player) : Player :=
  mkPlayer (userId p) (username p) (isEliminated p) (hasDrawn p) (currentCard p) x.

Definition newPlayer (u : UserId) (name : string) : Player :=
  {| userId := u; username := name; isEliminated := false; hasDrawn := false;
     currentCard := None; inTieBreaker := false |}.

(** ** The keyed store *)

Record Timer := mkTimer {
  phase : string;
  expiresAt : Z;
  timerCreatedAt : Z;
  roundNumber : option Z
}.

Inductive RedisVal :=
| VStr (v : string)
| VNum (z : Z)
| VGame (g : Game)
| VDeck (dk : list Card)
| VTimer (t : Timer).

Abbreviation Redis := (gmap string RedisVal).

Definition gameKeyOf (R : string) : string := "lowcard:game:" +:+ R.
Definition deckKeyOf (R : string) : string := "lowcard:deck:" +:+ R.
Definition TIMER_KEY (R : string) : string := "room:" +:+ R +:+ ":lowcard:timer".
Definition startLockKeyOf (R : string) : string := "lowcard:lock:" +:+ R.
Definition joinLockKeyOf (R : string) : string := "lowcard:joinlock:" +:+ R.
Definition drawLockKeyOf (R : string) : string := "lowcard:drawlock:" +:+ R.
Definition creditsKeyOf (u : UserId) : string := "credits:" +:+ pretty u.

(** [JSON.parse (await redis.get (gameKey))], [null] when the key is absent. *)
Definition getGame (r : Redis) (R : string) : option Game :=
  match r !! gameKeyOf R with
  | Some (VGame g) => Some g
  | _ => None
  end.

Definition getDeck (r : Redis) (R : string) : option (list Card) :=
  match r !! deckKeyOf R with
  | Some (VDeck dk) => Some dk
  | _ => None
  end.

(** A key that reached its time to live disappears. *)
Definition expire (k : string) (r : Redis) : Redis := delete k r.

(** ** Lock manager *)

(** [redis.set (lockKey, token, { EX: ttl, NX: true })]: written only when the
    key is absent; the token is returned on success, [null] otherwise. *)
Definition acquireLock (lockKey token : string) (r : Redis) : option string * Redis :=
  match r !! lockKey with
  | None => (Some token, <[lockKey := VStr token]> r)
  | Some _ => (None, r)
  end.

(** The script of [releaseLock]:
    [if redis.call("get", KEYS[1]) == ARGV[1] then return redis.call("del", KEYS[1]) else return 0 end] *)
Definition releaseLock (lockKey token : string) (r : Redis) : Redis :=
  match r !! lockKey with
  | Some (VStr v) => if decide (v = token) then delete lockKey r else r
  | _ => r
  end.

(** [acquireLockWithRetry]: [retries] attempts, each with a fresh token
    ([tokens i] is the token drawn at attempt [i]).  The waits between the
    attempts are not modelled; nobody else writes the store meanwhile. *)
Fixpoint acquireLockWithRetry_from (lockKey : string) (tokens : nat -> string)
    (i retries : nat) (r : Redis) : option string * Redis :=
  match retries with
  | O => (None, r)
  | S n =>
      match acquireLock lockKey (tokens i) r with
      | (Some t, r') => (Some t, r')
      | (None, r') => acquireLockWithRetry_from lockKey tokens (S i) n r'
      end
  end.

Definition acquireLockWithRetry (lockKey : string) (tokens : nat -> string)
    (retries : nat) (r : Redis) : option string * Redis :=
  acquireLockWithRetry_from lockKey tokens 0 retries r.

(** ** The world: keyed store and durable tables *)

Record World := mkWorld {
  redis : Redis;
  users : gmap Z Z;            (* users.credits, by users.id *)
  rooms : gmap string string;  (* rooms.name, by rooms.id *)
  merchant_tags : gmap Z Z     (* active merchant_tags: tagged_user_id to merchant_id *)
}.

Definition set_redis (f : Redis -> Redis) (w : World) : World :=
  {| redis := f (redis w); users := users w; rooms := rooms w;
     merchant_tags := merchant_tags w |}.

Definition set_users (f : gmap Z Z -> gmap Z Z) (w : World) : World :=
  {| redis := redis w; users := f (users w); rooms := rooms w;
     merchant_tags := merchant_tags w |}.

(** ** Ledger *)

(** The merchant-tag service is not part of the repository sources; the
    ledger only consults it, so it is an input: the tagged balance of a user
    and the answer of [consumeForGame], [Some (usedTaggedCredits,
    remainingAmount)] when it reports success. *)
Record MerchantTagService := mkMerchantTagService {
  getTaggedBalance : UserId -> Z;
  consumeForGame : UserId -> Z -> option (Z * Z)
}.

(** A user without tagged credits. *)
Definition noTags : MerchantTagService :=
  {| getTaggedBalance := fun _ => 0; consumeForGame := fun _ _ => None |}.

(** [getUserCredits]: cache-aside read through [credits:{userId}].  Only the
    ledger writes that key, always with a number. *)
Definition getUserCredits (u : UserId) (w : World) : Z * World :=
  match redis w !! creditsKeyOf u with
  | Some (VNum cached) => (cached, w)
  | Some _ => (0, w)
  | None =>
      let balance := default 0 (users w !! u) in
      (balance, set_redis <[creditsKeyOf u := VNum balance]> w)
  end.

(** [deductCredits]: the pair is ([success], [balance]). *)
Definition deductCredits (mts : MerchantTagService) (u : UserId) (amount : Z)
    (w : World) : (bool * Z) * World :=
  let taggedBalance := getTaggedBalance mts u in
  let remainingAmount :=
    if 0 <? taggedBalance then
      match consumeForGame mts u amount with
      | Some (_, remaining) => remaining
      | None => amount
      end
    else amount in
  if remainingAmount <=? 0 then
    let '(current, w1) := getUserCredits u w in ((true, current), w1)
  else
  let '(current, w1) := getUserCredits u w in
  if current <? remainingAmount then ((false, current), w1)
  else
    (* UPDATE users SET credits = credits - $1 WHERE id = $2 AND credits >= $1 *)
    match users w1 !! u with
    | Some credits =>
        if remainingAmount <=? credits then
          let newBalance := credits - remainingAmount in
          ((true, newBalance),
           set_redis <[creditsKeyOf u := VNum newBalance]>
             (set_users <[u := newBalance]> w1))
        else ((false, current), w1)
    | None => ((false, current), w1)
    end.

(** [addCredits]: [UPDATE users SET credits = credits + $1 WHERE id = $2]. *)
Definition addCredits (u : UserId) (amount : Z) (w : World) : (bool * Z) * World :=
  match users w !! u with
  | Some credits =>
      let newBalance := credits + amount in
      ((true, newBalance),
       set_redis <[creditsKeyOf u := VNum newBalance]>
         (set_users <[u := newBalance]> w))
  | None => ((false, 0), w)
  end.

(** [for (const player of game.players) await addCredits (player.userId, amount, ...)] *)
Definition refundPlayers (ps : list Player) (amount : Z) (w : World) : World :=
  foldl (fun acc p => snd (addCredits (userId p) amount acc)) w ps.

(** ** Deck service, timers, cleanup *)

(** The deck a draw pops from: the stored one, or a freshly generated one
    when the key is missing or the stored deck is empty. *)
Definition deckToDrawFrom (rnd : nat -> nat) (R : string) (r : Redis) : list Card :=
  match getDeck r R with
  | Some (x :: dk) => x :: dk
  | _ => generateDeck rnd
  end.

(** [deck.pop ()], then the rest is written back. *)
Definition drawCardFromDeck (rnd : nat -> nat) (R : string) (r : Redis)
    : option Card * Redis :=
  let deck := deckToDrawFrom rnd R r in
  (last deck, <[deckKeyOf R := VDeck (removelast deck)]> r).

Definition initializeDeck (rnd : nat -> nat) (R : string) (r : Redis) : Redis :=
  <[deckKeyOf R := VDeck (generateDeck rnd)]> r.

Definition clearDeck (R : string) (r : Redis) : Redis := delete (deckKeyOf R) r.

Definition getTimer (r : Redis) (R : string) : option Timer :=
  match r !! TIMER_KEY R with
  | Some (VTimer t) => Some t
  | _ => None
  end.

Definition clearTimer (R : string) (r : Redis) : Redis := delete (TIMER_KEY R) r.

Definition cleanupRedisKeys (R : string) (r : Redis) : Redis :=
  foldl (fun acc k => delete k acc) r
    [gameKeyOf R; deckKeyOf R; TIMER_KEY R; startLockKeyOf R; joinLockKeyOf R;
     drawLockKeyOf R].

(** ** Replies of the command entry points *)

(** The result objects of the entry points.  A field the service leaves out
    is [false] or [None]; fields that only repeat the snapshot or the card
    ([playerCount], [pot], [cardDisplay]) are not kept. *)

Record Reply := mkReply {
  success : bool;
  message : option string;
  silent : bool;
  isPvt : bool;
  gameId : option Z;
  newBalance : option Z;
  card : option Card
}.

Definition reject (msg : option string) (quiet pvt : bool) : Reply :=
  {| success := false; message := msg; silent := quiet; isPvt := pvt;
     gameId := None; newBalance := None; card := None |}.

Definition accept (msg : string) (gid bal : option Z) (cd : option Card) : Reply :=
  {| success := true; message := Some msg; silent := false; isPvt := false;
     gameId := gid; newBalance := bal; card := cd |}.

(** ** Stale-game cleanup *)

(** [checkAndCleanupStaleGame]: [true] stands for [{ cleaned: true, ... }],
    [false] for [null]. *)
Definition checkAndCleanupStaleGame (now : Z) (R : string) (w : World) : bool * World :=
  match getGame (redis w) R with
  | None => (false, w)
  | Some game =>
      if decide (status game = waiting) then
        match joinDeadline game with
        | Some deadline =>
            if truthy (Some deadline) && (deadline + STALE_GAME_TIMEOUT <? now) then
              let w1 := refundPlayers (players game) (entryAmount game) w in
              (true,
               set_redis (fun r => clearDeck R (clearTimer R (delete (gameKeyOf R) r))) w1)
            else (false, w)
        | None => (false, w)
        end
      else (false, w)
  end.

(** ** Reading the amount and the room name *)

(** What the command handler may pass as [amount]. *)
Inductive JsArg :=
| JsUndefined
| JsNumber (z : Z)
| JsString (v : string).

Definition isSpace (a : ascii) : bool :=
  let n := nat_of_ascii a in
  ((9 <=? n) && (n <=? 13) || (n =? 32))%nat.

Fixpoint skipSpaces (v : string) : string :=
  match v with
  | String a rest => if isSpace a then skipSpaces rest else v
  | EmptyString => v
  end.

Definition digitOf (radix : Z) (a : ascii) : option Z :=
  let n := Z.of_nat (nat_of_ascii a) in
  let dgt :=
    if (48 <=? n) && (n <=? 57) then Some (n - 48)
    else if (97 <=? n) && (n <=? 122) then Some (n - 87)
    else if (65 <=? n) && (n <=? 90) then Some (n - 55)
    else None in
  match dgt with
  | Some k => if k <? radix then Some k else None
  | None => None
  end.

(** The longest prefix of digits; [None] when there is no digit at all. *)
Fixpoint parseDigits (radix : Z) (acc : option Z) (v : string) : option Z :=
  match v with
  | String a rest =>
      match digitOf radix a with
      | Some k => parseDigits radix (Some (radix * default 0 acc + k)) rest
      | None => acc
      end
  | EmptyString => acc
  end.

(** [parseInt (x)] without a radix; [None] is [NaN]. *)
Definition parseInt (x : JsArg) : option Z :=
  match x with
  | JsUndefined => None
  | JsNumber z => Some z
  | JsString v =>
      let v1 := skipSpaces v in
      let '(negative, v2) :=
        match v1 with
        | String "-" rest => (true, rest)
        | String "+" rest => (false, rest)
        | _ => (false, v1)
        end in
      let '(radix, v3) :=
        match v2 with
        | String "0" (String "x" rest) => (16, rest)
        | String "0" (String "X" rest) => (16, rest)
        | _ => (10, v2)
        end in
      match parseDigits radix None v3 with
      | Some n => Some (if negative then - n else n)
      | None => None
      end
  end.

(** [parseInt (amount) || minEntry]: [NaN] and [0] are falsy. *)
Definition requestedAmountOf (amount : JsArg) (minEntry : Z) : Z :=
  match parseInt amount with
  | Some z => if z =? 0 then minEntry else z
  | None => minEntry
  end.

Definition lowerAscii (a : ascii) : ascii :=
  let n := nat_of_ascii a in
  if ((65 <=? n) && (n <=? 90))%nat then ascii_of_nat (n + 32) else a.

Fixpoint toLowerCase (v : string) : string :=
  match v with
  | String a rest => String (lowerAscii a) (toLowerCase rest)
  | EmptyString => EmptyString
  end.

Fixpoint includes (needle hay : string) : bool :=
  if String.prefix needle hay then true
  else match hay with
       | String _ rest => includes needle rest
       | EmptyString => false
       end.

(** [roomResult.rows[0]?.name || ''], then the test for a big-game room. *)
Definition isBigGameRoom (R : string) (w : World) : bool :=
  includes "big game" (toLowerCase (default "" (rooms w !! R))).

Definition minEntryOf (R : string) (w : World) : Z :=
  if isBigGameRoom R w then MIN_ENTRY_BIG_GAME else MIN_ENTRY.

(** ** startGame *)

(** Faults of the infrastructure that [startGame] guards against after the
    deduction: the [game_history] insert may throw, the write of the snapshot
    may throw or answer a falsy value, and the read-back may throw or find
    nothing (the key expired or was deleted in between).  [lowcardGamesId] is
    the id returned by the [lowcard_games] insert, [None] when that insert
    failed (the service logs it and goes on). *)
Inductive WriteOutcome := WriteOk | WriteFalsy | WriteThrows.
Inductive ReadOutcome := ReadBack | ReadNothing | ReadThrows.

Record StartEnv := mkStartEnv {
  historyInsertThrows : bool;
  lowcardGamesId : option Z;
  gameWrite : WriteOutcome;
  gameReadBack : ReadOutcome
}.

Definition healthy : StartEnv :=
  {| historyInsertThrows := false; lowcardGamesId := None;
     gameWrite := WriteOk; gameReadBack := ReadBack |}.

Definition newGame (now : Z) (env : StartEnv) (R : string) (u : UserId)
    (name : string) (entry : Z) : Game :=
  {| game_id := default now (lowcardGamesId env);
     dbId := lowcardGamesId env;
     roomId := R;
     status := waiting;
     entryAmount := entry;
     pot := entry;
     currentRound := 0;
     players := [newPlayer u name];
     startedBy := u;
     startedByUsername := name;
     createdAt := now;
     joinDeadline := Some (now + JOIN_TIMEOUT);
     countdownEndsAt := None;
     roundDeadline := None;
     isTieBreaker := false;
     wasTieBreaker := false;
     isRoundStarted := false;
     winnerId := None;
     winnerUsername := None;
     winnings := None;
     houseFee := None;
     finishedAt := None |}.

(** The [catch] block of [startGame]. *)
Definition startGame_catch (u : UserId) (deductedAmount : Z) (w : World) : Reply * World :=
  (reject (Some "Game creation error. Credits refunded. Please try again.") false true,
   if 0 <? deductedAmount then snd (addCredits u deductedAmount w) else w).

(** From the [game_history] insert to the end of the [try] block;
    [deductedAmount] is [entryAmount] here. *)
Definition startGame_create (now : Z) (env : StartEnv) (R : string) (u : UserId)
    (name : string) (entryAmount : Z) (balance : Z) (w : World) : Reply * World :=
  if historyInsertThrows env then startGame_catch u entryAmount w
  else
    let game := newGame now env R u name entryAmount in
    match gameWrite env with
    | WriteThrows => startGame_catch u entryAmount w
    | WriteFalsy =>
        (reject (Some "Failed to create game. Credits refunded. Please try again.") false true,
         snd (addCredits u entryAmount w))
    | WriteOk =>
        let w1 := set_redis <[gameKeyOf R := VGame game]> w in
        match gameReadBack env with
        | ReadThrows => startGame_catch u entryAmount w1
        | ReadNothing =>
            (reject (Some "Game verification failed. Credits refunded. Please try again.") false true,
             snd (addCredits u entryAmount (set_redis (expire (gameKeyOf R)) w1)))
        | ReadBack =>
            (accept ("LowCard started by " +:+ name +:+ ". Enter !j to join the game. Cost: "
                       +:+ pretty entryAmount +:+ " COINS [30s]")
               (Some (game_id game)) (Some balance) None,
             w1)
        end
    end.

(** What [startGame] does with a snapshot found under the game key: [None]
    when the start is refused because a game is in progress. *)
Definition startGame_existing (now : Z) (R : string) (w : World) : option World :=
  match getGame (redis w) R with
  | Some game =>
      if decide (status game = waiting \/ status game = playing) then
        if negb (bool_decide (is_Some (getTimer (redis w) R)))
           && bool_decide (status game = waiting)
           && (40000 <? now - createdAt game) then
          let w1 := refundPlayers (players game) (entryAmount game) w in
          Some (set_redis (fun r => clearDeck R (delete (gameKeyOf R) r)) w1)
        else None
      else Some (set_redis (delete (gameKeyOf R)) w)
  | None => Some w
  end.

(** The body of the [try] block. *)
Definition startGame_locked (mts : MerchantTagService) (now : Z) (env : StartEnv)
    (R : string) (u : UserId) (name : string) (amount : JsArg) (w : World)
    : Reply * World :=
  let w1 := snd (checkAndCleanupStaleGame now R w) in
  match startGame_existing now R w1 with
  | None =>
      (reject (Some "A game is already in progress. Use !j to join.") false true, w1)
  | Some w2 =>
      let minEntry := minEntryOf R w2 in
      let requestedAmount := requestedAmountOf amount minEntry in
      if requestedAmount <? minEntry then
        (reject (Some ("Minimal " +:+ pretty minEntry +:+ " COINS to start game.")) false true, w2)
      else if negb (isBigGameRoom R w2) && (MAX_ENTRY <? requestedAmount) then
        (reject (Some "Maximal 999,999,999 COINS to start game.") false true, w2)
      else
        let entryAmount := requestedAmount in
        let '((ok, balance), w3) := deductCredits mts u entryAmount w2 in
        if negb ok then (reject (Some "You not enough credite") false true, w3)
        else startGame_create now env R u name entryAmount balance w3
  end.

Definition startGame (mts : MerchantTagService) (now : Z) (env : StartEnv)
    (R : string) (u : UserId) (name : string) (amount : JsArg) (w : World)
    : Reply * World :=
  match acquireLock (startLockKeyOf R) "1" (redis w) with
  | (None, _) =>
      (reject (Some "Please wait, another action is in progress.") false false, w)
  | (Some _, r0) =>
      let '(reply, w') := startGame_locked mts now env R u name amount
                            (set_redis (fun _ => r0) w) in
      (reply, set_redis (delete (startLockKeyOf R)) w')
  end.

(** ** joinGame *)

(** The test of [game.players.find (p => p.userId == userId)]. *)
Definition alreadyJoined (u : UserId) (g : Game) : bool :=
  existsb (fun p => userId p =? u) (players g).

(** [game.players.push ({ userId, username, ... }); game.pot += game.entryAmount] *)
Definition addPlayer (u : UserId) (name : string) (game : Game) : Game :=
  set_pot (pot game + entryAmount game)
    (set_players (players game ++ [newPlayer u name]) game).

Definition joinGame_locked (mts : MerchantTagService) (now : Z) (R : string)
    (u : UserId) (name : string) (w : World) : Reply * World :=
  match getGame (redis w) R with
  | None => (reject None true false, w)
  | Some game =>
      if negb (bool_decide (status game = waiting)) then
        (reject (Some "Game already in progress. Wait for the next round.") false true, w)
      else if match joinDeadline game with Some deadline => deadline <? now | None => false end then
        (reject (Some "Join period has ended.") false true, w)
      else if alreadyJoined u game then
        (reject (Some "LowCardBot: You have already joined this game.") false true, w)
      else
        let '((ok, balance), w1) := deductCredits mts u (entryAmount game) w in
        if negb ok then (reject (Some "You not enough credite") false true, w1)
        else
          (accept (name +:+ " joined the game.") None (Some balance) None,
           set_redis <[gameKeyOf R := VGame (addPlayer u name game)]> w1)
  end.

Definition joinGame (mts : MerchantTagService) (now : Z) (tokens : nat -> string)
    (R : string) (u : UserId) (name : string) (w : World) : Reply * World :=
  match acquireLockWithRetry (joinLockKeyOf R) tokens 5 (redis w) with
  | (None, _) => (reject (Some "Server busy, please try !j again.") false true, w)
  | (Some lockToken, r0) =>
      let '(reply, w') := joinGame_locked mts now R u name (set_redis (fun _ => r0) w) in
      (reply, set_redis (releaseLock (joinLockKeyOf R) lockToken) w')
  end.

(** ** beginGame *)

Inductive BeginResult :=
| BeginNull
| BeginCancelled (msg playAgain : string)
| BeginStarted (playerCount : nat) (playerNames msg : string).

Definition joinNames (ps : list Player) : string :=
  String.concat ", " (map username ps).

Definition beginGame_locked (now : Z) (rnd : nat -> nat) (R : string) (w : World)
    : BeginResult * World :=
  match getGame (redis w) R with
  | None => (BeginNull, w)
  | Some game =>
      if negb (bool_decide (status game = waiting)) then (BeginNull, w)
      else if (length (players game) <? 2)%nat then
        let w1 := refundPlayers (players game) (entryAmount game) w in
        (BeginCancelled "Game cancelled: Not enough credite refunded"
           ("Play now: !start to enter. Cost: " +:+ pretty MIN_ENTRY +:+ " COINS."),
         set_redis (cleanupRedisKeys R) w1)
      else
        let game' :=
          openRound 1 now
            (set_players (map (set_draw false None) (players game))
               (set_status playing game)) in
        (BeginStarted (length (players game)) (joinNames (players game))
           "Game begins - Lowest card is OUT!",
         set_redis (fun r => <[gameKeyOf R := VGame game']> (initializeDeck rnd R r)) w)
  end.

(** When the lock cannot be acquired [beginGame] proceeds anyway, and then
    releases nothing. *)
Definition beginGame (now : Z) (rnd : nat -> nat) (tokens : nat -> string)
    (R : string) (w : World) : BeginResult * World :=
  let '(lockToken, r0) := acquireLockWithRetry (joinLockKeyOf R) tokens 5 (redis w) in
  let '(res, w') := beginGame_locked now rnd R (set_redis (fun _ => r0) w) in
  (res,
   match lockToken with
   | Some t => set_redis (releaseLock (joinLockKeyOf R) t) w'
   | None => w'
   end).

(** ** drawCardForPlayer *)

Definition getCardEmoji (cd : option Card) : string :=
  match cd with
  | None => "(?)"
  | Some x => "[CARD:" +:+ code x +:+ "]"
  end.

(** The predicate of [findIndex (p => p.userId == userId && !p.isEliminated)]. *)
Definition activeWithId (u : UserId) (p : Player) : Prop :=
  userId p = u /\ isEliminated p = false.

Global Instance activeWithId_dec u p : Decision (activeWithId u p).
Proof. unfold activeWithId. apply _. Defined.

Definition drawCardForPlayer_locked (now : Z) (rnd : nat -> nat) (R : string)
    (u : UserId) (name : string) (w : World) : Reply * World :=
  match getGame (redis w) R with
  | None => (reject None true false, w)
  | Some game =>
      if negb (bool_decide (status game = playing)) then
        (reject (Some "Game is not in progress.") false false, w)
      else if truthy (countdownEndsAt game)
              && (now <? default 0 (countdownEndsAt game)) then
        (reject (Some "Wait for countdown to finish.") true false, w)
      else
        match list_find (activeWithId u) (players game) with
        | None => (reject (Some "[PVT] You are not in this game") false true, w)
        | Some (playerIndex, player) =>
            if isTieBreaker game && negb (inTieBreaker player) then
              (reject (Some ("[PVT] " +:+ name +:+
                             ": Only tied players can draw now. Please wait..."))
                 false true, w)
            else if hasDrawn player then
              (reject (Some ("[PVT] " +:+ name +:+ ": you already drew.")) false true, w)
            else
              let '(cd, r1) := drawCardFromDeck rnd R (redis w) in
              let game' :=
                set_players (<[playerIndex := set_draw true cd player]> (players game))
                  game in
              (accept (name +:+ ": " +:+ getCardEmoji cd) None None cd,
               set_redis (fun _ => <[gameKeyOf R := VGame game']> r1) w)
        end
  end.

Definition drawCardForPlayer (now : Z) (rnd : nat -> nat) (tokens : nat -> string)
    (R : string) (u : UserId) (name : string) (w : World) : Reply * World :=
  match acquireLockWithRetry (drawLockKeyOf R) tokens 3 (redis w) with
  | (None, _) => (reject (Some "Processing, please try again.") true false, w)
  | (Some lockToken, r0) =>
      let '(reply, w') :=
        drawCardForPlayer_locked now rnd R u name (set_redis (fun _ => r0) w) in
      (reply, set_redis (releaseLock (drawLockKeyOf R) lockToken) w')
  end.

(** ** finishGame *)

Record FinishResult := mkFinishResult {
  eliminated : option string;
  eliminatedCard : option Card;
  winner : option string;
  finishWinnerId : option UserId;
  finishWinnings : Z;
  finishNewBalance : Z;
  finishPot : Z;
  finishHouseFee : Z;
  (* merchant and amount handed to [addMerchantIncome], if any *)
  commissionPaid : option (Z * Z)
}.

(** [Math.floor (game.pot * HOUSE_FEE_PERCENT / 100)] *)
Definition houseFeeOf (g : Game) : Z := pot g * HOUSE_FEE_PERCENT / 100.

(** The commission of the starter's merchant: [Math.floor (houseFee * 0.1)],
    paid only when positive. *)
Definition commissionOf (g : Game) (w : World) : option (Z * Z) :=
  match merchant_tags w !! startedBy g with
  | Some merchantId =>
      if 0 <? houseFeeOf g then
        let commission := houseFeeOf g / 10 in
        if 0 <? commission then Some (merchantId, commission) else None
      else None
  | None => None
  end.

(** The assignments [finishGame] makes to [game] ([status], [winnerId],
    [winnings], ...) reach only the SQL rows: the snapshot is never written
    back, its key is deleted by the cleanup. *)
Definition finishGame (R : string) (game : Game) (remainingPlayers : list Player)
    (loser : option Player) (w : World) : FinishResult * World :=
  let fee := houseFeeOf game in
  let won := pot game - fee in
  let result (bal : Z) (paid : option (Z * Z)) :=
    {| eliminated := username <$> loser;
       eliminatedCard := loser ≫= currentCard;
       winner := username <$> head remainingPlayers;
       finishWinnerId := userId <$> head remainingPlayers;
       finishWinnings := won;
       finishNewBalance := bal;
       finishPot := pot game;
       finishHouseFee := fee;
       commissionPaid := paid |} in
  match head remainingPlayers with
  | Some wnr =>
      let '((_, bal), w1) := addCredits (userId wnr) won w in
      (result bal (commissionOf game w), set_redis (cleanupRedisKeys R) w1)
  | None => (result 0 None, set_redis (cleanupRedisKeys R) w)
  end.

(** ** tallyRound *)

Inductive TallyResult :=
| TallyNull
| TallyError (msg : string)
| TallyEliminated (name : string) (cd : option Card) (nextRound : Z)
    (remainingPlayers : list Player) (tieBroken : bool)
| TallyTie (tiedPlayers : string) (tiedCount : nat) (nextRound : Z)
| TallyFinished (res : FinishResult).

(** The filter that selects [currentHandsPlayers]. *)
Definition holdsHand (tie : bool) (p : Player) : bool :=
  negb (isEliminated p)
  && (if tie then inTieBreaker p else true)
  && bool_decide (is_Some (currentCard p)).

Definition currentHandsPlayers (game : Game) : list Player :=
  List.filter (holdsHand (isTieBreaker game)) (players game).

(** [player.currentCard.value]; every player in [currentHandsPlayers] holds a card. *)
Definition cardValue (p : Player) : Z :=
  match currentCard p with
  | Some x => value x
  | None => 0
  end.

(** One turn of the loop that fills [lowestHands]. *)
Definition lowestStep (lowestHands : list Player) (p : Player) : list Player :=
  match lowestHands with
  | [] => [p]
  | q :: _ =>
      let compareResult := cardValue p - cardValue q in
      if compareResult <? 0 then [p]
      else if compareResult =? 0 then lowestHands ++ [p]
      else lowestHands
  end.

Definition lowestHandsOf (hands : list Player) : list Player :=
  foldl lowestStep [] hands.

(** [game.players[idx].isEliminated = true] for
    [idx = findIndex (p => p.userId == loser.userId)]. *)
Definition eliminate (loser : Player) (ps : list Player) : list Player :=
  match list_find (fun p => userId p = userId loser) ps with
  | Some (idx, p) => <[idx := set_isEliminated true p]> ps
  | None => ps
  end.

Definition resetSurvivor (p : Player) : Player :=
  if isEliminated p then p else set_draw false None p.

Definition markTied (tiedPlayerIds : list UserId) (p : Player) : Player :=
  if isEliminated p then p
  else if bool_decide (userId p ∈ tiedPlayerIds) then
    set_inTieBreaker true (set_draw false None p)
  else set_inTieBreaker false p.

Definition tallyRound (now : Z) (R : string) (w : World) : TallyResult * World :=
  match getGame (redis w) R with
  | None => (TallyNull, w)
  | Some game =>
      match currentHandsPlayers game with
      | [] => (TallyError "No active players with cards.", w)
      | hands =>
          match lowestHandsOf hands with
          | [] => (TallyNull, w)
          | [loser] =>
              let cleared :=
                set_tie false (wasTieBreaker game)
                  (set_players
                     (map (set_inTieBreaker false) (eliminate loser (players game)))
                     game) in
              let remainingPlayers :=
                List.filter (fun p => negb (isEliminated p)) (players cleared) in
              if (length remainingPlayers <? 2)%nat then
                let '(res, w1) := finishGame R cleared remainingPlayers (Some loser) w in
                (TallyFinished res, w1)
              else
                let game' :=
                  set_tie false false
                    (openRound (currentRound game + 1) now
                       (set_players (map resetSurvivor (players cleared)) cleared)) in
                (TallyEliminated (username loser) (currentCard loser)
                   (currentRound game') remainingPlayers (wasTieBreaker game),
                 set_redis <[gameKeyOf R := VGame game']> w)
          | lowestHands =>
              let game' :=
                openRound (currentRound game + 1) now
                  (set_tie true true
                     (set_players
                        (map (markTied (map userId lowestHands)) (players game))
                        game)) in
              (TallyTie (joinNames lowestHands) (length lowestHands) (currentRound game'),
               set_redis <[gameKeyOf R := VGame game']> w)
          end
      end
  end.

(** ** cancelByStarter, stopGame, resetGame *)

Definition cancelByStarter (R : string) (u : UserId) (name : string) (w : World)
    : Reply * World :=
  match getGame (redis w) R with
  | None => (reject None true false, w)
  | Some game =>
      if negb (bool_decide (status game = waiting)) then
        (reject (Some (name +:+ ": Cannot cancel, game already started.")) false true, w)
      else if negb (startedBy game =? u) then
        (reject (Some (name +:+ ": Only the game starter can cancel.")) false true, w)
      else
        let w1 := refundPlayers (players game) (entryAmount game) w in
        (accept ("Game cancelled by " +:+ name +:+ ". " +:+ pretty (length (players game))
                 +:+ " player(s) refunded " +:+ pretty (entryAmount game) +:+ " COINS each.")
           None None None,
         set_redis (cleanupRedisKeys R) w1)
  end.

Definition stopGame (R : string) (w : World) : Reply * World :=
  match getGame (redis w) R with
  | None => (reject (Some "No active game to stop.") false false, w)
  | Some game =>
      if bool_decide (status game = playing) then
        (reject (Some "Cannot stop game once it has started.") false false, w)
      else
        let w1 := refundPlayers (players game) (entryAmount game) w in
        (accept "Game stopped. All credits have been refunded." None None None,
         set_redis (cleanupRedisKeys R) w1)
  end.

Definition resetGame (R : string) (byUsername : string) (w : World) : Reply * World :=
  match getGame (redis w) R with
  | None => (reject (Some "No active game to reset.") false false, w)
  | Some game =>
      let w1 :=
        refundPlayers (List.filter (fun p => negb (isEliminated p)) (players game))
          (entryAmount game) w in
      (accept ("Game reset. " +:+ pretty (length (players game))
               +:+ " player(s) refunded " +:+ pretty (entryAmount game) +:+ " COINS each.")
         None None None,
       set_redis (fun r => clearDeck R (clearTimer R (delete (gameKeyOf R) r))) w1)
  end.

(** * The rest of the service *)

(** ** getActiveGame, allPlayersDrawn, autoDrawForTimeout *)

Definition getActiveGame (R : string) (w : World) : option Game := getGame (redis w) R.

(** The test under [every] in [allPlayersDrawn]. *)
Definition drawnOrExcused (tie : bool) (p : Player) : bool :=
  if tie then isEliminated p || negb (inTieBreaker p) || hasDrawn p
  else isEliminated p || hasDrawn p.

Definition allPlayersDrawn (R : string) (w : World) : bool :=
  match getActiveGame R w with
  | None => false
  | Some game =>
      if negb (bool_decide (status game = playing)) then false
      else forallb (drawnOrExcused (isTieBreaker game)) (players game)
  end.

(** The three [continue] tests of the loop of [autoDrawForTimeout]: the
    player is skipped when one of them holds. *)
Definition skipsAutoDraw (tie : bool) (p : Player) : bool :=
  isEliminated p || (tie && negb (inTieBreaker p)) || hasDrawn p.

(** The loop of [autoDrawForTimeout] over [game.players]: the players after
    the loop, the [autoDrawn] entries (username and card) and the store, in
    which every draw rewrote the deck. *)
Fixpoint autoDrawLoop (rnd : nat -> nat) (R : string) (tie : bool)
    (ps : list Player) (r : Redis)
    : list Player * list (string * option Card) * Redis :=
  match ps with
  | [] => ([], [], r)
  | p :: rest =>
      if skipsAutoDraw tie p then
        let '(ps', drawn, r') := autoDrawLoop rnd R tie rest r in
        (p :: ps', drawn, r')
      else
        let '(cd, r1) := drawCardFromDeck rnd R r in
        let '(ps', drawn, r') := autoDrawLoop rnd R tie rest r1 in
        (set_draw true cd p :: ps', (username p, cd) :: drawn, r')
  end.

(** [autoDrawForTimeout] takes no lock; without a snapshot it answers the
    empty list and writes nothing. *)
Definition autoDrawForTimeout (rnd : nat -> nat) (R : string) (w : World)
    : list (string * option Card) * World :=
  match getGame (redis w) R with
  | None => ([], w)
  | Some game =>
      let '(ps', drawn, r') :=
        autoDrawLoop rnd R (isTieBreaker game) (players game) (redis w) in
      (drawn, set_redis (fun _ => <[gameKeyOf R := VGame (set_players ps' game)]> r') w)
  end.

(** ** setTimer *)

(** The [roomId] field of the stored object repeats the key and is not kept;
    the key's time-to-live of 120 s is an [expire] step. *)
Definition setTimer (now : Z) (R ph : string) (expires : Z) (round : option Z)
    (r : Redis) : Redis :=
  <[TIMER_KEY R := VTimer {| phase := ph; expiresAt := expires;
                             timerCreatedAt := now; roundNumber := round |}]> r.

(** ** The bot of a room *)

Definition botKeyOf (R : string) : string := "lowcard:bot:" +:+ R.
Definition dicebotKeyOf (R : string) : string := "dicebot:bot:" +:+ R.
Definition legendKeyOf (R : string) : string := "legend:bot:" +:+ R.

Definition dq : string := String (ascii_of_nat 34) EmptyString.

(** [JSON.stringify ({ active: true, defaultAmount: 50, createdAt })], the
    text stored under the bot key; [iso] is [new Date ().toISOString ()]. *)
Definition botRecord (iso : string) : string :=
  "{" +:+ dq +:+ "active" +:+ dq +:+ ":true," +:+ dq +:+ "defaultAmount" +:+ dq
  +:+ ":50," +:+ dq +:+ "createdAt" +:+ dq +:+ ":" +:+ dq +:+ iso +:+ dq +:+ "}".

(** Modelled from the spec: the game state manager
    ([./gameStateManager], not among the sources) is the per-room directory
    of "which game type is active"; [setActiveGameType] enters the type for
    the room and [clearActiveGameType] removes the entry. *)
Record Service := mkService {
  world : World;
  activeGameType : gmap string string
}.

Definition LOWCARD : string := "lowcard".

(** [await redis.exists (key)] *)
Definition existsKey (k : string) (r : Redis) : bool := bool_decide (is_Some (r !! k)).

Definition isBotActive (R : string) (w : World) : bool := existsKey (botKeyOf R) (redis w).

Definition addBotToRoom (iso : string) (R : string) (sv : Service) : Reply * Service :=
  let r := redis (world sv) in
  if existsKey (botKeyOf R) r then
    (reject (Some "LowCardBot is already active in this room.") false false, sv)
  else if existsKey (dicebotKeyOf R) r then
    (reject (Some "DiceBot is active. Remove it first with /bot dice remove") false false, sv)
  else if existsKey (legendKeyOf R) r then
    (reject (Some "FlagBot is active. Remove it first.") false false, sv)
  else
    (accept ("[PVT] Bot is running. Min: " +:+ pretty MIN_ENTRY +:+ " COINS") None None None,
     {| world := set_redis <[botKeyOf R := VStr (botRecord iso)]> (world sv);
        activeGameType := <[R := LOWCARD]> (activeGameType sv) |}).

Definition removeBotFromRoom (R : string) (sv : Service) : Reply * Service :=
  let w := world sv in
  if negb (existsKey (botKeyOf R) (redis w)) then
    (reject (Some "No LowCard bot in this room.") false false, sv)
  else
    let w1 :=
      match getGame (redis w) R with
      | Some game =>
          if bool_decide (status game = waiting) then
            refundPlayers (players game) (entryAmount game) w
          else w
      | None => w
      end in
    (accept "LowCardBot has left the room." None None None,
     {| world := set_redis (fun r => clearDeck R (delete (gameKeyOf R) (delete (botKeyOf R) r))) w1;
        activeGameType := delete R (activeGameType sv) |}).

(** ** Levels and experience points *)

Definition LEVEL_THRESHOLDS : list Z :=
  [0; 10; 25; 45; 70; 100; 140; 190; 250; 320; 400; 500; 620; 760; 920;
   2000; 4000; 7000; 11000; 16000; 22000; 29500; 38000; 48000; 60000;
   75000; 92000; 112000; 135000; 160000].

Definition getXpThreshold (level : Z) : Z :=
  if level <=? 0 then 0
  else if level <=? Z.of_nat (length LEVEL_THRESHOLDS) then
    default 0 (LEVEL_THRESHOLDS !! Z.to_nat (level - 1))
  else
    let lastThreshold :=
      default 0 (LEVEL_THRESHOLDS !! (length LEVEL_THRESHOLDS - 1)%nat) in
    let extraLevels := level - Z.of_nat (length LEVEL_THRESHOLDS) in
    lastThreshold + extraLevels * 4000 + extraLevels * extraLevels * 500.

(** The [while] loop of [calculateLevel], run for at most [fuel] turns. *)
Fixpoint calculateLevel_loop (fuel : nat) (xp level : Z) : Z :=
  match fuel with
  | O => level
  | S n =>
      if getXpThreshold (level + 1) <=? xp then calculateLevel_loop n xp (level + 1)
      else level
  end.

(** [calculateLevel]: the loop leaves within [xp] turns (see
    [calculateLevel_bounds]), so the fuel never runs out. *)
Definition calculateLevel (xp : Z) : Z := calculateLevel_loop (Z.to_nat xp) xp 1.

Definition getXpForNextLevel (currentLevel : Z) : Z := getXpThreshold (currentLevel + 1).

(** ** addXp *)

(** A row of [user_levels]. *)
Record LevelRow := mkLevelRow { row_xp : Z; row_level : Z }.

Abbreviation UserLevels := (gmap UserId LevelRow).

(** What [addXp] returns; [res_oldLevel] is only present on a level-up. *)
Record XpResult := mkXpResult {
  res_xp : Z;
  res_level : Z;
  leveledUp : bool;
  res_oldLevel : option Z
}.

(** [addXp] on a database that answers: the upsert adds [amount] to the
    stored points (a new row starts at [amount] and level 1) and returns the
    row; the level is written only when the computed one is higher.  The
    [user:levelUp] socket event changes no state and is left out. *)
Definition addXp (u : UserId) (amount : Z) (t : UserLevels) : XpResult * UserLevels :=
  let row :=
    match t !! u with
    | Some old => {| row_xp := row_xp old + amount; row_level := row_level old |}
    | None => {| row_xp := amount; row_level := 1 |}
    end in
  let t1 := <[u := row]> t in
  let xp := row_xp row in
  let oldLevel := row_level row in
  let newLevel := calculateLevel xp in
  if oldLevel <? newLevel then
    ({| res_xp := xp; res_level := newLevel; leveledUp := true;
        res_oldLevel := Some oldLevel |},
     <[u := {| row_xp := xp; row_level := newLevel |}]> t1)
  else
    ({| res_xp := xp; res_level := newLevel; leveledUp := false; res_oldLevel := None |},
     t1).

(** * Refunds after a restart (the restart refund service) *)

(** [refundPlayer]: the balance is raised in [users.credits] and the cached
    balance is dropped, not rewritten. *)
Definition refundPlayer (u : UserId) (amount : Z) (w : World) : World :=
  let w1 :=
    match users w !! u with
    | Some credits => set_users <[u := credits + amount]> w
    | None => w
    end in
  set_redis (delete (creditsKeyOf u)) w1.

Fixpoint hasColon (v : string) : bool :=
  match v with
  | EmptyString => false
  | String a rest => Ascii.eqb a ":" || hasColon rest
  end.

(** [key.split (':').pop ()] *)
Fixpoint lastSegment (key : string) : string :=
  match key with
  | EmptyString => EmptyString
  | String a rest =>
      if hasColon rest then lastSegment rest
      else if Ascii.eqb a ":" then rest
      else key
  end.

(** The body of the LowCard loop of [handleRestartRefunds] for one key.  As
    in [getGame], a value that is not a snapshot counts as no game. *)
Definition restartLowcardKey (key : string) (w : World) : World :=
  let w1 :=
    match redis w !! key with
    | Some (VGame game) =>
        if bool_decide (status game = waiting) || bool_decide (status game = playing) then
          foldl (fun acc p => refundPlayer (userId p) (entryAmount game) acc) w (players game)
        else w
    | _ => w
    end in
  set_redis (fun r => delete (deckKeyOf (lastSegment key)) (delete key r)) w1.

(** The LowCard loop over [lowcardKeys], the answer of
    [redis.keys ('lowcard:game:*')]. *)
Definition restartLowcardRefunds (lowcardKeys : list string) (w : World) : World :=
  foldl (fun acc key => restartLowcardKey key acc) w lowcardKeys.

(** * The command subscriber ([src/pubsub/subscriber.js]) *)

(** [commandHandler] is an [async] function: a call returns at once with a
    promise, and the calling [processRoomQueue] resumes when it settles. *)

(** A parsed [game:command] message: the fields the service reads. *)
Record Command := mkCommand {
  cmd_roomId : option string;
  cmd_userId : Z;
  cmd_message : string
}.

(** [data.roomId || 'global'] *)
Definition roomOf (data : Command) : string :=
  match cmd_roomId data with
  | Some R => if bool_decide (R = "") then "global" else R
  | None => "global"
  end.

(** A queue object [{ items, processing }]. *)
Record Queue := mkQueue { items : list Command; processing : bool }.

(** A call of [processRoomQueue] suspended at [await commandHandler (data)]:
    its [roomId], the queue object its [queue] variable refers to and the
    command it handed over. *)
Definition Call : Type := string * nat * Command.

Definition callRoom (k : Call) : string := fst (fst k).

(** The subscriber: the [roomQueues] map from room to queue object, the queue
    objects by address (an object is never freed, a new one gets the next
    address), the suspended calls, and the commands handed to
    [commandHandler] so far, in the order of the calls. *)
Record Subscriber := mkSubscriber {
  roomQueues : gmap string nat;
  objects : list Queue;
  suspended : list Call;
  handed : list Command
}.

Definition set_objects (f : list Queue -> list Queue) (st : Subscriber) : Subscriber :=
  {| roomQueues := roomQueues st; objects := f (objects st);
     suspended := suspended st; handed := handed st |}.

(** The [while] loop of [processRoomQueue] from its head to the next
    [await], or to the end of the function: with an item left, shift it and
    call the handler; without, clear [processing] and delete the room's entry. *)
Definition whileLoop (R : string) (l : nat) (st : Subscriber) : Subscriber :=
  match objects st !! l with
  | Some q =>
      match items q with
      | data :: rest =>
          {| roomQueues := roomQueues st;
             objects := <[l := {| items := rest; processing := processing q |}]> (objects st);
             suspended := (suspended st ++ [(R, l, data)])%list;
             handed := (handed st ++ [data])%list |}
      | [] =>
          {| roomQueues := delete R (roomQueues st);
             objects := <[l := {| items := []; processing := false |}]> (objects st);
             suspended := suspended st;
             handed := handed st |}
      end
  | None => st
  end.

Definition processRoomQueue (R : string) (st : Subscriber) : Subscriber :=
  match roomQueues st !! R with
  | None => st
  | Some l =>
      match objects st !! l with
      | None => st
      | Some q =>
          if processing q || bool_decide (items q = []) then st
          else
            whileLoop R l
              (set_objects <[l := {| items := items q; processing := true |}]> st)
      end
  end.

Definition enqueueCommand (data : Command) (st : Subscriber) : Subscriber :=
  let R := roomOf data in
  let st1 :=
    match roomQueues st !! R with
    | Some _ => st
    | None =>
        {| roomQueues := <[R := length (objects st)]> (roomQueues st);
           objects := (objects st ++ [{| items := []; processing := false |}])%list;
           suspended := suspended st;
           handed := handed st |}
    end in
  let st2 :=
    match roomQueues st1 !! R with
    | Some l =>
        match objects st1 !! l with
        | Some q =>
            set_objects
              <[l := {| items := (items q ++ [data])%list; processing := processing q |}]> st1
        | None => st1
        end
    | None => st1
    end in
  processRoomQueue R st2.

(** The handler of the [n]-th suspended call settles (it returns or throws,
    the loop goes on either way): the call resumes at the loop head. *)
Definition handlerSettles (n : nat) (st : Subscriber) : Subscriber :=
  match suspended st !! n with
  | Some (R, l, _) =>
      whileLoop R l
        {| roomQueues := roomQueues st; objects := objects st;
           suspended := delete n (suspended st); handed := handed st |}
  | None => st
  end.

Inductive Event :=
| Arrives (data : Command)
| Settles (n : nat).

Definition subscriberStep (st : Subscriber) (e : Event) : Subscriber :=
  match e with
  | Arrives data => enqueueCommand data st
  | Settles n => handlerSettles n st
  end.

Definition initSubscriber : Subscriber :=
  {| roomQueues := ∅; objects := []; suspended := []; handed := [] |}.

Definition subscriberRun (evs : list Event) : Subscriber :=
  foldl subscriberStep initSubscriber evs.

(** * Vocabulary of the statements *)

(** How many entries of [players] carry the identifier [u]. *)
Definition timesListed (u : UserId) (ps : list Player) : Z :=
  Z.of_nat (length (filter (fun p => userId p = u) ps)).

(** The account of participant [p] holds [entryAmount] more in [w'] than in [w]. *)
Definition creditedBack (w w' : World) (g : Game) (p : Player) : Prop :=
  forall b, users w !! userId p = Some b ->
            users w' !! userId p = Some (b + entryAmount g).

(** The account of participant [p] is the same in [w'] as in [w]. *)
Definition notCredited (w w' : World) (p : Player) : Prop :=
  users w' !! userId p = users w !! userId p.


(** The credit of [u] in [users.credits]; [0] without a row. *)
Definition balanceOf (w : World) (u : UserId) : Z := default 0 (users w !! u).


(** The players still in the game. *)
Definition survivors (ps : list Player) : list Player :=
  List.filter (fun p => negb (isEliminated p)) ps.

(** I1 / P3 of the specification. *)
Definition potInvariant (g : Game) : Prop :=
  pot g = entryAmount g * Z.of_nat (length (players g)).

(** The worlds reachable in room [R] from a successful [startGame] by a
    sequence of [joinGame] calls, one after the other. *)
Inductive Reachable (R : string) : World -> Prop :=
| reach_start mts now env u name amount w :
    success (fst (startGame mts now env R u name amount w)) = true ->
    Reachable R (snd (startGame mts now env R u name amount w))
| reach_join mts now tokens u name w :
    Reachable R w ->
    Reachable R (snd (joinGame mts now tokens R u name w)).

(** An infrastructure fault after the deduction: the history insert throws,
    the snapshot is not written, or the read-back does not find it. *)
Definition failing (env : StartEnv) : Prop :=
  historyInsertThrows env = true \/ gameWrite env ≠ WriteOk \/ gameReadBack env ≠ ReadBack.

(** The three replies of [startGame] that report a failed creation. *)
Definition creationFailureMessages : list string :=
  ["Failed to create game. Credits refunded. Please try again.";
   "Game verification failed. Credits refunded. Please try again.";
   "Game creation error. Credits refunded. Please try again."].

(** The guards of [drawCardForPlayer], as the specification lists them: the
    game is not being played, the countdown has not ended, the caller is not
    a non-eliminated player, the round is a tie-breaker the caller is not part
    of, or the caller already drew. *)
Definition drawRefused (now : Z) (u : UserId) (g : Game) : bool :=
  negb (bool_decide (status g = playing))
  || match countdownEndsAt g with
     | Some t => negb (t =? 0) && (now <? t)
     | None => false
     end
  || match list_find (activeWithId u) (players g) with
     | None => true
     | Some (_, p) => (isTieBreaker g && negb (inTieBreaker p)) || hasDrawn p
     end.

(** [p] holds a lowest card among [hands]: no card in [hands] has a smaller
    value.  Only [value] is looked at, never the suit. *)
Definition isLowest (hands : list Player) (p : Player) : bool :=
  forallb (fun q => cardValue p <=? cardValue q) hands.

(** The in-scope players whose card has the minimal value, in table order. *)
Definition lowestInScope (g : Game) : list Player :=
  List.filter (isLowest (currentHandsPlayers g)) (currentHandsPlayers g).

(** The round's loser is marked eliminated, nobody else is; all tie marks
    are cleared. *)
Definition markOut (loser p : Player) : Player :=
  set_inTieBreaker false
    (if bool_decide (p = loser) then set_isEliminated true p else p).

(** The snapshot once the loser is out and the tie state is cleared. *)
Definition clearedGame (loser : Player) (g : Game) : Game :=
  set_tie false (wasTieBreaker g) (set_players (map (markOut loser) (players g)) g).





(** [n] draws in a row from the deck of room [R]. *)
Fixpoint drawMany (rnd : nat -> nat) (R : string) (n : nat) (r : Redis)
    : list (option Card) * Redis :=
  match n with
  | O => ([], r)
  | S k =>
      let '(cd, r1) := drawCardFromDeck rnd R r in
      let '(cds, r2) := drawMany rnd R k r1 in
      (cd :: cds, r2)
  end.

(** What the timeout does to one player: left alone when eliminated, out of
    the tie-breaker or already drawn; given a card otherwise. *)
Definition autoDrawnPlayer (tie : bool) (p p' : Player) : Prop :=
  if skipsAutoDraw tie p then p' = p
  else exists cd, p' = set_draw true (Some cd) p.

(** A player who has drawn holds a card. *)
Definition drawnHoldCards (g : Game) : Prop :=
  forall p, p ∈ players g -> hasDrawn p = true -> is_Some (currentCard p).

(** The round was resolved: [tallyRound] answered an elimination, a tie or
    the end of the game, not [null] and not its error. *)
Definition roundResolved (res : TallyResult) : Prop :=
  match res with
  | TallyNull | TallyError _ => False
  | _ => True
  end.

(** [p] is in scope of the round: still in the game and, in a tie-breaker,
    one of the tied players. *)
Definition inScope (g : Game) (p : Player) : Prop :=
  isEliminated p = false /\ (isTieBreaker g = true -> inTieBreaker p = true).

(** The keys [cleanupRedisKeys] deletes. *)
Definition roomKeys (R : string) : list string :=
  [gameKeyOf R; deckKeyOf R; TIMER_KEY R; startLockKeyOf R; joinLockKeyOf R;
   drawLockKeyOf R].

(** The same person at the same seat; once out, out for good. *)
Definition samePerson (p p' : Player) : Prop :=
  userId p' = userId p /\ username p' = username p
  /\ (isEliminated p = true -> isEliminated p' = true).

(** Roster, stake, pot and starter are those of [g]; the game did not go
    back to the waiting room. *)
Definition sameTable (g g' : Game) : Prop :=
  Forall2 samePerson (players g) (players g')
  /\ entryAmount g' = entryAmount g /\ pot g' = pot g
  /\ startedBy g' = startedBy g
  /\ (status g = playing -> status g' = playing).

(** The snapshot [beginGame] writes when the game starts: round one is
    open and nobody has drawn. *)
Definition begunGame (now : Z) (g : Game) : Game :=
  openRound 1 now
    (set_players (map (set_draw false None) (players g)) (set_status playing g)).

(** Every cached balance is the balance of the table. *)
Definition cacheCoherent (w : World) : Prop :=
  forall u v, redis w !! creditsKeyOf u = Some v -> v = VNum (balanceOf w u).

(** Nobody is in debt. *)
Definition noDebt (w : World) : Prop :=
  forall u b, users w !! u = Some b -> 0 <= b.

(** The stored level of [u] is the level of the stored points. *)
Definition levelInStep (t : UserLevels) (u : UserId) : Prop :=
  forall row, t !! u = Some row -> row_level row = calculateLevel (row_xp row).

(** [key] matches the pattern [lowcard:game:*]. *)
Definition isGameKey (key : string) : bool := String.prefix "lowcard:game:" key.

(** [lowcardKeys] holds every key of the store that matches [lowcard:game:*]. *)
Definition scansAllGames (lowcardKeys : list string) (w : World) : Prop :=
  forall key, isGameKey key = true -> is_Some (redis w !! key) -> key ∈ lowcardKeys.

(** ** The command queue *)

(** The commands that arrived, in order. *)
Definition arrived (evs : list Event) : list Command :=
  omap (fun e => match e with Arrives data => Some data | Settles _ => None end) evs.

(** The commands of room [R] among [l], in order. *)
Definition ofRoom (R : string) (l : list Command) : list Command :=
  List.filter (fun data => bool_decide (roomOf data = R)) l.

(** What waits in the queue object that [roomQueues] holds for [R]. *)
Definition pendingOf (st : Subscriber) (R : string) : list Command :=
  match roomQueues st !! R with
  | Some l => match objects st !! l with Some q => items q | None => [] end
  | None => []
  end.

(** The invariant of the subscriber between two events. *)
Record QInv (arr : list Command) (st : Subscriber) : Prop := {
  inv_live : forall R l, roomQueues st !! R = Some l ->
    exists q x, objects st !! l = Some q /\ processing q = true
                /\ (R, l, x) ∈ suspended st;
  inv_susp : forall R l x, (R, l, x) ∈ suspended st -> roomQueues st !! R = Some l;
  inv_nodup : NoDup (map callRoom (suspended st));
  inv_inj : forall R1 R2 l,
    roomQueues st !! R1 = Some l -> roomQueues st !! R2 = Some l -> R1 = R2;
  inv_fifo : forall R, (ofRoom R (handed st) ++ pendingOf st R)%list = ofRoom R arr
}.

(** The same at the head of the loop of the call for room [R], which is
    running and therefore not among the suspended ones. *)
Record QInvBut (R : string) (l : nat) (arr : list Command) (st : Subscriber) : Prop := {
  but_here : roomQueues st !! R = Some l;
  but_obj : exists q, objects st !! l = Some q /\ processing q = true;
  but_free : R ∉ map callRoom (suspended st);
  but_live : forall R' l', R' ≠ R -> roomQueues st !! R' = Some l' ->
    exists q x, objects st !! l' = Some q /\ processing q = true
                /\ (R', l', x) ∈ suspended st;
  but_susp : forall R' l' x, (R', l', x) ∈ suspended st -> roomQueues st !! R' = Some l';
  but_nodup : NoDup (map callRoom (suspended st));
  but_inj : forall R1 R2 l',
    roomQueues st !! R1 = Some l' -> roomQueues st !! R2 = Some l' -> R1 = R2;
  but_fifo : forall R', (ofRoom R' (handed st) ++ pendingOf st R')%list = ofRoom R' arr
}.

(** ** Sample worlds *)

Definition alice : Player := newPlayer 1 "alice".
Definition bob : Player := newPlayer 2 "bob".
Definition carol : Player := newPlayer 3 "carol".

Definition sampleGame (st : Status) (entry : Z) (ps : list Player) : Game :=
  {| game_id := 77; dbId := Some 77; roomId := "r1"; status := st;
     entryAmount := entry; pot := entry * Z.of_nat (length ps); currentRound := 0;
     players := ps; startedBy := 1; startedByUsername := "alice";
     createdAt := 1000; joinDeadline := Some 31000; countdownEndsAt := None;
     roundDeadline := None; isTieBreaker := false; wasTieBreaker := false;
     isRoundStarted := false; winnerId := None; winnerUsername := None;
     winnings := None; houseFee := None; finishedAt := None |}.

Definition sampleWorld (balance : Z) (store : Redis) : World :=
  {| redis := store;
     users := {[ 1 := balance; 2 := balance; 3 := balance ]};
     rooms := {[ "r1" := "Lobby" ]};
     merchant_tags := ∅ |}.

Definition worldWith (g : Game) : World :=
  sampleWorld 90 {[ gameKeyOf "r1" := VGame g ]}.

Definition out (p : Player) : Player := set_isEliminated true p.

(** The read-back finds nothing although the write was acknowledged. *)
Definition vanishing : StartEnv :=
  {| historyInsertThrows := false; lowcardGamesId := Some 5;
     gameWrite := WriteOk; gameReadBack := ReadNothing |}.

(** The sample world once [startGame] holds the start lock of room r1. *)
Definition lockedWorld : World :=
  set_redis (fun _ => <[startLockKeyOf "r1" := VStr "1"]> ∅) (sampleWorld 90 ∅).

(** A player who drew the card of value [v] and suit [x]. *)
Definition holding (x : Suit) (v : Z) (p : Player) : Player :=
  set_draw true (Some (makeCard x v)) p.

(** Round one of the tie scenario: 5, 5 and 9. *)
Definition tiedTable : Game :=
  sampleGame playing 20 [holding h 5 alice; holding d 5 bob; holding s 9 carol].

(** Round one of the plain scenario: 5, 9 and king. *)
Definition plainTable : Game :=
  sampleGame playing 10 [holding h 5 alice; holding d 9 bob; holding s 13 carol].

(** * Properties *)

(** ** Keys and frames *)

Ltac key_ne :=
  unfold gameKeyOf, deckKeyOf, TIMER_KEY, startLockKeyOf, joinLockKeyOf,
    drawLockKeyOf, creditsKeyOf;
  let E := fresh in intros E; discriminate E.

Lemma gameKey_ne_credits R u : gameKeyOf R ≠ creditsKeyOf u.
Proof. key_ne. Qed.

Lemma deckKey_ne_credits R u : deckKeyOf R ≠ creditsKeyOf u.
Proof. key_ne. Qed.

Lemma gameKey_ne_deck R : gameKeyOf R ≠ deckKeyOf R.
Proof. key_ne. Qed.

Lemma gameKey_ne_startLock R : gameKeyOf R ≠ startLockKeyOf R.
Proof. key_ne. Qed.

Lemma gameKey_ne_joinLock R : gameKeyOf R ≠ joinLockKeyOf R.
Proof. key_ne. Qed.

Lemma gameKey_ne_drawLock R : gameKeyOf R ≠ drawLockKeyOf R.
Proof. key_ne. Qed.

Lemma deckKey_ne_drawLock R : deckKeyOf R ≠ drawLockKeyOf R.
Proof. key_ne. Qed.

Lemma startLock_ne_credits R u : startLockKeyOf R ≠ creditsKeyOf u.
Proof. key_ne. Qed.

Lemma set_redis_id f w : f (redis w) = redis w -> set_redis f w = w.
Proof. destruct w as [r us rs ts]. unfold set_redis. simpl. intros ->. reflexivity. Qed.

Lemma set_redis_set_redis f g w :
  set_redis f (set_redis g w) = set_redis (fun r => f (g r)) w.
Proof. reflexivity. Qed.

(** *** The lock manager *)

Lemma acquireLock_free k t (r : Redis) :
  r !! k = None -> acquireLock k t r = (Some t, <[k := VStr t]> r).
Proof. intros E. unfold acquireLock. rewrite E. reflexivity. Qed.

Lemma acquireLock_held k t (r : Redis) :
  is_Some (r !! k) -> acquireLock k t r = (None, r).
Proof. intros [v E]. unfold acquireLock. rewrite E. reflexivity. Qed.

Lemma acquireLock_Some k t (r r' : Redis) t' :
  acquireLock k t r = (Some t', r') ->
  t' = t /\ r !! k = None /\ r' = <[k := VStr t]> r.
Proof.
  unfold acquireLock. destruct (r !! k) eqn:E; intros H; inversion H; auto.
Qed.

Lemma releaseLock_own k t (r : Redis) :
  r !! k = Some (VStr t) -> releaseLock k t r = delete k r.
Proof.
  intros E. unfold releaseLock. rewrite E.
  destruct (decide (t = t)); [reflexivity | congruence].
Qed.

Lemma releaseLock_foreign k t (r : Redis) :
  r !! k ≠ Some (VStr t) -> releaseLock k t r = r.
Proof.
  intros E. unfold releaseLock.
  destruct (r !! k) as [[v| | | |]|] eqn:E'; try reflexivity.
  destruct (decide (v = t)); [congruence | reflexivity].
Qed.

Lemma release_after_acquire k t (r : Redis) :
  r !! k = None -> releaseLock k t (<[k := VStr t]> r) = r.
Proof.
  intros E. rewrite releaseLock_own by apply lookup_insert_eq.
  apply delete_insert_id. exact E.
Qed.

Lemma acquireLockWithRetry_from_free k tokens i n (r : Redis) :
  r !! k = None ->
  acquireLockWithRetry_from k tokens i (S n) r = (Some (tokens i), <[k := VStr (tokens i)]> r).
Proof. intros E. simpl. rewrite acquireLock_free by exact E. reflexivity. Qed.

Lemma acquireLockWithRetry_from_held k tokens n : forall i (r : Redis),
  is_Some (r !! k) -> acquireLockWithRetry_from k tokens i n r = (None, r).
Proof.
  induction n as [|n IH]; intros i r E; simpl; [reflexivity|].
  rewrite acquireLock_held by exact E. apply IH, E.
Qed.

(** With nobody else writing, the retries see the same store: the lock is
    taken at the first attempt or never. *)
Lemma acquireLockWithRetry_cases k tokens n (r : Redis) :
  (r !! k = None /\
   acquireLockWithRetry k tokens (S n) r = (Some (tokens 0%nat), <[k := VStr (tokens 0%nat)]> r))
  \/ (is_Some (r !! k) /\ acquireLockWithRetry k tokens (S n) r = (None, r)).
Proof.
  unfold acquireLockWithRetry. destruct (r !! k) eqn:E.
  - right. split; [eauto|]. apply acquireLockWithRetry_from_held. eauto.
  - left. split; [reflexivity|]. apply acquireLockWithRetry_from_free, E.
Qed.

(** *** The ledger *)

Lemma getUserCredits_users u w : users (snd (getUserCredits u w)) = users w.
Proof.
  unfold getUserCredits.
  destruct (redis w !! creditsKeyOf u) as [[| | | |]|]; reflexivity.
Qed.

Lemma getUserCredits_redis u w k :
  k ≠ creditsKeyOf u -> redis (snd (getUserCredits u w)) !! k = redis w !! k.
Proof.
  intros Hk. unfold getUserCredits.
  destruct (redis w !! creditsKeyOf u) as [[| | | |]|]; try reflexivity.
  simpl. apply lookup_insert_ne. congruence.
Qed.

Lemma addCredits_lookup u a w v :
  users (snd (addCredits u a w)) !! v
  = if decide (v = u) then (fun b => b + a) <$> users w !! u else users w !! v.
Proof.
  unfold addCredits. destruct (users w !! u) as [b|] eqn:E; simpl.
  - destruct (decide (v = u)) as [->|Hne].
    + apply lookup_insert_eq.
    + apply lookup_insert_ne. congruence.
  - destruct (decide (v = u)) as [->|Hne]; [exact E | reflexivity].
Qed.

Lemma addCredits_users u a w b :
  users w !! u = Some b -> users (snd (addCredits u a w)) = <[u := b + a]> (users w).
Proof. intros E. unfold addCredits. rewrite E. reflexivity. Qed.

Lemma addCredits_redis u a w k :
  k ≠ creditsKeyOf u -> redis (snd (addCredits u a w)) !! k = redis w !! k.
Proof.
  intros Hk. unfold addCredits. destruct (users w !! u); simpl; [|reflexivity].
  apply lookup_insert_ne. congruence.
Qed.

Lemma timesListed_cons u p ps :
  timesListed u (p :: ps) = (if decide (userId p = u) then 1 else 0) + timesListed u ps.
Proof.
  unfold timesListed. rewrite filter_cons.
  destruct (decide (userId p = u)); simpl length; lia.
Qed.

Lemma timesListed_absent u ps : u ∉ map userId ps -> timesListed u ps = 0.
Proof.
  induction ps as [|p ps IH]; intros Hn; [reflexivity|].
  rewrite timesListed_cons. simpl in Hn. apply not_elem_of_cons in Hn as [Hne Hn].
  destruct (decide (userId p = u)); [congruence|]. rewrite IH; [lia | exact Hn].
Qed.

Lemma timesListed_once u ps :
  NoDup (map userId ps) -> u ∈ map userId ps -> timesListed u ps = 1.
Proof.
  induction ps as [|p ps IH]; simpl; intros Hnd Hin.
  - apply elem_of_nil in Hin. contradiction.
  - apply NoDup_cons in Hnd as [Hfresh Hnd]. rewrite timesListed_cons.
    apply elem_of_cons in Hin as [->|Hin].
    + destruct (decide (userId p = userId p)); [|congruence].
      rewrite timesListed_absent; [lia | exact Hfresh].
    + destruct (decide (userId p = u)) as [E|]; [rewrite E in Hfresh; contradiction|].
      rewrite IH; [lia | exact Hnd | exact Hin].
Qed.

(** Every refund in the loop adds [amount] to the account it names; an
    identifier without an account gets nothing. *)
Lemma refundPlayers_lookup ps a : forall w v,
  users (refundPlayers ps a w) !! v
  = (fun b => b + a * timesListed v ps) <$> users w !! v.
Proof.
  induction ps as [|p ps IH]; intros w v.
  - simpl. unfold timesListed. simpl. destruct (users w !! v); simpl; [|reflexivity].
    f_equal. lia.
  - unfold refundPlayers in *. simpl. rewrite IH, addCredits_lookup, timesListed_cons.
    destruct (decide (v = userId p)) as [->|Hne].
    + destruct (decide (userId p = userId p)); [|congruence].
      destruct (users w !! userId p); simpl; [|reflexivity]. f_equal. lia.
    + destruct (decide (userId p = v)); [congruence|].
      destruct (users w !! v); simpl; [|reflexivity]. f_equal.
Qed.

Lemma refundPlayers_redis ps a k :
  (forall u, k ≠ creditsKeyOf u) ->
  forall w, redis (refundPlayers ps a w) !! k = redis w !! k.
Proof.
  intros Hk. induction ps as [|p ps IH]; intros w; [reflexivity|].
  unfold refundPlayers in *. simpl. rewrite IH. apply addCredits_redis, Hk.
Qed.

Lemma deductCredits_redis mts u a w k :
  k ≠ creditsKeyOf u -> redis (snd (deductCredits mts u a w)) !! k = redis w !! k.
Proof.
  intros Hk. unfold deductCredits.
  pose proof (getUserCredits_redis u w k Hk) as Hg.
  destruct (getUserCredits u w) as [current w1]. simpl in Hg.
  repeat match goal with
         | |- context [if ?b then _ else _] => destruct b
         | |- context [match ?x with Some _ => _ | None => _ end] => destruct x
         | |- context [let '(_, _) := ?x in _] => destruct x
         end; simpl; try exact Hg.
  all: rewrite lookup_insert_ne by congruence; exact Hg.
Qed.

Lemma deductCredits_failed mts u a w bal w' :
  deductCredits mts u a w = ((false, bal), w') -> users w' = users w.
Proof.
  unfold deductCredits. pose proof (getUserCredits_users u w) as Hg.
  destruct (getUserCredits u w) as [current w1]. simpl in Hg.
  repeat match goal with
         | |- context [if ?b then _ else _] => destruct b
         | |- context [match ?x with Some _ => _ | None => _ end] => destruct x
         | |- context [let '(_, _) := ?x in _] => destruct x
         end; intros H; inversion H; subst; try exact Hg.
Qed.

(** A successful deduction from a user without tagged credits takes exactly
    [amount] from [users.credits]. *)
Lemma deductCredits_regular mts u a w bal w' :
  getTaggedBalance mts u <= 0 -> 0 < a ->
  deductCredits mts u a w = ((true, bal), w') ->
  exists b, users w !! u = Some b /\ a <= b /\ bal = b - a
            /\ users w' = <[u := b - a]> (users w).
Proof.
  intros Htag Hpos. unfold deductCredits.
  destruct (0 <? getTaggedBalance mts u) eqn:Et; [apply Z.ltb_lt in Et; lia|].
  destruct (a <=? 0) eqn:Ea; [apply Z.leb_le in Ea; lia|].
  pose proof (getUserCredits_users u w) as Hg.
  destruct (getUserCredits u w) as [current w1]. simpl in Hg.
  destruct (current <? a); [intros H; inversion H|].
  rewrite Hg. destruct (users w !! u) as [b|] eqn:Eu; [|intros H; inversion H].
  destruct (a <=? b) eqn:Eb; intros H; inversion H; subst.
  exists b. apply Z.leb_le in Eb. simpl. rewrite Hg. auto.
Qed.

(** ** Token-bound release of a lock *)

(** C7. [releaseLock k t] deletes the key exactly when the value stored at
    [k] is the token [t].  After [acquireLock k] handed out [t], releasing
    with [t] restores the store of before (the slot is empty again); when the
    key meanwhile expired and another party acquired it with a different
    token, releasing with the stale token [t] changes nothing and the new
    holder keeps the lock. *)
Theorem releaseLock_deletes_iff_token_matches (k t : string) (r : Redis) :
  (r !! k = Some (VStr t) -> releaseLock k t r = delete k r)
  /\ (r !! k ≠ Some (VStr t) -> releaseLock k t r = r)
  /\ (forall r1, acquireLock k t r = (Some t, r1) ->
        releaseLock k t r1 = r /\ releaseLock k t r1 !! k = None)
  /\ (forall t' r1 r2, t' ≠ t ->
        acquireLock k t r = (Some t, r1) ->
        acquireLock k t' (expire k r1) = (Some t', r2) ->
        releaseLock k t r2 = r2 /\ r2 !! k = Some (VStr t')).
Proof.
  split; [apply releaseLock_own|]. split; [apply releaseLock_foreign|]. split.
  - intros r1 H. apply acquireLock_Some in H as (_ & Hfree & ->).
    rewrite release_after_acquire by exact Hfree. auto.
  - intros t' r1 r2 Hne _ H2. apply acquireLock_Some in H2 as (_ & _ & ->).
    split; [|apply lookup_insert_eq].
    apply releaseLock_foreign. rewrite lookup_insert_eq. congruence.
Qed.

Lemma releaseLock_deletes_iff_token_matches_witness :
  releaseLock "lowcard:joinlock:r1" "a1b2"
    (<["lowcard:joinlock:r1" := VStr "a1b2"]> ∅)
  = delete "lowcard:joinlock:r1" (<["lowcard:joinlock:r1" := VStr "a1b2"]> ∅)
  /\ releaseLock "lowcard:joinlock:r1" "a1b2"
       (<["lowcard:joinlock:r1" := VStr "ffff"]> ∅)
     = <["lowcard:joinlock:r1" := VStr "ffff"]> ∅.
Proof.
  split.
  - refine (proj1 (releaseLock_deletes_iff_token_matches
                     "lowcard:joinlock:r1" "a1b2" _) _).
    reflexivity.
  - refine (proj1 (proj2 (releaseLock_deletes_iff_token_matches
                            "lowcard:joinlock:r1" "a1b2" _)) _).
    rewrite lookup_insert_eq. discriminate.
Defined.

(** ** Stale-game cleanup leaves live games alone *)

(** C10. Unless the room holds a snapshot that is both [waiting] and past
    [joinDeadline + 120 s], [checkAndCleanupStaleGame] answers [null] and the
    world is the same afterwards: no account is credited and the game, timer
    and deck keys stay as they were.  In particular a [playing] game is never
    refunded or deleted by it. *)
Theorem checkAndCleanupStaleGame_frame (now : Z) (R : string) (w : World) :
  ((forall g, getGame (redis w) R = Some g ->
      status g ≠ waiting \/ joinDeadline g = None
      \/ exists deadline, joinDeadline g = Some deadline
                          /\ now <= deadline + STALE_GAME_TIMEOUT) ->
   checkAndCleanupStaleGame now R w = (false, w))
  /\ (forall g, getGame (redis w) R = Some g -> status g = playing ->
        checkAndCleanupStaleGame now R w = (false, w)).
Proof.
  assert (Hmain : (forall g, getGame (redis w) R = Some g ->
      status g ≠ waiting \/ joinDeadline g = None
      \/ exists deadline, joinDeadline g = Some deadline
                          /\ now <= deadline + STALE_GAME_TIMEOUT) ->
   checkAndCleanupStaleGame now R w = (false, w)).
  { intros H. unfold checkAndCleanupStaleGame.
    destruct (getGame (redis w) R) as [g|]; [|reflexivity].
    destruct (decide (status g = waiting)) as [Hw|]; [|reflexivity].
    destruct (joinDeadline g) as [deadline|] eqn:Ed; [|reflexivity].
    destruct (H g eq_refl) as [Hs|[Hn|(dl & Hdl & Hle)]]; try congruence.
    assert (dl = deadline) as -> by congruence.
    destruct (deadline + STALE_GAME_TIMEOUT <? now) eqn:El.
    - apply Z.ltb_lt in El. lia.
    - rewrite andb_false_r. reflexivity. }
  split; [exact Hmain|].
  intros g Hg Hp. apply Hmain. intros g' Hg'. left.
  rewrite Hg in Hg'. inversion Hg'; subst. rewrite Hp. discriminate.
Qed.

Lemma checkAndCleanupStaleGame_frame_witness :
  checkAndCleanupStaleGame 999999 "r1" (worldWith (sampleGame playing 10 [alice; bob]))
  = (false, worldWith (sampleGame playing 10 [alice; bob])).
Proof.
  apply (checkAndCleanupStaleGame_frame 999999 "r1"
           (worldWith (sampleGame playing 10 [alice; bob]))).
  intros g Hg. left. vm_compute in Hg. inversion Hg. simpl. discriminate.
Defined.

(** ** Refunds *)

Lemma getGame_insert_ne k v (r : Redis) R :
  k ≠ gameKeyOf R -> getGame (<[k := v]> r) R = getGame r R.
Proof. intros Hk. unfold getGame. rewrite lookup_insert_ne by exact Hk. reflexivity. Qed.

Lemma refundPlayers_creditedBack w ps g p :
  NoDup (map userId ps) -> p ∈ ps ->
  creditedBack w (refundPlayers ps (entryAmount g) w) g p.
Proof.
  intros Hnd Hin b Hb. rewrite refundPlayers_lookup, Hb. simpl.
  rewrite timesListed_once; [f_equal; lia | exact Hnd |].
  apply list_elem_of_fmap. eauto.
Qed.

Lemma refundPlayers_notCredited w ps a p :
  userId p ∉ map userId ps -> notCredited w (refundPlayers ps a w) p.
Proof.
  intros Hn. unfold notCredited. rewrite refundPlayers_lookup, timesListed_absent by exact Hn.
  destruct (users w !! userId p); simpl; [f_equal; lia | reflexivity].
Qed.

(** Among players with pairwise distinct identifiers, an eliminated player's
    identifier is not the identifier of any player still in the game. *)
Lemma eliminated_not_among_survivors ps p :
  NoDup (map userId ps) -> p ∈ ps -> isEliminated p = true ->
  userId p ∉ map userId (List.filter (fun q => negb (isEliminated q)) ps).
Proof.
  induction ps as [|q ps IH]; simpl; intros Hnd Hin He.
  - apply not_elem_of_nil.
  - apply NoDup_cons in Hnd as [Hfresh Hnd].
    apply elem_of_cons in Hin as [->|Hin].
    + rewrite He. simpl. intros Hc. apply Hfresh.
      apply list_elem_of_fmap in Hc as (x & Hx & Hxin).
      apply list_elem_of_In, filter_In in Hxin as [Hxin _].
      apply list_elem_of_fmap. exists x. split; [exact Hx | apply list_elem_of_In, Hxin].
    + destruct (isEliminated q); simpl; [apply IH; assumption|].
      apply not_elem_of_cons. split; [|apply IH; assumption].
      intros E. apply Hfresh. rewrite <- E. apply list_elem_of_fmap. eauto.
Qed.

Lemma survivors_NoDup ps :
  NoDup (map userId ps) ->
  NoDup (map userId (List.filter (fun q => negb (isEliminated q)) ps)).
Proof.
  induction ps as [|q ps IH]; simpl; intros Hnd; [constructor|].
  apply NoDup_cons in Hnd as [Hfresh Hnd].
  destruct (isEliminated q); simpl; [apply IH, Hnd|].
  apply NoDup_cons. split; [|apply IH, Hnd].
  intros Hc. apply Hfresh.
  apply list_elem_of_fmap in Hc as (x & Hx & Hxin).
  apply list_elem_of_In, filter_In in Hxin as [Hxin _].
  apply list_elem_of_fmap. exists x. split; [exact Hx | apply list_elem_of_In, Hxin].
Qed.

Lemma refundPlayers_users_ext ps a w1 w2 :
  users w1 = users w2 ->
  users (refundPlayers ps a w1) = users (refundPlayers ps a w2).
Proof.
  intros E. apply map_eq. intros v. rewrite !refundPlayers_lookup, E. reflexivity.
Qed.

Lemma beginGame_locked_cancel now rnd R w g :
  getGame (redis w) R = Some g -> status g = waiting ->
  (length (players g) < 2)%nat ->
  users (snd (beginGame_locked now rnd R w))
  = users (refundPlayers (players g) (entryAmount g) w).
Proof.
  intros Hg Hs Hlen. unfold beginGame_locked. rewrite Hg.
  rewrite bool_decide_eq_true_2 by exact Hs. simpl negb. cbv iota.
  apply Nat.ltb_lt in Hlen. rewrite Hlen. reflexivity.
Qed.

Lemma beginGame_users now rnd tokens R w g :
  getGame (redis w) R = Some g -> status g = waiting ->
  (length (players g) < 2)%nat ->
  users (snd (beginGame now rnd tokens R w))
  = users (refundPlayers (players g) (entryAmount g) w).
Proof.
  intros Hg Hs Hlen. unfold beginGame.
  destruct (acquireLockWithRetry_cases (joinLockKeyOf R) tokens 4 (redis w))
    as [[Hfree ->]|[Hheld ->]].
  - pose proof (beginGame_locked_cancel now rnd R
                  (set_redis (fun _ => <[joinLockKeyOf R := VStr (tokens 0%nat)]> (redis w)) w) g)
      as Hb.
    destruct (beginGame_locked now rnd R _) as [res w'] eqn:Eb. simpl in *.
    rewrite Hb; try assumption.
    + apply refundPlayers_users_ext. reflexivity.
    + rewrite getGame_insert_ne; [exact Hg|]. intros E. symmetry in E. revert E.
      apply gameKey_ne_joinLock.
  - rewrite set_redis_id by reflexivity.
    pose proof (beginGame_locked_cancel now rnd R w g Hg Hs Hlen) as Hb.
    destruct (beginGame_locked now rnd R w) as [res w'] eqn:Eb. exact Hb.
Qed.

(** C3. Every participant listed in [players] has been credited back exactly
    [entryAmount] after [cancelByStarter] (by the starter, while waiting),
    after [stopGame] (while waiting) and after the not-enough-players branch
    of [beginGame]; after [resetGame] that holds for every participant who is
    not marked [isEliminated], while the account of an eliminated participant
    is left as it was.  A participant debited [entryAmount] at the start is
    thereby back at the balance of before. *)
Theorem refunds_credit_back_entry (R : string) (w : World) (g : Game) :
  getGame (redis w) R = Some g ->
  NoDup (map userId (players g)) ->
  (forall name p, status g = waiting -> p ∈ players g ->
     creditedBack w (snd (cancelByStarter R (startedBy g) name w)) g p)
  /\ (forall p, status g = waiting -> p ∈ players g ->
        creditedBack w (snd (stopGame R w)) g p)
  /\ (forall now rnd tokens p, status g = waiting ->
        (length (players g) < 2)%nat -> p ∈ players g ->
        creditedBack w (snd (beginGame now rnd tokens R w)) g p)
  /\ (forall byUsername p, p ∈ players g ->
        if isEliminated p
        then notCredited w (snd (resetGame R byUsername w)) p
        else creditedBack w (snd (resetGame R byUsername w)) g p).
Proof.
  intros Hg Hnd. repeat split.
  - intros name p Hs Hin. unfold cancelByStarter. rewrite Hg.
    rewrite bool_decide_eq_true_2 by exact Hs. rewrite Z.eqb_refl. simpl.
    apply refundPlayers_creditedBack; assumption.
  - intros p Hs Hin. unfold stopGame. rewrite Hg.
    rewrite bool_decide_eq_false_2 by (rewrite Hs; discriminate). simpl.
    apply refundPlayers_creditedBack; assumption.
  - intros now rnd tokens p Hs Hlen Hin b Hb.
    rewrite (beginGame_users now rnd tokens R w g Hg Hs Hlen).
    apply (refundPlayers_creditedBack w (players g) g p Hnd Hin b Hb).
  - intros byUsername p Hin. unfold resetGame. rewrite Hg. simpl.
    destruct (isEliminated p) eqn:He.
    + apply refundPlayers_notCredited.
      apply eliminated_not_among_survivors; assumption.
    + apply refundPlayers_creditedBack; [apply survivors_NoDup, Hnd|].
      apply list_elem_of_In, filter_In. split; [apply list_elem_of_In, Hin|].
      rewrite He. reflexivity.
Qed.

Lemma refunds_credit_back_entry_witness :
  creditedBack (worldWith (sampleGame waiting 10 [alice; bob]))
    (snd (stopGame "r1" (worldWith (sampleGame waiting 10 [alice; bob]))))
    (sampleGame waiting 10 [alice; bob]) bob.
Proof.
  refine (proj1 (proj2 (refunds_credit_back_entry "r1"
            (worldWith (sampleGame waiting 10 [alice; bob]))
            (sampleGame waiting 10 [alice; bob]) _ _)) bob _ _).
  - reflexivity.
  - compute_done.
  - reflexivity.
  - apply list_elem_of_In. simpl. auto.
Defined.

(** C3, as stated, fails for [resetGame]: a participant already marked
    [isEliminated] gets nothing back. *)
Lemma resetGame_skips_eliminated :
  let g := sampleGame playing 10 [alice; set_isEliminated true bob] in
  getGame (redis (worldWith g)) "r1" = Some g
  /\ set_isEliminated true bob ∈ players g
  /\ users (worldWith g) !! 2 = Some 90
  /\ users (snd (resetGame "r1" "admin" (worldWith g))) !! 2 = Some 90
  /\ ~ creditedBack (worldWith g) (snd (resetGame "r1" "admin" (worldWith g))) g
         (set_isEliminated true bob).
Proof.
  cbv zeta. split; [reflexivity|]. split; [apply list_elem_of_In; simpl; auto|].
  split; [reflexivity|]. split; [vm_compute; reflexivity|].
  intros Hc. specialize (Hc 90 eq_refl). vm_compute in Hc. discriminate Hc.
Qed.

(** ** The pot is paid out less the house fee *)


Lemma survivors_elem p ps : p ∈ survivors ps <-> p ∈ ps /\ isEliminated p = false.
Proof.
  unfold survivors. rewrite !list_elem_of_In, filter_In.
  destruct (isEliminated p); simpl; intuition congruence.
Qed.

Lemma finishGame_winner R g wnr rest loser w :
  finishHouseFee (fst (finishGame R g (wnr :: rest) loser w)) = houseFeeOf g
  /\ finishWinnings (fst (finishGame R g (wnr :: rest) loser w)) = pot g - houseFeeOf g
  /\ finishWinnerId (fst (finishGame R g (wnr :: rest) loser w)) = Some (userId wnr)
  /\ users (snd (finishGame R g (wnr :: rest) loser w))
     = users (snd (addCredits (userId wnr) (pot g - houseFeeOf g) w)).
Proof.
  unfold finishGame. cbv zeta. cbn [hd_error].
  destruct (addCredits (userId wnr) (pot g - houseFeeOf g) w) as [[ok bal] w1].
  simpl. auto.
Qed.



(** ** Snapshots written by startGame and joinGame *)

Lemma getGame_ext (r1 r2 : Redis) R :
  r1 !! gameKeyOf R = r2 !! gameKeyOf R -> getGame r1 R = getGame r2 R.
Proof. intros E. unfold getGame. rewrite E. reflexivity. Qed.

Lemma releaseLock_lookup_ne k t (r : Redis) k' :
  k' ≠ k -> releaseLock k t r !! k' = r !! k'.
Proof.
  intros Hk. unfold releaseLock.
  destruct (r !! k) as [[v| | | |]|]; try reflexivity.
  destruct (decide (v = t)); [|reflexivity].
  apply lookup_delete_ne. congruence.
Qed.

Lemma alreadyJoined_elem u g : alreadyJoined u g = true <-> u ∈ map userId (players g).
Proof.
  unfold alreadyJoined. rewrite existsb_exists, list_elem_of_fmap. split.
  - intros (p & Hin & E). apply Z.eqb_eq in E. exists p.
    split; [congruence | apply list_elem_of_In, Hin].
  - intros (p & E & Hin). exists p. split; [apply list_elem_of_In, Hin|].
    apply Z.eqb_eq. congruence.
Qed.

(** What [joinGame] does under its lock, case by case. *)
Lemma joinGame_locked_cases mts now R u name w :
  (success (fst (joinGame_locked mts now R u name w)) = false
   /\ redis (snd (joinGame_locked mts now R u name w)) !! gameKeyOf R
      = redis w !! gameKeyOf R
   /\ users (snd (joinGame_locked mts now R u name w)) = users w)
  \/ (success (fst (joinGame_locked mts now R u name w)) = true
      /\ exists g, getGame (redis w) R = Some g
                   /\ status g = waiting
                   /\ alreadyJoined u g = false
                   /\ redis (snd (joinGame_locked mts now R u name w)) !! gameKeyOf R
                      = Some (VGame (addPlayer u name g))).
Proof.
  unfold joinGame_locked.
  destruct (getGame (redis w) R) as [g|] eqn:Hg; [|left; auto].
  destruct (bool_decide (status g = waiting)) eqn:Hs; [|left; auto].
  apply bool_decide_eq_true in Hs. simpl negb. cbv iota.
  destruct (match joinDeadline g with Some deadline => deadline <? now | None => false end);
    [left; auto|].
  destruct (alreadyJoined u g) eqn:Hj; [left; auto|].
  pose proof (deductCredits_redis mts u (entryAmount g) w (gameKeyOf R)
                (gameKey_ne_credits R u)) as Hr.
  destruct (deductCredits mts u (entryAmount g) w) as [[ok bal] w1] eqn:Hd.
  simpl in Hr. destruct ok; simpl.
  - right. split; [reflexivity|]. exists g. repeat split; auto.
    apply lookup_insert_eq.
  - left. split; [reflexivity|]. split; [exact Hr|].
    apply (deductCredits_failed _ _ _ _ _ _ Hd).
Qed.

Lemma joinGame_locked_joined mts now R u name w g :
  getGame (redis w) R = Some g -> alreadyJoined u g = true ->
  success (fst (joinGame_locked mts now R u name w)) = false
  /\ snd (joinGame_locked mts now R u name w) = w.
Proof.
  intros Hg Hj. unfold joinGame_locked. rewrite Hg.
  destruct (negb (bool_decide (status g = waiting))); [auto|].
  destruct (match joinDeadline g with Some deadline => deadline <? now | None => false end);
    [auto|].
  rewrite Hj. auto.
Qed.

(** The same, for the whole of [joinGame]. *)
Lemma joinGame_cases mts now tokens R u name w :
  (success (fst (joinGame mts now tokens R u name w)) = false
   /\ redis (snd (joinGame mts now tokens R u name w)) !! gameKeyOf R
      = redis w !! gameKeyOf R
   /\ users (snd (joinGame mts now tokens R u name w)) = users w)
  \/ (success (fst (joinGame mts now tokens R u name w)) = true
      /\ exists g, getGame (redis w) R = Some g
                   /\ status g = waiting
                   /\ alreadyJoined u g = false
                   /\ redis (snd (joinGame mts now tokens R u name w)) !! gameKeyOf R
                      = Some (VGame (addPlayer u name g))).
Proof.
  unfold joinGame.
  destruct (acquireLockWithRetry_cases (joinLockKeyOf R) tokens 4 (redis w))
    as [[Hfree ->]|[Hheld ->]]; [|left; auto].
  set (w0 := set_redis (fun _ => <[joinLockKeyOf R := VStr (tokens 0%nat)]> (redis w)) w).
  assert (H0 : redis w0 !! gameKeyOf R = redis w !! gameKeyOf R).
  { simpl. apply lookup_insert_ne. intros E. symmetry in E. revert E.
    apply gameKey_ne_joinLock. }
  destruct (joinGame_locked_cases mts now R u name w0) as [(Hs & Hr & Hu)|(Hs & g & Hg & Hst & Hj & Hr)];
    destruct (joinGame_locked mts now R u name w0) as [reply w'];
    simpl in *; [left|right]; (split; [exact Hs|]).
  - split; [|exact Hu].
    rewrite releaseLock_lookup_ne by apply gameKey_ne_joinLock. congruence.
  - exists g. rewrite (getGame_ext _ _ _ H0) in Hg. repeat split; auto.
    rewrite releaseLock_lookup_ne by apply gameKey_ne_joinLock. exact Hr.
Qed.

Lemma joinGame_joined mts now tokens R u name w g :
  getGame (redis w) R = Some g -> alreadyJoined u g = true ->
  success (fst (joinGame mts now tokens R u name w)) = false
  /\ snd (joinGame mts now tokens R u name w) = w.
Proof.
  intros Hg Hj. unfold joinGame.
  destruct (acquireLockWithRetry_cases (joinLockKeyOf R) tokens 4 (redis w))
    as [[Hfree ->]|[Hheld ->]]; [|auto].
  set (w0 := set_redis (fun _ => <[joinLockKeyOf R := VStr (tokens 0%nat)]> (redis w)) w).
  destruct (joinGame_locked_joined mts now R u name w0 g) as [Hs Hw]; [|exact Hj|].
  { simpl. rewrite getGame_insert_ne; [exact Hg|]. intros E. symmetry in E. revert E.
    apply gameKey_ne_joinLock. }
  destruct (joinGame_locked mts now R u name w0) as [reply w']. simpl in *.
  split; [exact Hs|]. subst w'. unfold w0. rewrite set_redis_set_redis.
  apply set_redis_id. apply release_after_acquire, Hfree.
Qed.

Lemma gameKey_ne_timer R : gameKeyOf R ≠ TIMER_KEY R.
Proof. key_ne. Qed.

Lemma cleared_slot R (r : Redis) :
  clearDeck R (clearTimer R (delete (gameKeyOf R) r)) !! gameKeyOf R = None.
Proof.
  unfold clearDeck, clearTimer.
  rewrite lookup_delete_ne by (intros E; symmetry in E; revert E; apply gameKey_ne_deck).
  rewrite lookup_delete_ne by (intros E; symmetry in E; revert E; apply gameKey_ne_timer).
  apply lookup_delete_eq.
Qed.

Lemma checkAndCleanupStaleGame_slot now R w :
  redis (snd (checkAndCleanupStaleGame now R w)) !! gameKeyOf R = redis w !! gameKeyOf R
  \/ redis (snd (checkAndCleanupStaleGame now R w)) !! gameKeyOf R = None.
Proof.
  unfold checkAndCleanupStaleGame.
  destruct (getGame (redis w) R) as [g|]; [|left; reflexivity].
  destruct (decide (status g = waiting)); [|left; reflexivity].
  destruct (joinDeadline g) as [deadline|]; [|left; reflexivity].
  destruct (truthy (Some deadline) && (deadline + STALE_GAME_TIMEOUT <? now));
    [|left; reflexivity].
  right. simpl. apply cleared_slot.
Qed.

Lemma startGame_existing_slot now R w w2 :
  startGame_existing now R w = Some w2 ->
  redis w2 !! gameKeyOf R = redis w !! gameKeyOf R \/ redis w2 !! gameKeyOf R = None.
Proof.
  unfold startGame_existing.
  destruct (getGame (redis w) R) as [g|]; [|intros H; inversion H; auto].
  destruct (decide (status g = waiting \/ status g = playing)).
  - destruct (negb (bool_decide (is_Some (getTimer (redis w) R)))
              && bool_decide (status g = waiting) && (40000 <? now - createdAt g));
      intros H; inversion H. right. simpl. unfold clearDeck.
    rewrite lookup_delete_ne by (intros E; symmetry in E; revert E; apply gameKey_ne_deck).
    apply lookup_delete_eq.
  - intros H; inversion H. right. simpl. apply lookup_delete_eq.
Qed.

Lemma startGame_catch_slot u a w R :
  success (fst (startGame_catch u a w)) = false
  /\ redis (snd (startGame_catch u a w)) !! gameKeyOf R = redis w !! gameKeyOf R.
Proof.
  unfold startGame_catch. simpl. split; [reflexivity|].
  destruct (0 <? a); [|reflexivity].
  apply addCredits_redis, gameKey_ne_credits.
Qed.

(** The only snapshot [startGame] ever writes is [newGame]. *)
Lemma startGame_create_slot now env R u name entry bal w :
  let res := startGame_create now env R u name entry bal w in
  (success (fst res) = false
   /\ (redis (snd res) !! gameKeyOf R = redis w !! gameKeyOf R
       \/ redis (snd res) !! gameKeyOf R = None
       \/ redis (snd res) !! gameKeyOf R = Some (VGame (newGame now env R u name entry))))
  \/ (success (fst res) = true
      /\ redis (snd res) !! gameKeyOf R = Some (VGame (newGame now env R u name entry))).
Proof.
  cbv zeta. unfold startGame_create.
  destruct (historyInsertThrows env).
  { left. destruct (startGame_catch_slot u entry w R) as [Hs Hr]. auto. }
  destruct (gameWrite env).
  - destruct (gameReadBack env).
    + right. simpl. split; [reflexivity|]. apply lookup_insert_eq.
    + left. simpl. split; [reflexivity|]. right. left.
      rewrite addCredits_redis by apply gameKey_ne_credits. simpl.
      apply lookup_delete_eq.
    + left.
      destruct (startGame_catch_slot u entry
                  (set_redis <[gameKeyOf R := VGame (newGame now env R u name entry)]> w) R)
        as [Hs Hr].
      split; [exact Hs|]. right. right. rewrite Hr. simpl. apply lookup_insert_eq.
  - left. simpl. split; [reflexivity|]. left.
    apply addCredits_redis, gameKey_ne_credits.
  - left. destruct (startGame_catch_slot u entry w R) as [Hs Hr]. auto.
Qed.

Lemma startGame_locked_slot mts now env R u name amount w :
  let res := startGame_locked mts now env R u name amount w in
  (success (fst res) = false
   /\ (redis (snd res) !! gameKeyOf R = redis w !! gameKeyOf R
       \/ redis (snd res) !! gameKeyOf R = None
       \/ exists entry,
            redis (snd res) !! gameKeyOf R = Some (VGame (newGame now env R u name entry))))
  \/ (success (fst res) = true
      /\ exists entry,
           redis (snd res) !! gameKeyOf R = Some (VGame (newGame now env R u name entry))).
Proof.
  cbv zeta. unfold startGame_locked.
  pose proof (checkAndCleanupStaleGame_slot now R w) as H1.
  set (w1 := snd (checkAndCleanupStaleGame now R w)) in *.
  assert (Hkeep : forall w2 : World,
             redis w2 !! gameKeyOf R = redis w1 !! gameKeyOf R
             \/ redis w2 !! gameKeyOf R = None ->
             redis w2 !! gameKeyOf R = redis w !! gameKeyOf R
             \/ redis w2 !! gameKeyOf R = None).
  { intros w2 [E|E]; [|auto]. rewrite E. exact H1. }
  destruct (startGame_existing now R w1) as [w2|] eqn:He.
  2:{ left. simpl. split; [reflexivity|]. destruct H1; auto. }
  apply startGame_existing_slot in He. apply Hkeep in He.
  destruct (requestedAmountOf amount (minEntryOf R w2) <? minEntryOf R w2).
  { left. simpl. split; [reflexivity|]. destruct He; auto. }
  destruct (negb (isBigGameRoom R w2)
            && (MAX_ENTRY <? requestedAmountOf amount (minEntryOf R w2))).
  { left. simpl. split; [reflexivity|]. destruct He; auto. }
  pose proof (deductCredits_redis mts u (requestedAmountOf amount (minEntryOf R w2)) w2
                (gameKeyOf R) (gameKey_ne_credits R u)) as Hd.
  destruct (deductCredits mts u (requestedAmountOf amount (minEntryOf R w2)) w2)
    as [[ok bal] w3].
  simpl in Hd. destruct ok; simpl negb; cbv iota.
  2:{ left. simpl. split; [reflexivity|]. rewrite Hd. destruct He; auto. }
  destruct (startGame_create_slot now env R u name
              (requestedAmountOf amount (minEntryOf R w2)) bal w3)
    as [(Hs & Hr)|(Hs & Hr)].
  - left. split; [exact Hs|]. rewrite Hd in Hr.
    destruct Hr as [Hr|[Hr|Hr]]; [rewrite Hr; destruct He; auto | auto | eauto].
  - right. eauto.
Qed.

Lemma startGame_slot mts now env R u name amount w :
  let res := startGame mts now env R u name amount w in
  (success (fst res) = false
   /\ (redis (snd res) !! gameKeyOf R = redis w !! gameKeyOf R
       \/ redis (snd res) !! gameKeyOf R = None
       \/ exists entry,
            redis (snd res) !! gameKeyOf R = Some (VGame (newGame now env R u name entry))))
  \/ (success (fst res) = true
      /\ exists entry,
           redis (snd res) !! gameKeyOf R = Some (VGame (newGame now env R u name entry))).
Proof.
  cbv zeta. unfold startGame. unfold acquireLock.
  destruct (redis w !! startLockKeyOf R) eqn:El.
  { left. simpl. auto. }
  set (w0 := set_redis (fun _ => <[startLockKeyOf R := VStr "1"]> (redis w)) w).
  assert (H0 : redis w0 !! gameKeyOf R = redis w !! gameKeyOf R).
  { simpl. apply lookup_insert_ne. intros E. symmetry in E. revert E.
    apply gameKey_ne_startLock. }
  pose proof (startGame_locked_slot mts now env R u name amount w0) as H.
  cbv zeta in H.
  destruct (startGame_locked mts now env R u name amount w0) as [reply w'].
  simpl in *.
  rewrite lookup_delete_ne by (intros E; symmetry in E; revert E; apply gameKey_ne_startLock).
  rewrite H0 in H. exact H.
Qed.

Lemma getGame_Some (r : Redis) R g :
  getGame r R = Some g <-> r !! gameKeyOf R = Some (VGame g).
Proof.
  unfold getGame. split.
  - destruct (r !! gameKeyOf R) as [[| |g'| |]|]; intros H; inversion H; reflexivity.
  - intros ->. reflexivity.
Qed.

Lemma potInvariant_newGame now env R u name entry :
  potInvariant (newGame now env R u name entry).
Proof. unfold potInvariant. simpl. lia. Qed.

Lemma potInvariant_addPlayer u name g :
  potInvariant g -> potInvariant (addPlayer u name g).
Proof.
  unfold potInvariant. simpl. intros ->. rewrite length_app. simpl. lia.
Qed.

(** C4. Every snapshot that [startGame] or [joinGame] leaves under the game
    key satisfies [pot = entryAmount * |players|]: a snapshot written by
    [startGame] has the starter as its one player and [pot = entryAmount];
    a successful [joinGame] stores the snapshot it read with exactly one
    player appended and [pot] raised by exactly [entryAmount], which keeps
    the equation; an unsuccessful [joinGame] leaves the snapshot as it was. *)
Theorem written_snapshots_keep_pot_invariant (mts : MerchantTagService)
    (now : Z) (env : StartEnv) (tokens : nat -> string) (R : string)
    (u : UserId) (name : string) (amount : JsArg) (w : World) :
  (forall g', getGame (redis (snd (startGame mts now env R u name amount w))) R = Some g' ->
     getGame (redis w) R = Some g'
     \/ (players g' = [newPlayer u name] /\ pot g' = entryAmount g' /\ potInvariant g'))
  /\ (success (fst (startGame mts now env R u name amount w)) = true ->
        exists g', getGame (redis (snd (startGame mts now env R u name amount w))) R = Some g'
                   /\ players g' = [newPlayer u name]
                   /\ pot g' = entryAmount g' /\ potInvariant g')
  /\ (success (fst (joinGame mts now tokens R u name w)) = true ->
        exists g g', getGame (redis w) R = Some g
                     /\ getGame (redis (snd (joinGame mts now tokens R u name w))) R = Some g'
                     /\ players g' = (players g ++ [newPlayer u name])%list
                     /\ pot g' = pot g + entryAmount g
                     /\ entryAmount g' = entryAmount g
                     /\ (potInvariant g -> potInvariant g'))
  /\ (forall g g', getGame (redis w) R = Some g -> potInvariant g ->
        getGame (redis (snd (joinGame mts now tokens R u name w))) R = Some g' ->
        potInvariant g').
Proof.
  pose proof (startGame_slot mts now env R u name amount w) as Hstart. cbv zeta in Hstart.
  pose proof (joinGame_cases mts now tokens R u name w) as Hjoin.
  split; [|split; [|split]].
  - intros g' Hg'. apply getGame_Some in Hg'.
    destruct Hstart as [(_ & [E|[E|(entry & E)]])|(_ & entry & E)].
    + left. apply getGame_Some. congruence.
    + congruence.
    + right. assert (g' = newGame now env R u name entry) as -> by congruence.
      repeat split. apply potInvariant_newGame.
    + right. assert (g' = newGame now env R u name entry) as -> by congruence.
      repeat split. apply potInvariant_newGame.
  - intros Hs. destruct Hstart as [(Hf & _)|(_ & entry & E)]; [congruence|].
    exists (newGame now env R u name entry). split; [apply getGame_Some, E|].
    repeat split. apply potInvariant_newGame.
  - intros Hs. destruct Hjoin as [(Hf & _)|(_ & g & Hg & _ & _ & E)]; [congruence|].
    exists g, (addPlayer u name g). split; [exact Hg|].
    split; [apply getGame_Some, E|]. repeat split. apply potInvariant_addPlayer.
  - intros g g' Hg Hinv Hg'. apply getGame_Some in Hg'.
    destruct Hjoin as [(_ & E & _)|(_ & g0 & Hg0 & _ & _ & E)].
    + apply getGame_Some in Hg. assert (g' = g) as -> by congruence. exact Hinv.
    + assert (g0 = g) as -> by congruence.
      assert (g' = addPlayer u name g) as -> by congruence.
      apply potInvariant_addPlayer, Hinv.
Qed.

Lemma written_snapshots_keep_pot_invariant_witness :
  exists g', getGame (redis (snd (startGame noTags 1000 healthy "r1" 1 "alice"
                                    (JsString "10") (sampleWorld 90 ∅)))) "r1" = Some g'
             /\ potInvariant g'.
Proof.
  destruct (written_snapshots_keep_pot_invariant noTags 1000 healthy (fun _ => "a1b2")
              "r1" 1 "alice" (JsString "10") (sampleWorld 90 ∅)) as (_ & H & _).
  destruct H as (g' & Hg' & _ & _ & Hinv); [vm_compute; reflexivity|].
  exists g'. split; [exact Hg' | exact Hinv].
Defined.

(** ** No duplicate join *)

(** C5. [joinGame] rejects a user whose identifier is already in [players]:
    the reply has [success = false], nothing is deducted and the world, the
    snapshot included, is the one of before.  Hence in every snapshot
    reachable from [startGame] through [joinGame] calls each identifier
    occurs once: the number of distinct identifiers is the number of players. *)
Theorem no_duplicate_join :
  (forall mts now tokens R u name w g,
     getGame (redis w) R = Some g ->
     u ∈ map userId (players g) ->
     success (fst (joinGame mts now tokens R u name w)) = false
     /\ snd (joinGame mts now tokens R u name w) = w)
  /\ (forall R w g,
        Reachable R w -> getGame (redis w) R = Some g ->
        NoDup (map userId (players g))
        /\ size (list_to_set (map userId (players g)) : gset Z) = length (players g)).
Proof.
  split.
  - intros mts now tokens R u name w g Hg Hin.
    apply joinGame_joined with (g := g); [exact Hg|]. apply alreadyJoined_elem, Hin.
  - assert (Hnd : forall R w, Reachable R w -> forall g,
               getGame (redis w) R = Some g -> NoDup (map userId (players g))).
    { intros R w Hr. induction Hr as [mts now env u name amount w Hs
                                     | mts now tokens u name w Hr IH]; intros g Hg.
      - apply getGame_Some in Hg.
        pose proof (startGame_slot mts now env R u name amount w) as H. cbv zeta in H.
        destruct H as [(Hf & _)|(_ & entry & E)]; [congruence|].
        assert (g = newGame now env R u name entry) as -> by congruence.
        simpl. apply NoDup_singleton.
      - apply getGame_Some in Hg.
        destruct (joinGame_cases mts now tokens R u name w)
          as [(_ & E & _)|(_ & g0 & Hg0 & _ & Hj & E)].
        + apply IH. apply getGame_Some. congruence.
        + assert (g = addPlayer u name g0) as -> by congruence.
          simpl. rewrite map_app. simpl. apply NoDup_app. split; [apply IH, Hg0|].
          split; [|apply NoDup_singleton].
          intros x Hx Hx'. apply list_elem_of_singleton in Hx'. subst x.
          apply alreadyJoined_elem in Hx. congruence. }
    intros R w g Hr Hg. split; [eapply Hnd; eauto|].
    rewrite size_list_to_set by (eapply Hnd; eauto).
    apply length_map.
Qed.

Lemma no_duplicate_join_witness :
  success (fst (joinGame noTags 2000 (fun _ => "a1b2") "r1" 2 "bob"
                  (worldWith (sampleGame waiting 10 [alice; bob])))) = false
  /\ snd (joinGame noTags 2000 (fun _ => "a1b2") "r1" 2 "bob"
            (worldWith (sampleGame waiting 10 [alice; bob])))
     = worldWith (sampleGame waiting 10 [alice; bob]).
Proof.
  destruct no_duplicate_join as [H _].
  apply (H noTags 2000 (fun _ => "a1b2") "r1" 2 "bob"
           (worldWith (sampleGame waiting 10 [alice; bob]))
           (sampleGame waiting 10 [alice; bob])).
  - reflexivity.
  - apply list_elem_of_In. simpl. auto.
Defined.

(** ** Validation of the requested amount *)

Lemma minEntryOf_pos R w : 0 < minEntryOf R w.
Proof.
  unfold minEntryOf, MIN_ENTRY_BIG_GAME, MIN_ENTRY. destruct (isBigGameRoom R w); lia.
Qed.

Lemma requestedAmountOf_negative amount m z :
  parseInt amount = Some z -> z < 0 -> 0 < m -> requestedAmountOf amount m < m.
Proof.
  intros Hp Hz Hm. unfold requestedAmountOf. rewrite Hp.
  destruct (z =? 0) eqn:E; [apply Z.eqb_eq in E|]; lia.
Qed.

(** A parsed zero is falsy: [parseInt (amount) || minEntry] is [minEntry]. *)
Lemma requestedAmountOf_zero amount m :
  parseInt amount = Some 0 -> requestedAmountOf amount m = m.
Proof. intros Hp. unfold requestedAmountOf. rewrite Hp. reflexivity. Qed.

Lemma requestedAmountOf_absent m : requestedAmountOf JsUndefined m = m.
Proof. reflexivity. Qed.

(** An amount below the minimum is refused before anything is deducted or
    written: the world is the one left by the cleanup of earlier games. *)
Lemma startGame_locked_below_minimum mts now env R u name amount w w2 :
  startGame_existing now R (snd (checkAndCleanupStaleGame now R w)) = Some w2 ->
  requestedAmountOf amount (minEntryOf R w2) < minEntryOf R w2 ->
  startGame_locked mts now env R u name amount w
  = (reject (Some ("Minimal " +:+ pretty (minEntryOf R w2) +:+ " COINS to start game."))
       false true, w2).
Proof.
  intros He Hlt. unfold startGame_locked. rewrite He.
  apply Z.ltb_lt in Hlt. rewrite Hlt. reflexivity.
Qed.

Lemma startGame_locked_negative_rejected mts now env R u name amount w w2 z :
  startGame_existing now R (snd (checkAndCleanupStaleGame now R w)) = Some w2 ->
  parseInt amount = Some z -> z < 0 ->
  startGame_locked mts now env R u name amount w
  = (reject (Some ("Minimal " +:+ pretty (minEntryOf R w2) +:+ " COINS to start game."))
       false true, w2).
Proof.
  intros He Hp Hz. apply startGame_locked_below_minimum; [exact He|].
  apply (requestedAmountOf_negative amount _ z Hp Hz), minEntryOf_pos.
Qed.

(** Whatever parses to zero is treated like an absent amount. *)
Lemma startGame_zero_amount_is_default mts now env R u name amount w :
  parseInt amount = Some 0 ->
  startGame mts now env R u name amount w
  = startGame mts now env R u name JsUndefined w.
Proof.
  intros Hp. unfold startGame.
  destruct (acquireLock (startLockKeyOf R) "1" (redis w)) as [[t|] r0]; [|reflexivity].
  unfold startGame_locked.
  destruct (startGame_existing now R _) as [w2|]; [|reflexivity].
  cbv zeta. rewrite (requestedAmountOf_zero amount _ Hp), requestedAmountOf_absent.
  reflexivity.
Qed.

(** C6 at the amount ["0"]: the start is not rejected.  The parsed zero is
    replaced by the minimum entry of the room, which is deducted from the
    starter, and a snapshot with that entry is written. *)
Theorem startGame_zero_amount_starts_game :
  let res := startGame noTags 1000 healthy "r1" 1 "alice" (JsString "0")
               (sampleWorld 90 ∅) in
  parseInt (JsString "0") = Some 0
  /\ success (fst res) = true
  /\ users (snd res) !! 1 = Some (90 - MIN_ENTRY)
  /\ exists g, getGame (redis (snd res)) "r1" = Some g
               /\ entryAmount g = MIN_ENTRY /\ pot g = MIN_ENTRY.
Proof.
  cbv zeta. split; [reflexivity|]. split; [vm_compute; reflexivity|].
  split; [vm_compute; reflexivity|].
  eexists. split; [vm_compute; reflexivity|]. split; reflexivity.
Qed.

(** ** Rollback of a failed start *)

Lemma deductCredits_account mts u a w res w' b0 :
  deductCredits mts u a w = (res, w') -> users w !! u = Some b0 ->
  exists c, users w' !! u = Some c.
Proof.
  unfold deductCredits. pose proof (getUserCredits_users u w) as Hg.
  destruct (getUserCredits u w) as [current w1]. simpl in Hg.
  intros H Hb.
  repeat match type of H with
         | context [if ?b then _ else _] => destruct b
         | context [match users ?x !! ?y with Some _ => _ | None => _ end] =>
             destruct (users x !! y) eqn:?
         | context [match ?x with Some _ => _ | None => _ end] => destruct x
         | context [let '(_, _) := ?x in _] => destruct x
         end; inversion H; subst; simpl;
    try (rewrite Hg, Hb; eauto); try (rewrite lookup_insert_eq; eauto).
Qed.

Lemma startGame_catch_users u a w :
  0 < a -> users (snd (startGame_catch u a w)) = users (snd (addCredits u a w)).
Proof.
  intros Ha. unfold startGame_catch. simpl.
  apply Z.ltb_lt in Ha. rewrite Ha. reflexivity.
Qed.

Lemma addCredits_users_redis_irrelevant u a f w :
  users (snd (addCredits u a (set_redis f w))) = users (snd (addCredits u a w)).
Proof. unfold addCredits. simpl. destruct (users w !! u); reflexivity. Qed.

(** On every failure after the deduction the reply is a refusal with one of
    the creation-failure messages and [entryAmount] has been added back. *)
Lemma startGame_create_failure now env R u name entry bal w :
  0 < entry -> failing env ->
  success (fst (startGame_create now env R u name entry bal w)) = false
  /\ (exists m, message (fst (startGame_create now env R u name entry bal w)) = Some m
                /\ m ∈ creationFailureMessages)
  /\ users (snd (startGame_create now env R u name entry bal w))
     = users (snd (addCredits u entry w)).
Proof.
  intros Hpos Hfail. unfold startGame_create.
  assert (Hm1 : "Failed to create game. Credits refunded. Please try again."
                ∈ creationFailureMessages) by (apply list_elem_of_In; simpl; auto).
  assert (Hm2 : "Game verification failed. Credits refunded. Please try again."
                ∈ creationFailureMessages) by (apply list_elem_of_In; simpl; auto).
  assert (Hm3 : "Game creation error. Credits refunded. Please try again."
                ∈ creationFailureMessages) by (apply list_elem_of_In; simpl; auto).
  assert (Hcatch : forall w0, users w0 = users w ->
            success (fst (startGame_catch u entry w0)) = false
            /\ (exists m, message (fst (startGame_catch u entry w0)) = Some m
                          /\ m ∈ creationFailureMessages)
            /\ users (snd (startGame_catch u entry w0)) = users (snd (addCredits u entry w))).
  { intros w0 E. split; [reflexivity|]. split; [eexists; split; [reflexivity | exact Hm3]|].
    rewrite startGame_catch_users by exact Hpos.
    unfold addCredits. rewrite E. destruct (users w !! u); simpl; congruence. }
  destruct (historyInsertThrows env) eqn:Eh; [apply Hcatch; reflexivity|].
  destruct (gameWrite env) eqn:Ew.
  - destruct (gameReadBack env) eqn:Er.
    + destruct Hfail as [?|[?|?]]; congruence.
    + split; [reflexivity|]. split; [eexists; split; [reflexivity | exact Hm2]|].
      simpl snd. rewrite set_redis_set_redis.
      apply addCredits_users_redis_irrelevant.
    + apply Hcatch. reflexivity.
  - split; [reflexivity|]. split; [eexists; split; [reflexivity | exact Hm1]|].
    reflexivity.
  - apply Hcatch. reflexivity.
Qed.

Lemma startGame_reaches_create mts now env R u name amount w w2 w3 bal :
  redis w !! startLockKeyOf R = None ->
  startGame_existing now R
    (snd (checkAndCleanupStaleGame now R
            (set_redis (fun _ => <[startLockKeyOf R := VStr "1"]> (redis w)) w)))
  = Some w2 ->
  minEntryOf R w2 <= requestedAmountOf amount (minEntryOf R w2) ->
  isBigGameRoom R w2 = true \/ requestedAmountOf amount (minEntryOf R w2) <= MAX_ENTRY ->
  deductCredits mts u (requestedAmountOf amount (minEntryOf R w2)) w2 = ((true, bal), w3) ->
  startGame mts now env R u name amount w
  = (fst (startGame_create now env R u name
            (requestedAmountOf amount (minEntryOf R w2)) bal w3),
     set_redis (delete (startLockKeyOf R))
       (snd (startGame_create now env R u name
               (requestedAmountOf amount (minEntryOf R w2)) bal w3))).
Proof.
  intros Hlock He Hmin Hmax Hd. unfold startGame.
  rewrite acquireLock_free by exact Hlock.
  unfold startGame_locked. rewrite He.
  destruct (requestedAmountOf amount (minEntryOf R w2) <? minEntryOf R w2) eqn:E1;
    [apply Z.ltb_lt in E1; lia|].
  assert (E2 : negb (isBigGameRoom R w2)
               && (MAX_ENTRY <? requestedAmountOf amount (minEntryOf R w2)) = false).
  { destruct Hmax as [->|Hle]; [reflexivity|].
    apply andb_false_iff. right. apply Z.ltb_ge. exact Hle. }
  rewrite E2, Hd. simpl negb. cbv iota.
  destruct (startGame_create now env R u name _ bal w3). reflexivity.
Qed.

(** C8. When [startGame] fails after a successful deduction (the history
    insert throws, the snapshot write throws or answers falsy, the read-back
    throws or finds nothing) it answers [success = false] with a
    creation-failure message and the starter has been credited exactly the
    deducted [entryAmount]; when the deduction came out of the starter's
    credits (no tagged credits involved) the starter's credit is the one of
    before the deduction, and so is every other account.  [w2] is the world
    at the moment of the deduction, after the lock was taken and left-over
    games were cleaned up. *)
Theorem startGame_failure_refunds (mts : MerchantTagService) (now : Z)
    (env : StartEnv) (R : string) (u : UserId) (name : string) (amount : JsArg)
    (w w2 w3 : World) (bal b0 : Z) :
  redis w !! startLockKeyOf R = None ->
  startGame_existing now R
    (snd (checkAndCleanupStaleGame now R
            (set_redis (fun _ => <[startLockKeyOf R := VStr "1"]> (redis w)) w)))
  = Some w2 ->
  minEntryOf R w2 <= requestedAmountOf amount (minEntryOf R w2) ->
  isBigGameRoom R w2 = true \/ requestedAmountOf amount (minEntryOf R w2) <= MAX_ENTRY ->
  users w2 !! u = Some b0 ->
  deductCredits mts u (requestedAmountOf amount (minEntryOf R w2)) w2 = ((true, bal), w3) ->
  failing env ->
  success (fst (startGame mts now env R u name amount w)) = false
  /\ (exists m, message (fst (startGame mts now env R u name amount w)) = Some m
                /\ m ∈ creationFailureMessages)
  /\ (exists c, users w3 !! u = Some c
                /\ users (snd (startGame mts now env R u name amount w))
                   = <[u := c + requestedAmountOf amount (minEntryOf R w2)]> (users w3))
  /\ (getTaggedBalance mts u <= 0 ->
      users (snd (startGame mts now env R u name amount w)) = users w2).
Proof.
  intros Hlock He Hmin Hmax Hb Hd Hfail.
  rewrite (startGame_reaches_create mts now env R u name amount w w2 w3 bal
             Hlock He Hmin Hmax Hd).
  set (entry := requestedAmountOf amount (minEntryOf R w2)) in *.
  assert (Hpos : 0 < entry) by (pose proof (minEntryOf_pos R w2); lia).
  destruct (startGame_create_failure now env R u name entry bal w3 Hpos Hfail)
    as (Hs & Hm & Hu).
  simpl fst. simpl snd. split; [exact Hs|]. split; [exact Hm|].
  destruct (deductCredits_account mts u entry w2 _ w3 b0 Hd Hb) as [c Hc].
  assert (Hus : users (set_redis (delete (startLockKeyOf R))
                         (snd (startGame_create now env R u name entry bal w3)))
                = <[u := c + entry]> (users w3)).
  { simpl. rewrite Hu. apply addCredits_users, Hc. }
  split; [exists c; split; [exact Hc | exact Hus]|].
  intros Htag. rewrite Hus.
  destruct (deductCredits_regular mts u entry w2 bal w3 Htag Hpos Hd)
    as (b & Hb' & _ & _ & Hw3).
  assert (b = b0) as -> by congruence.
  rewrite Hw3 in Hc. rewrite lookup_insert_eq in Hc. inversion Hc; subst c.
  rewrite Hw3, insert_insert_eq. apply insert_id. rewrite Hb. f_equal. lia.
Qed.

Lemma startGame_failure_refunds_witness :
  success (fst (startGame noTags 1000 vanishing "r1" 1 "alice" (JsString "10")
                  (sampleWorld 90 ∅))) = false
  /\ users (snd (startGame noTags 1000 vanishing "r1" 1 "alice" (JsString "10")
                   (sampleWorld 90 ∅))) = users lockedWorld.
Proof.
  pose proof (startGame_failure_refunds noTags 1000 vanishing "r1" 1 "alice"
                (JsString "10") (sampleWorld 90 ∅) lockedWorld
                (snd (deductCredits noTags 1 10 lockedWorld)) 80 90) as H.
  destruct H as (Hs & _ & _ & Hu).
  - reflexivity.
  - vm_compute. reflexivity.
  - vm_compute. discriminate.
  - right. vm_compute. discriminate.
  - reflexivity.
  - vm_compute. reflexivity.
  - right. right. discriminate.
  - split; [exact Hs|]. apply Hu. simpl. lia.
Defined.

(** ** Drawing a card *)

Lemma length_swap {A} (l : list A) i j : length (swap l i j) = length l.
Proof.
  unfold swap. destruct (l !! i), (l !! j); try reflexivity.
  rewrite !length_insert. reflexivity.
Qed.

Lemma length_shuffleFrom {A} rnd i : forall l : list A,
  length (shuffleFrom rnd i l) = length l.
Proof.
  induction i as [|i IH]; intros l; simpl; [reflexivity|].
  rewrite IH. apply length_swap.
Qed.

(** A generated deck has the 52 cards' worth of length, shuffled or not. *)
Lemma length_generateDeck rnd : length (generateDeck rnd) = 52%nat.
Proof. unfold generateDeck, shuffleDeck. rewrite length_shuffleFrom. reflexivity. Qed.

Lemma deckToDrawFrom_nonempty rnd R r : deckToDrawFrom rnd R r ≠ [].
Proof.
  unfold deckToDrawFrom.
  assert (Hg : generateDeck rnd ≠ []).
  { intros E. pose proof (length_generateDeck rnd) as Hl. rewrite E in Hl. discriminate Hl. }
  destruct (getDeck r R) as [[|x dk]|]; try exact Hg. discriminate.
Qed.



Lemma drawRefused_false now u g :
  drawRefused now u g = false ->
  status g = playing
  /\ truthy (countdownEndsAt g) && (now <? default 0 (countdownEndsAt g)) = false
  /\ exists i p, list_find (activeWithId u) (players g) = Some (i, p)
                 /\ isTieBreaker g && negb (inTieBreaker p) = false
                 /\ hasDrawn p = false.
Proof.
  unfold drawRefused. intros H.
  apply orb_false_iff in H as [H H3]. apply orb_false_iff in H as [H1 H2].
  apply negb_false_iff, bool_decide_eq_true in H1. split; [exact H1|].
  split.
  { destruct (countdownEndsAt g); [exact H2 | reflexivity]. }
  destruct (list_find (activeWithId u) (players g)) as [[i p]|]; [|discriminate].
  apply orb_false_iff in H3 as [H3 H4]. eauto.
Qed.

Lemma drawCardForPlayer_locked_refused now rnd R u name w g :
  getGame (redis w) R = Some g -> drawRefused now u g = true ->
  success (fst (drawCardForPlayer_locked now rnd R u name w)) = false
  /\ snd (drawCardForPlayer_locked now rnd R u name w) = w.
Proof.
  intros Hg Hr. unfold drawCardForPlayer_locked. rewrite Hg.
  destruct (negb (bool_decide (status g = playing))) eqn:E1; [auto|].
  destruct (truthy (countdownEndsAt g) && (now <? default 0 (countdownEndsAt g))) eqn:E2;
    [auto|].
  destruct (list_find (activeWithId u) (players g)) as [[i p]|] eqn:E3; [|auto].
  destruct (isTieBreaker g && negb (inTieBreaker p)) eqn:E4; [auto|].
  destruct (hasDrawn p) eqn:E5; [auto|].
  exfalso. unfold drawRefused in Hr. rewrite E1, E3, E4, E5 in Hr.
  destruct (countdownEndsAt g) as [t|]; simpl in *; [|discriminate Hr].
  rewrite E2 in Hr. discriminate Hr.
Qed.


Lemma drawCardForPlayer_locked_accepted now rnd R u name w g :
  getGame (redis w) R = Some g -> drawRefused now u g = false ->
  exists i p cd,
    list_find (activeWithId u) (players g) = Some (i, p)
    /\ last (deckToDrawFrom rnd R (redis w)) = Some cd
    /\ drawCardForPlayer_locked now rnd R u name w
       = (accept (name +:+ ": " +:+ getCardEmoji (Some cd)) None None (Some cd),
          set_redis (fun _ =>
            <[gameKeyOf R :=
                VGame (set_players (<[i := set_draw true (Some cd) p]> (players g)) g)]>
              (<[deckKeyOf R := VDeck (removelast (deckToDrawFrom rnd R (redis w)))]>
                 (redis w))) w).
Proof.
  intros Hg Hr. apply drawRefused_false in Hr as (Hs & Hc & i & p & Hf & Ht & Hd).
  destruct (proj2 (last_is_Some (deckToDrawFrom rnd R (redis w)))
              (deckToDrawFrom_nonempty rnd R (redis w))) as [cd Hcd].
  exists i, p, cd. split; [exact Hf|]. split; [exact Hcd|].
  unfold drawCardForPlayer_locked. rewrite Hg.
  rewrite bool_decide_eq_true_2 by exact Hs. simpl negb. cbv iota.
  rewrite Hc, Hf, Ht, Hd. unfold drawCardFromDeck. cbv zeta. rewrite Hcd. reflexivity.
Qed.




(** ** Tallying a round *)

Lemma isLowest_app hands1 hands2 p :
  isLowest (hands1 ++ hands2) p = isLowest hands1 p && isLowest hands2 p.
Proof. unfold isLowest. apply forallb_app. Qed.

Lemma isLowest_le hands p q :
  isLowest hands p = true -> In q hands -> cardValue p <= cardValue q.
Proof.
  unfold isLowest. rewrite forallb_forall. intros H Hq. apply Z.leb_le, H, Hq.
Qed.

Lemma isLowest_intro hands p :
  (forall q, In q hands -> cardValue p <= cardValue q) -> isLowest hands p = true.
Proof.
  intros H. unfold isLowest. apply forallb_forall. intros q Hq. apply Z.leb_le, H, Hq.
Qed.

(** A non-empty hand list has a lowest card. *)
Lemma exists_lowest hands :
  hands ≠ [] -> exists q, In q hands /\ isLowest hands q = true.
Proof.
  induction hands as [|p hands IH]; [congruence|]. intros _.
  destruct hands as [|p' hands'].
  - exists p. split; [left; reflexivity|]. apply isLowest_intro.
    intros q [<-|[]]. lia.
  - destruct IH as (q & Hq & Hlow); [discriminate|].
    destruct (Z.le_gt_cases (cardValue p) (cardValue q)) as [Hle|Hgt].
    + exists p. split; [left; reflexivity|]. apply isLowest_intro.
      intros x [<-|Hx]; [lia|]. pose proof (isLowest_le _ _ _ Hlow Hx). lia.
    + exists q. split; [right; exact Hq|]. apply isLowest_intro.
      intros x [<-|Hx]; [lia|]. apply (isLowest_le _ _ _ Hlow Hx).
Qed.

(** One turn of the loop keeps [lowestHands] equal to the lowest cards seen. *)
Lemma lowestStep_spec pre p :
  lowestStep (List.filter (isLowest pre) pre) p
  = List.filter (isLowest (pre ++ [p])) (pre ++ [p]).
Proof.
  rewrite List.filter_app.
  destruct (List.filter (isLowest pre) pre) as [|q acc] eqn:Eacc.
  - assert (pre = []) as ->.
    { destruct pre as [|x pre']; [reflexivity|].
      destruct (exists_lowest (x :: pre')) as (q & Hq & Hl); [discriminate|].
      assert (Hin : In q (List.filter (isLowest (x :: pre')) (x :: pre')))
        by (apply filter_In; auto).
      rewrite Eacc in Hin. destruct Hin. }
    simpl. unfold isLowest. simpl. rewrite Z.leb_refl. reflexivity.
  - assert (Hq : In q pre /\ isLowest pre q = true).
    { apply filter_In. rewrite Eacc. left. reflexivity. }
    destruct Hq as [Hqin Hqlow]. unfold lowestStep.
    destruct (cardValue p - cardValue q <? 0) eqn:Elt.
    + apply Z.ltb_lt in Elt.
      assert (Hnone : List.filter (isLowest (pre ++ [p])) pre = []).
      { rewrite (List.filter_ext_in _ (fun _ => false)); [apply List.filter_false|].
        intros x Hx. rewrite isLowest_app.
        apply andb_false_iff. right. unfold isLowest. simpl.
        pose proof (isLowest_le _ _ _ Hqlow Hx).
        rewrite andb_true_r. apply Z.leb_gt. lia. }
      rewrite Hnone. simpl. rewrite isLowest_app.
      assert (Hp : isLowest pre p = true).
      { apply isLowest_intro. intros x Hx. pose proof (isLowest_le _ _ _ Hqlow Hx). lia. }
      rewrite Hp. unfold isLowest. simpl. rewrite Z.leb_refl. reflexivity.
    + apply Z.ltb_ge in Elt. destruct (cardValue p - cardValue q =? 0) eqn:Eeq.
      * apply Z.eqb_eq in Eeq.
        assert (Hsame : List.filter (isLowest (pre ++ [p])) pre
                        = List.filter (isLowest pre) pre).
        { apply List.filter_ext_in. intros x Hx. rewrite isLowest_app.
          destruct (isLowest pre x) eqn:Ex; [|reflexivity].
          unfold isLowest. simpl. rewrite andb_true_r.
          pose proof (isLowest_le _ _ _ Ex Hqin). apply Z.leb_le. lia. }
        rewrite Hsame, Eacc. simpl. rewrite isLowest_app.
        assert (Hp : isLowest pre p = true).
        { apply isLowest_intro. intros x Hx. pose proof (isLowest_le _ _ _ Hqlow Hx). lia. }
        rewrite Hp. unfold isLowest. simpl. rewrite Z.leb_refl. reflexivity.
      * apply Z.eqb_neq in Eeq.
        assert (Hsame : List.filter (isLowest (pre ++ [p])) pre
                        = List.filter (isLowest pre) pre).
        { apply List.filter_ext_in. intros x Hx. rewrite isLowest_app.
          destruct (isLowest pre x) eqn:Ex; [|reflexivity].
          unfold isLowest. simpl. rewrite andb_true_r.
          pose proof (isLowest_le _ _ _ Ex Hqin). apply Z.leb_le. lia. }
        rewrite Hsame, Eacc. simpl. rewrite isLowest_app.
        assert (Hp : isLowest pre p = false).
        { destruct (isLowest pre p) eqn:Ep; [|reflexivity].
          pose proof (isLowest_le _ _ _ Ep Hqin). lia. }
        rewrite Hp. simpl. rewrite app_nil_r. reflexivity.
Qed.

Lemma foldl_lowestStep rest : forall pre,
  foldl lowestStep (List.filter (isLowest pre) pre) rest
  = List.filter (isLowest (pre ++ rest)) (pre ++ rest).
Proof.
  induction rest as [|p rest IH]; intros pre.
  - simpl. rewrite app_nil_r. reflexivity.
  - simpl. rewrite lowestStep_spec, IH, <- app_assoc. reflexivity.
Qed.

(** The loop of [tallyRound] computes the holders of the minimal value. *)
Lemma lowestHandsOf_spec hands :
  lowestHandsOf hands = List.filter (isLowest hands) hands.
Proof. unfold lowestHandsOf. apply (foldl_lowestStep hands []). Qed.

Lemma userId_inj ps x y :
  NoDup (map userId ps) -> x ∈ ps -> y ∈ ps -> userId x = userId y -> x = y.
Proof.
  induction ps as [|p ps IH]; simpl; intros Hnd Hx Hy E.
  - apply elem_of_nil in Hx. contradiction.
  - apply NoDup_cons in Hnd as [Hfresh Hnd].
    apply elem_of_cons in Hx as [->|Hx]; apply elem_of_cons in Hy as [->|Hy].
    + reflexivity.
    + exfalso. apply Hfresh. rewrite E. apply list_elem_of_fmap. eauto.
    + exfalso. apply Hfresh. rewrite <- E. apply list_elem_of_fmap. eauto.
    + apply IH; assumption.
Qed.

(** With distinct identifiers, the index found by [findIndex] is the loser's
    own: exactly the loser is marked. *)
Lemma eliminate_spec ps loser :
  NoDup (map userId ps) -> loser ∈ ps ->
  eliminate loser ps
  = map (fun p => if bool_decide (p = loser) then set_isEliminated true p else p) ps.
Proof.
  induction ps as [|x ps IH]; intros Hnd Hin.
  - apply elem_of_nil in Hin. contradiction.
  - pose proof Hnd as Hnd'. simpl in Hnd'. apply NoDup_cons in Hnd' as [Hfresh Hnd'].
    unfold eliminate. simpl list_find.
    destruct (decide (userId x = userId loser)) as [E|Hne].
    + assert (x = loser) as ->.
      { apply (userId_inj (x :: ps)); [exact Hnd | apply elem_of_cons; auto | exact Hin | exact E]. }
      simpl. rewrite bool_decide_eq_true_2 by reflexivity. f_equal.
      rewrite <- (map_id ps) at 1. apply map_ext_in. intros q Hq.
      rewrite bool_decide_eq_false_2; [reflexivity|].
      intros ->. apply Hfresh. apply list_elem_of_fmap. exists loser.
      split; [reflexivity | apply list_elem_of_In, Hq].
    + apply elem_of_cons in Hin as [->|Hin]; [congruence|].
      specialize (IH Hnd' Hin). unfold eliminate in IH.
      assert (Hx : x ≠ loser) by congruence.
      simpl map. rewrite (bool_decide_eq_false_2 _ Hx).
      destruct (list_find (fun p => userId p = userId loser) ps) as [[i p]|]; simpl.
      * f_equal. exact IH.
      * f_equal. exact IH.
Qed.

Lemma cleared_players ps loser :
  NoDup (map userId ps) -> loser ∈ ps ->
  map (set_inTieBreaker false) (eliminate loser ps) = map (markOut loser) ps.
Proof.
  intros Hnd Hin. rewrite eliminate_spec by assumption. rewrite map_map.
  apply map_ext. intros p. unfold markOut. reflexivity.
Qed.


Lemma lowestInScope_elem g p :
  p ∈ lowestInScope g <->
  p ∈ players g /\ holdsHand (isTieBreaker g) p = true
  /\ forall q, q ∈ players g -> holdsHand (isTieBreaker g) q = true ->
               cardValue p <= cardValue q.
Proof.
  unfold lowestInScope, currentHandsPlayers.
  rewrite list_elem_of_In, !filter_In, <- list_elem_of_In. split.
  - intros [[Hin Hh] Hlow]. repeat split; auto. intros q Hq Hhq.
    apply (isLowest_le _ _ _ Hlow). apply filter_In.
    split; [apply list_elem_of_In, Hq | exact Hhq].
  - intros (Hin & Hh & Hmin). repeat split; auto. apply isLowest_intro.
    intros q Hq. apply filter_In in Hq as [Hq Hhq]. apply Hmin; [|exact Hhq].
    apply list_elem_of_In, Hq.
Qed.


Lemma tallyRound_unfold now R w g :
  getGame (redis w) R = Some g ->
  currentHandsPlayers g ≠ [] ->
  tallyRound now R w =
  match lowestInScope g with
  | [] => (TallyNull, w)
  | [loser] =>
      let cleared :=
        set_tie false (wasTieBreaker g)
          (set_players (map (set_inTieBreaker false) (eliminate loser (players g))) g) in
      let remainingPlayers := survivors (players cleared) in
      if (length remainingPlayers <? 2)%nat then
        (TallyFinished (fst (finishGame R cleared remainingPlayers (Some loser) w)),
         snd (finishGame R cleared remainingPlayers (Some loser) w))
      else
        (TallyEliminated (username loser) (currentCard loser) (currentRound g + 1)
           remainingPlayers (wasTieBreaker g),
         set_redis <[gameKeyOf R :=
            VGame (set_tie false false
                     (openRound (currentRound g + 1) now
                        (set_players (map resetSurvivor (players cleared)) cleared)))]> w)
  | lowestHands =>
      (TallyTie (joinNames lowestHands) (length lowestHands) (currentRound g + 1),
       set_redis <[gameKeyOf R :=
          VGame (openRound (currentRound g + 1) now
                   (set_tie true true
                      (set_players (map (markTied (map userId lowestHands)) (players g))
                         g)))]> w)
  end.
Proof.
  intros Hg Hne. unfold tallyRound. rewrite Hg.
  unfold lowestInScope. rewrite <- lowestHandsOf_spec.
  destruct (currentHandsPlayers g) as [|p hands] eqn:Eh; [congruence|].
  destruct (lowestHandsOf (p :: hands)) as [|loser [|second rest]]; [reflexivity| |reflexivity].
  cbv zeta. unfold survivors.
  destruct (length _ <? 2)%nat; [|reflexivity].
  destruct (finishGame R _ _ (Some loser) w). reflexivity.
Qed.



(** * Further properties of the service *)

(** ** The deck *)

Lemma swap_Permutation {A} (l : list A) i j : swap l i j ≡ₚ l.
Proof.
  unfold swap. destruct (l !! i) as [x|] eqn:Ei; [|reflexivity].
  destruct (l !! j) as [y|] eqn:Ej; [|reflexivity].
  apply Permutation_insert_swap; assumption.
Qed.

Lemma shuffleFrom_Permutation {A} rnd i : forall l : list A, shuffleFrom rnd i l ≡ₚ l.
Proof.
  induction i as [|i IH]; intros l; simpl; [reflexivity|].
  rewrite IH. apply swap_Permutation.
Qed.

(** Whatever the random draws, [shuffleDeck] only reorders its argument. *)
Lemma shuffleDeck_Permutation {A} rnd (deck : list A) : shuffleDeck rnd deck ≡ₚ deck.
Proof. apply shuffleFrom_Permutation. Qed.

Lemma orderedDeck_NoDup : NoDup orderedDeck.
Proof. compute_done. Qed.

Lemma orderedDeck_cards cd :
  cd ∈ orderedDeck <->
  exists x v, 2 <= v <= 14 /\ cd = makeCard x v.
Proof.
  split.
  - intros Hin. apply list_elem_of_In in Hin. unfold orderedDeck in Hin.
    apply in_flat_map in Hin as (x & _ & Hin).
    apply in_map_iff in Hin as (v & <- & Hv). exists x, v. split; [|reflexivity].
    unfold CARD_VALUES in Hv. simpl in Hv.
    repeat (destruct Hv as [<-|Hv]; [lia|]). destruct Hv.
  - intros (x & v & Hv & ->). apply list_elem_of_In. unfold orderedDeck.
    apply in_flat_map. exists x. split; [destruct x; simpl; auto|].
    apply in_map. unfold CARD_VALUES.
    assert (v = 2 \/ v = 3 \/ v = 4 \/ v = 5 \/ v = 6 \/ v = 7 \/ v = 8 \/ v = 9
            \/ v = 10 \/ v = 11 \/ v = 12 \/ v = 13 \/ v = 14) as Hc by lia.
    simpl. intuition auto.
Qed.

(** X1. A generated deck is the 52-card deck in some order: it has 52
    cards, no card twice, and its cards are exactly the cards of the four
    suits with a value from 2 to 14. *)
Theorem generateDeck_is_full_deck (rnd : nat -> nat) :
  length (generateDeck rnd) = 52%nat
  /\ NoDup (generateDeck rnd)
  /\ generateDeck rnd ≡ₚ orderedDeck
  /\ forall cd, cd ∈ generateDeck rnd <->
                exists x v, 2 <= v <= 14 /\ cd = makeCard x v.
Proof.
  assert (Hp : generateDeck rnd ≡ₚ orderedDeck) by apply shuffleDeck_Permutation.
  split; [apply length_generateDeck|]. split; [rewrite Hp; apply orderedDeck_NoDup|].
  split; [exact Hp|]. intros cd. rewrite Hp. apply orderedDeck_cards.
Qed.

Lemma getDeck_Some (r : Redis) R dk :
  getDeck r R = Some dk <-> r !! deckKeyOf R = Some (VDeck dk).
Proof.
  unfold getDeck. split.
  - destruct (r !! deckKeyOf R) as [[| | |dk'|]|]; intros H; inversion H; reflexivity.
  - intros ->. reflexivity.
Qed.

Lemma drawCardFromDeck_stored rnd R (r : Redis) (dk : list Card) (cd : Card) :
  getDeck r R = Some (dk ++ [cd])%list ->
  drawCardFromDeck rnd R r = (Some cd, <[deckKeyOf R := VDeck dk]> r).
Proof.
  intros Hd. unfold drawCardFromDeck, deckToDrawFrom. rewrite Hd.
  destruct (dk ++ [cd])%list as [|x rest] eqn:E; [destruct dk; discriminate|].
  rewrite <- E. cbv zeta. rewrite last_snoc, removelast_last. reflexivity.
Qed.

Lemma drawMany_stored rnd R n : forall (r : Redis) dk,
  getDeck r R = Some dk -> (n <= length dk)%nat ->
  drawMany rnd R n r
  = (map Some (take n (reverse dk)),
     if decide (n = O) then r else <[deckKeyOf R := VDeck (take (length dk - n) dk)]> r).
Proof.
  induction n as [|n IH]; intros r dk Hd Hn; [reflexivity|].
  assert (Hl : is_Some (last dk)).
  { apply last_is_Some. intros ->. simpl in Hn. lia. }
  destruct Hl as [cd Hl]. apply last_Some in Hl as [dk' ->].
  rewrite length_app in Hn. simpl in Hn.
  cbn [drawMany]. rewrite (drawCardFromDeck_stored rnd R r dk' cd Hd).
  rewrite (IH (<[deckKeyOf R := VDeck dk']> r) dk');
    [|apply getDeck_Some, lookup_insert_eq | lia].
  rewrite reverse_snoc. simpl take. simpl map. f_equal.
  rewrite length_app. simpl length.
  replace (length dk' + 1 - S n)%nat with (length dk' - n)%nat by lia.
  rewrite take_app_le by lia.
  destruct (decide (n = O)) as [->|Hne].
  - rewrite Nat.sub_0_r, firstn_all. reflexivity.
  - rewrite insert_insert_eq. reflexivity.
Qed.

(** X2. While the stored deck lasts, draws deal it from its end: [n] draws
    from a stored deck of at least [n] cards return its last [n] cards, the
    last one first, leave the remaining cards under the deck key and touch no
    other key. *)
Theorem draws_deal_from_the_end (rnd : nat -> nat) (R : string) (n : nat)
    (r : Redis) (dk : list Card) :
  getDeck r R = Some dk -> (0 < n <= length dk)%nat ->
  fst (drawMany rnd R n r) = map Some (take n (reverse dk))
  /\ getDeck (snd (drawMany rnd R n r)) R = Some (take (length dk - n) dk)
  /\ forall k, k ≠ deckKeyOf R -> snd (drawMany rnd R n r) !! k = r !! k.
Proof.
  intros Hd [Hpos Hn]. rewrite (drawMany_stored rnd R n r dk Hd Hn). simpl.
  destruct (decide (n = O)); [lia|].
  split; [reflexivity|]. split; [apply getDeck_Some, lookup_insert_eq|].
  intros k Hk. apply lookup_insert_ne. congruence.
Qed.

Lemma draws_deal_from_the_end_witness :
  fst (drawMany (fun _ => O) "r1" 2
         (<[deckKeyOf "r1" := VDeck [makeCard h 2; makeCard d 9; makeCard s 14]]> ∅))
  = [Some (makeCard s 14); Some (makeCard d 9)].
Proof.
  refine (proj1 (draws_deal_from_the_end (fun _ => O) "r1" 2
                   (<[deckKeyOf "r1" := VDeck [makeCard h 2; makeCard d 9; makeCard s 14]]> ∅)
                   [makeCard h 2; makeCard d 9; makeCard s 14] _ _)).
  - reflexivity.
  - simpl. lia.
Defined.

(** X3. After [initializeDeck], up to 52 draws hand out pairwise different
    cards, each of them a card of the deck just generated. *)
Theorem fresh_deck_never_repeats (rnd : nat -> nat) (R : string) (n : nat) (r : Redis) :
  (n <= 52)%nat ->
  exists cds,
    fst (drawMany rnd R n (initializeDeck rnd R r)) = map Some cds
    /\ length cds = n /\ NoDup cds
    /\ forall cd, cd ∈ cds -> cd ∈ generateDeck rnd.
Proof.
  intros Hn. pose proof (length_generateDeck rnd) as Hlen.
  assert (Hnd : NoDup (generateDeck rnd)).
  { unfold generateDeck. rewrite shuffleDeck_Permutation. apply orderedDeck_NoDup. }
  exists (take n (reverse (generateDeck rnd))).
  rewrite (drawMany_stored rnd R n _ (generateDeck rnd));
    [|apply getDeck_Some, lookup_insert_eq | lia].
  split; [reflexivity|]. split.
  { rewrite length_take, length_reverse. lia. }
  split.
  { apply (sublist_NoDup _ (reverse (generateDeck rnd))); [|apply sublist_take].
    rewrite reverse_Permutation. exact Hnd. }
  intros cd Hcd. apply elem_of_take in Hcd as (i & Hi & _).
  apply elem_of_reverse. apply list_elem_of_lookup. eauto.
Qed.

Lemma fresh_deck_never_repeats_witness :
  exists cds,
    fst (drawMany (fun _ => O) "r1" 3 (initializeDeck (fun _ => O) "r1" ∅)) = map Some cds
    /\ length cds = 3%nat /\ NoDup cds
    /\ forall cd, cd ∈ cds -> cd ∈ generateDeck (fun _ => O).
Proof. apply (fresh_deck_never_repeats (fun _ => O) "r1" 3 ∅). lia. Defined.

Lemma drawCardFromDeck_card rnd R r :
  exists cd, fst (drawCardFromDeck rnd R r) = Some cd.
Proof.
  unfold drawCardFromDeck. cbv zeta. simpl fst.
  destruct (proj2 (last_is_Some (deckToDrawFrom rnd R r))
              (deckToDrawFrom_nonempty rnd R r)) as [cd E].
  eauto.
Qed.


(** ** The timeout draw *)

Lemma skipsAutoDraw_drawnOrExcused tie p : skipsAutoDraw tie p = drawnOrExcused tie p.
Proof.
  unfold skipsAutoDraw, drawnOrExcused.
  destruct tie, (isEliminated p), (inTieBreaker p), (hasDrawn p); reflexivity.
Qed.

Lemma drawCardFromDeck_frame rnd R (r : Redis) k :
  k ≠ deckKeyOf R -> snd (drawCardFromDeck rnd R r) !! k = r !! k.
Proof. intros Hk. unfold drawCardFromDeck. simpl. apply lookup_insert_ne. congruence. Qed.

Lemma autoDrawLoop_spec rnd R tie ps : forall r : Redis,
  Forall2 (autoDrawnPlayer tie) ps (fst (fst (autoDrawLoop rnd R tie ps r)))
  /\ (forall k, k ≠ deckKeyOf R -> snd (autoDrawLoop rnd R tie ps r) !! k = r !! k)
  /\ length (snd (fst (autoDrawLoop rnd R tie ps r)))
     = length (List.filter (fun p => negb (skipsAutoDraw tie p)) ps).
Proof.
  induction ps as [|p ps IH]; intros r.
  - simpl. split; [constructor|]. split; [reflexivity|reflexivity].
  - cbn [autoDrawLoop List.filter]. destruct (skipsAutoDraw tie p) eqn:Es.
    + specialize (IH r). destruct (autoDrawLoop rnd R tie ps r) as [[ps' drawn] r'].
      simpl in *. destruct IH as (H1 & H2 & H3). split; [|split; assumption].
      constructor; [|exact H1]. unfold autoDrawnPlayer. rewrite Es. reflexivity.
    + pose proof (drawCardFromDeck_card rnd R r) as [cd0 Hc].
      pose proof (drawCardFromDeck_frame rnd R r) as Hf.
      destruct (drawCardFromDeck rnd R r) as [cd r1]. simpl in Hc, Hf. subst cd.
      specialize (IH r1). destruct (autoDrawLoop rnd R tie ps r1) as [[ps' drawn] r'].
      simpl in *. destruct IH as (H1 & H2 & H3). split; [|split].
      * constructor; [|exact H1]. unfold autoDrawnPlayer. rewrite Es. eauto.
      * intros k Hk. rewrite H2 by exact Hk. apply Hf, Hk.
      * rewrite H3. reflexivity.
Qed.

Lemma autoDrawnPlayer_done tie p p' :
  autoDrawnPlayer tie p p' -> drawnOrExcused tie p' = true.
Proof.
  unfold autoDrawnPlayer. destruct (skipsAutoDraw tie p) eqn:Es.
  - intros ->. rewrite <- skipsAutoDraw_drawnOrExcused. exact Es.
  - intros [cd ->]. unfold drawnOrExcused. simpl.
    destruct tie; rewrite !orb_true_r; reflexivity.
Qed.

Lemma autoDrawForTimeout_game rnd R w g :
  getGame (redis w) R = Some g ->
  exists ps',
    getGame (redis (snd (autoDrawForTimeout rnd R w))) R = Some (set_players ps' g)
    /\ Forall2 (autoDrawnPlayer (isTieBreaker g)) (players g) ps'
    /\ users (snd (autoDrawForTimeout rnd R w)) = users w
    /\ length (fst (autoDrawForTimeout rnd R w))
       = length (List.filter (fun p => negb (skipsAutoDraw (isTieBreaker g) p)) (players g))
    /\ forall k, k ≠ deckKeyOf R -> k ≠ gameKeyOf R ->
                 redis (snd (autoDrawForTimeout rnd R w)) !! k = redis w !! k.
Proof.
  intros Hg. unfold autoDrawForTimeout. rewrite Hg.
  destruct (autoDrawLoop_spec rnd R (isTieBreaker g) (players g) (redis w))
    as (H1 & H2 & H3).
  destruct (autoDrawLoop rnd R (isTieBreaker g) (players g) (redis w)) as [[ps' drawn] r'].
  simpl in *. exists ps'. split; [apply getGame_Some, lookup_insert_eq|].
  split; [exact H1|]. split; [reflexivity|]. split; [exact H3|].
  intros k Hk Hk'. rewrite lookup_insert_ne by congruence. apply H2, Hk.
Qed.

(** X5. The timeout completes the round: after [autoDrawForTimeout] on a
    playing game [allPlayersDrawn] answers true.  Players that were
    eliminated, outside the tie-breaker or had drawn are left as they were,
    every other player now has drawn and holds a card; one entry is reported
    per player drawn for, and no account changes. *)
Theorem autoDrawForTimeout_completes_round (rnd : nat -> nat) (R : string)
    (w : World) (g : Game) :
  getGame (redis w) R = Some g -> status g = playing ->
  allPlayersDrawn R (snd (autoDrawForTimeout rnd R w)) = true
  /\ (exists ps',
        getActiveGame R (snd (autoDrawForTimeout rnd R w)) = Some (set_players ps' g)
        /\ Forall2 (autoDrawnPlayer (isTieBreaker g)) (players g) ps')
  /\ length (fst (autoDrawForTimeout rnd R w))
     = length (List.filter (fun p => negb (skipsAutoDraw (isTieBreaker g) p)) (players g))
  /\ users (snd (autoDrawForTimeout rnd R w)) = users w.
Proof.
  intros Hg Hs.
  destruct (autoDrawForTimeout_game rnd R w g Hg) as (ps' & Hg' & Hf & Hu & Hl & _).
  split; [|split; [exists ps'; split; assumption | split; assumption]].
  unfold allPlayersDrawn, getActiveGame. rewrite Hg'. simpl.
  rewrite bool_decide_eq_true_2 by exact Hs. simpl.
  apply forallb_forall. intros p' Hp'. apply list_elem_of_In in Hp'.
  apply list_elem_of_lookup in Hp' as [i Hi].
  destruct (Forall2_lookup_r _ _ _ _ _ Hf Hi) as (p & _ & Hpp).
  apply (autoDrawnPlayer_done _ _ _ Hpp).
Qed.

Lemma autoDrawForTimeout_completes_round_witness :
  allPlayersDrawn "r1"
    (snd (autoDrawForTimeout (fun _ => O) "r1"
            (worldWith (sampleGame playing 10 [alice; out bob; carol])))) = true.
Proof.
  refine (proj1 (autoDrawForTimeout_completes_round (fun _ => O) "r1"
                   (worldWith (sampleGame playing 10 [alice; out bob; carol]))
                   (sampleGame playing 10 [alice; out bob; carol]) _ _)).
  - reflexivity.
  - reflexivity.
Defined.

(** X6. After the timeout draw the round can be tallied: when some player
    is in scope and the players who had drawn hold their cards,
    [tallyRound] on the world left by [autoDrawForTimeout] answers an
    elimination, a tie or the end of the game -- never its
    no-active-players error. *)
Theorem tally_after_timeout_resolves (rnd : nat -> nat) (now : Z) (R : string)
    (w : World) (g : Game) :
  getGame (redis w) R = Some g ->
  (exists p, p ∈ players g /\ inScope g p) ->
  drawnHoldCards g ->
  roundResolved (fst (tallyRound now R (snd (autoDrawForTimeout rnd R w)))).
Proof.
  intros Hg (p & Hp & He & Ht) Hcards.
  destruct (autoDrawForTimeout_game rnd R w g Hg) as (ps' & Hg' & Hf & _).
  set (w' := snd (autoDrawForTimeout rnd R w)) in *.
  apply list_elem_of_lookup in Hp as [i Hi].
  destruct (Forall2_lookup_l _ _ _ _ _ Hf Hi) as (p' & Hi' & Hpp).
  assert (Hh : holdsHand (isTieBreaker g) p' = true).
  { unfold autoDrawnPlayer in Hpp. unfold holdsHand.
    destruct (skipsAutoDraw (isTieBreaker g) p) eqn:Es.
    - subst p'. assert (Hd : hasDrawn p = true).
      { unfold skipsAutoDraw in Es. rewrite He in Es.
        destruct (isTieBreaker g); [rewrite (Ht eq_refl) in Es|]; exact Es. }
      rewrite (bool_decide_eq_true_2 (is_Some (currentCard p)));
        [|apply Hcards; [apply list_elem_of_lookup; eauto | exact Hd]].
      rewrite He. destruct (isTieBreaker g); [rewrite (Ht eq_refl)|]; reflexivity.
    - destruct Hpp as [cd ->].
      rewrite (bool_decide_eq_true_2 (is_Some (currentCard (set_draw true (Some cd) p))))
        by (simpl; eauto).
      change (isEliminated (set_draw true (Some cd) p)) with (isEliminated p).
      change (inTieBreaker (set_draw true (Some cd) p)) with (inTieBreaker p).
      rewrite He. destruct (isTieBreaker g); [rewrite (Ht eq_refl)|]; reflexivity. }
  assert (Hne : currentHandsPlayers (set_players ps' g) ≠ []).
  { intros E. assert (Hin : In p' (currentHandsPlayers (set_players ps' g))).
    { apply filter_In. split; [|exact Hh]. simpl.
      apply list_elem_of_In, list_elem_of_lookup. eauto. }
    rewrite E in Hin. destruct Hin. }
  rewrite (tallyRound_unfold now R w' _ Hg' Hne).
  destruct (exists_lowest _ Hne) as (q & Hq & Hl).
  assert (Hlow : In q (lowestInScope (set_players ps' g))) by (apply filter_In; auto).
  destruct (lowestInScope (set_players ps' g)) as [|a [|b rest]]; [destruct Hlow| |exact I].
  cbv zeta. destruct (length _ <? 2)%nat; exact I.
Qed.

Lemma tally_after_timeout_resolves_witness :
  roundResolved
    (fst (tallyRound 5000 "r1"
            (snd (autoDrawForTimeout (fun _ => O) "r1"
                    (worldWith (sampleGame playing 10 [alice; out bob; carol])))))).
Proof.
  apply (tally_after_timeout_resolves (fun _ => O) 5000 "r1"
           (worldWith (sampleGame playing 10 [alice; out bob; carol]))
           (sampleGame playing 10 [alice; out bob; carol])).
  - reflexivity.
  - exists alice. split; [apply list_elem_of_In; simpl; auto|].
    split; [reflexivity | discriminate].
  - intros p Hp Hd. apply list_elem_of_In in Hp. simpl in Hp.
    destruct Hp as [<-|[<-|[<-|[]]]]; discriminate Hd.
Defined.

(** ** Cleanup of a room *)

Lemma delete_all_lookup (ks : list string) : forall (r : Redis) k,
  foldl (fun acc k' => delete k' acc) r ks !! k
  = if decide (k ∈ ks) then None else r !! k.
Proof.
  induction ks as [|k0 ks IH]; intros r k; simpl.
  - destruct (decide (k ∈ [])) as [Hin|]; [|reflexivity].
    apply elem_of_nil in Hin. contradiction.
  - rewrite IH. destruct (decide (k ∈ ks)) as [Hin|Hnin].
    + rewrite decide_True by (apply elem_of_cons; auto). reflexivity.
    + destruct (decide (k = k0)) as [->|Hne].
      * rewrite decide_True by (apply elem_of_cons; auto). apply lookup_delete_eq.
      * rewrite decide_False by (rewrite elem_of_cons; tauto).
        apply lookup_delete_ne. congruence.
Qed.

Lemma cleanupRedisKeys_lookup R (r : Redis) k :
  cleanupRedisKeys R r !! k = if decide (k ∈ roomKeys R) then None else r !! k.
Proof. apply delete_all_lookup. Qed.

Lemma length_append (s1 s2 : string) :
  String.length (s1 +:+ s2) = (String.length s1 + String.length s2)%nat.
Proof. induction s1 as [|a s1 IH]; simpl; [reflexivity | rewrite IH; reflexivity]. Qed.

Lemma append_cancel_r (s1 s2 t : string) : s1 +:+ t = s2 +:+ t -> s1 = s2.
Proof.
  revert s2. induction s1 as [|a s1 IH]; intros [|b s2] E.
  - reflexivity.
  - exfalso. apply (f_equal String.length) in E.
    rewrite !length_append in E. simpl in E. lia.
  - exfalso. apply (f_equal String.length) in E.
    rewrite !length_append in E. simpl in E. lia.
  - change (String a (s1 +:+ t) = String b (s2 +:+ t)) in E.
    inversion E; subst. f_equal. apply IH. assumption.
Qed.

(** Two rooms never share a key. *)
Lemma roomKeys_disjoint R R' k : R ≠ R' -> k ∈ roomKeys R -> k ∉ roomKeys R'.
Proof.
  intros Hne Hk Hk'. unfold roomKeys in *.
  apply list_elem_of_In in Hk, Hk'. simpl in Hk, Hk'.
  unfold gameKeyOf, deckKeyOf, TIMER_KEY, startLockKeyOf, joinLockKeyOf, drawLockKeyOf in *.
  destruct Hk as [<-|[<-|[<-|[<-|[<-|[<-|[]]]]]]];
    destruct Hk' as [E|[E|[E|[E|[E|[E|[]]]]]]];
    try discriminate E;
    apply Hne; symmetry;
    first [ exact (append_cancel_r _ _ _ (f_equal (fun v => match v with
              | String _ (String _ (String _ (String _ (String _ rest)))) => rest
              | _ => v end) E))
          | injection E; auto ].
Qed.

Lemma cleanupRedisKeys_only_its_room_aux R R' (r : Redis) :
  R ≠ R' ->
  getGame (cleanupRedisKeys R r) R' = getGame r R'
  /\ getDeck (cleanupRedisKeys R r) R' = getDeck r R'
  /\ getTimer (cleanupRedisKeys R r) R' = getTimer r R'.
Proof.
  intros Hne.
  assert (Hk : forall k, k ∈ roomKeys R' -> cleanupRedisKeys R r !! k = r !! k).
  { intros k Hk. rewrite cleanupRedisKeys_lookup, decide_False; [reflexivity|].
    intros Hin. apply (roomKeys_disjoint R R' k Hne Hin Hk). }
  unfold getGame, getDeck, getTimer.
  rewrite !Hk by (unfold roomKeys; apply list_elem_of_In; simpl; auto).
  auto.
Qed.

(** X7. [cleanupRedisKeys] removes the six keys of its room and nothing
    else: the game and the deck of any other room, every cached balance and
    the bot records stay as they were. *)
Theorem cleanupRedisKeys_only_its_room (R R' : string) (r : Redis) :
  (forall k, k ∈ roomKeys R -> cleanupRedisKeys R r !! k = None)
  /\ (forall k, k ∉ roomKeys R -> cleanupRedisKeys R r !! k = r !! k)
  /\ (R ≠ R' ->
      getGame (cleanupRedisKeys R r) R' = getGame r R'
      /\ getDeck (cleanupRedisKeys R r) R' = getDeck r R'
      /\ getTimer (cleanupRedisKeys R r) R' = getTimer r R')
  /\ (forall u, cleanupRedisKeys R r !! creditsKeyOf u = r !! creditsKeyOf u)
  /\ cleanupRedisKeys R r !! botKeyOf R = r !! botKeyOf R.
Proof.
  assert (Hout : forall k, k ∉ roomKeys R -> cleanupRedisKeys R r !! k = r !! k).
  { intros k Hk. rewrite cleanupRedisKeys_lookup, decide_False by exact Hk. reflexivity. }
  split; [|split; [exact Hout|split; [|split]]].
  - intros k Hk. rewrite cleanupRedisKeys_lookup, decide_True by exact Hk. reflexivity.
  - apply cleanupRedisKeys_only_its_room_aux.
  - intros u. apply Hout. unfold roomKeys. intros Hin.
    apply list_elem_of_In in Hin. simpl in Hin.
    unfold gameKeyOf, deckKeyOf, TIMER_KEY, startLockKeyOf, joinLockKeyOf,
      drawLockKeyOf, creditsKeyOf in Hin.
    destruct Hin as [E|[E|[E|[E|[E|[E|[]]]]]]]; discriminate E.
  - apply Hout. unfold roomKeys. intros Hin.
    apply list_elem_of_In in Hin. simpl in Hin.
    unfold gameKeyOf, deckKeyOf, TIMER_KEY, startLockKeyOf, joinLockKeyOf,
      drawLockKeyOf, botKeyOf in Hin.
    destruct Hin as [E|[E|[E|[E|[E|[E|[]]]]]]]; discriminate E.
Qed.

(** ** Calls that find nothing to do *)

Lemma release_after_acquire_world k t w :
  redis w !! k = None ->
  set_redis (releaseLock k t) (set_redis (fun _ => <[k := VStr t]> (redis w)) w) = w.
Proof.
  intros Hfree. rewrite set_redis_set_redis. apply set_redis_id.
  apply release_after_acquire, Hfree.
Qed.

Lemma joinGame_refused_unchanged mts now tokens R u name w :
  (forall g, getGame (redis w) R = Some g ->
     status g ≠ waiting
     \/ (exists deadline, joinDeadline g = Some deadline /\ deadline < now)
     \/ alreadyJoined u g = true) ->
  success (fst (joinGame mts now tokens R u name w)) = false
  /\ snd (joinGame mts now tokens R u name w) = w.
Proof.
  intros Hno. unfold joinGame.
  destruct (acquireLockWithRetry_cases (joinLockKeyOf R) tokens 4 (redis w))
    as [[Hfree ->]|[Hheld ->]]; [|auto].
  set (w0 := set_redis (fun _ => <[joinLockKeyOf R := VStr (tokens 0%nat)]> (redis w)) w).
  assert (Hg0 : getGame (redis w0) R = getGame (redis w) R).
  { simpl. apply getGame_insert_ne. intros E. symmetry in E. revert E.
    apply gameKey_ne_joinLock. }
  assert (Hl : success (fst (joinGame_locked mts now R u name w0)) = false
               /\ snd (joinGame_locked mts now R u name w0) = w0).
  { unfold joinGame_locked. rewrite Hg0.
    destruct (getGame (redis w) R) as [g|] eqn:Hg; [|auto].
    destruct (bool_decide (status g = waiting)) eqn:Es; [|auto].
    apply bool_decide_eq_true in Es. simpl negb. cbv iota.
    destruct (Hno g eq_refl) as [Hs|[(dl & Hd & Hlt)|Hj]]; [congruence| |].
    - rewrite Hd. apply Z.ltb_lt in Hlt. rewrite Hlt. auto.
    - destruct (match joinDeadline g with Some d0 => d0 <? now | None => false end);
        [auto|]. rewrite Hj. auto. }
  destruct (joinGame_locked mts now R u name w0) as [reply w']. simpl in *.
  destruct Hl as [Hs ->]. split; [exact Hs|].
  apply release_after_acquire_world, Hfree.
Qed.

Lemma beginGame_nothing_waiting now rnd tokens R w :
  (forall g, getGame (redis w) R = Some g -> status g ≠ waiting) ->
  beginGame now rnd tokens R w = (BeginNull, w).
Proof.
  intros Hno. unfold beginGame.
  assert (Hl : forall w0, getGame (redis w0) R = getGame (redis w) R ->
                 beginGame_locked now rnd R w0 = (BeginNull, w0)).
  { intros w0 Hg0. unfold beginGame_locked. rewrite Hg0.
    destruct (getGame (redis w) R) as [g|] eqn:Hg; [|reflexivity].
    rewrite bool_decide_eq_false_2 by (apply Hno; reflexivity). reflexivity. }
  destruct (acquireLockWithRetry_cases (joinLockKeyOf R) tokens 4 (redis w))
    as [[Hfree ->]|[Hheld ->]].
  - rewrite Hl.
    + f_equal. apply release_after_acquire_world, Hfree.
    + simpl. apply getGame_insert_ne. intros E. symmetry in E. revert E.
      apply gameKey_ne_joinLock.
  - rewrite set_redis_id by reflexivity. rewrite Hl by reflexivity. reflexivity.
Qed.

(** X8. A join is refused, and the world left exactly as it was, when the
    room has no game, the game is not waiting, the join deadline has passed
    or the user has joined already: nothing is deducted, nothing written and
    the join lock is not left behind. *)
Theorem joinGame_refusals_change_nothing (mts : MerchantTagService) (now : Z)
    (tokens : nat -> string) (R : string) (u : UserId) (name : string) (w : World) :
  (forall g, getGame (redis w) R = Some g ->
     status g ≠ waiting
     \/ (exists deadline, joinDeadline g = Some deadline /\ deadline < now)
     \/ alreadyJoined u g = true) ->
  success (fst (joinGame mts now tokens R u name w)) = false
  /\ snd (joinGame mts now tokens R u name w) = w.
Proof. apply joinGame_refused_unchanged. Qed.

Lemma joinGame_refusals_change_nothing_witness :
  snd (joinGame noTags 40000 (fun _ => "a1b2") "r1" 3 "carol"
         (worldWith (sampleGame waiting 10 [alice; bob])))
  = worldWith (sampleGame waiting 10 [alice; bob]).
Proof.
  refine (proj2 (joinGame_refusals_change_nothing noTags 40000 (fun _ => "a1b2") "r1" 3
                   "carol" (worldWith (sampleGame waiting 10 [alice; bob])) _)).
  intros g Hg. right. left. exists 31000.
  vm_compute in Hg. inversion Hg. split; [reflexivity | lia].
Defined.

(** ** beginGame *)

Lemma beginGame_locked_start now rnd R w g :
  getGame (redis w) R = Some g -> status g = waiting ->
  (2 <= length (players g))%nat ->
  beginGame_locked now rnd R w
  = (BeginStarted (length (players g)) (joinNames (players g))
       "Game begins - Lowest card is OUT!",
     set_redis (fun r => <[gameKeyOf R := VGame (begunGame now g)]>
                           (initializeDeck rnd R r)) w).
Proof.
  intros Hg Hs Hlen. unfold beginGame_locked. rewrite Hg.
  rewrite bool_decide_eq_true_2 by exact Hs. simpl negb. cbv iota.
  apply Nat.ltb_ge in Hlen. rewrite Hlen. reflexivity.
Qed.

Lemma beginGame_locked_cancelled now rnd R w g :
  getGame (redis w) R = Some g -> status g = waiting ->
  (length (players g) < 2)%nat ->
  snd (beginGame_locked now rnd R w)
  = set_redis (cleanupRedisKeys R) (refundPlayers (players g) (entryAmount g) w).
Proof.
  intros Hg Hs Hlen. unfold beginGame_locked. rewrite Hg.
  rewrite bool_decide_eq_true_2 by exact Hs. simpl negb. cbv iota.
  apply Nat.ltb_lt in Hlen. rewrite Hlen. reflexivity.
Qed.

Lemma gameKey_in_roomKeys R : gameKeyOf R ∈ roomKeys R.
Proof. apply list_elem_of_In. simpl. auto. Qed.

Lemma joinLock_in_roomKeys R : joinLockKeyOf R ∈ roomKeys R.
Proof. apply list_elem_of_In. simpl. auto 10. Qed.

(** Whatever [beginGame] finds, it leaves no waiting game in the room. *)
Lemma beginGame_leaves_nothing_waiting now rnd tokens R w g :
  getGame (redis (snd (beginGame now rnd tokens R w))) R = Some g ->
  status g ≠ waiting.
Proof.
  unfold beginGame.
  destruct (acquireLockWithRetry (joinLockKeyOf R) tokens 5 (redis w)) as [tok r0].
  generalize (set_redis (fun _ => r0) w). intros w0.
  assert (Hlocked : forall g', getGame (redis (snd (beginGame_locked now rnd R w0))) R = Some g' ->
                      status g' ≠ waiting).
  { intros g'. destruct (getGame (redis w0) R) as [g0|] eqn:Hg0.
    - destruct (decide (status g0 = waiting)) as [Hs|Hs].
      + destruct (le_lt_dec 2 (length (players g0))) as [Hlen|Hlen].
        * rewrite (beginGame_locked_start now rnd R w0 g0 Hg0 Hs Hlen). simpl.
          rewrite getGame_Some, lookup_insert_eq. intros E. inversion E. discriminate.
        * rewrite (beginGame_locked_cancelled now rnd R w0 g0 Hg0 Hs Hlen). simpl.
          rewrite getGame_Some, cleanupRedisKeys_lookup,
            decide_True by apply gameKey_in_roomKeys. discriminate.
      + unfold beginGame_locked. rewrite Hg0.
        rewrite bool_decide_eq_false_2 by exact Hs. simpl. rewrite Hg0.
        intros E. inversion E; subst. exact Hs.
    - unfold beginGame_locked. rewrite Hg0. simpl. rewrite Hg0. discriminate. }
  destruct (beginGame_locked now rnd R w0) as [res w'] eqn:Eb. simpl in *.
  destruct tok as [t|]; [|apply Hlocked].
  simpl. intros Hg. apply Hlocked. rewrite getGame_Some in *.
  rewrite releaseLock_lookup_ne in Hg by apply gameKey_ne_joinLock. exact Hg.
Qed.

(** X9. [beginGame] is idempotent: once it ran, a second firing (at any
    time, with any randomness) answers [null] and changes nothing, whether
    the first one started the game, cancelled it or found nothing to begin. *)
Theorem beginGame_second_firing_is_noop (now now' : Z) (rnd rnd' : nat -> nat)
    (tokens tokens' : nat -> string) (R : string) (w : World) :
  beginGame now' rnd' tokens' R (snd (beginGame now rnd tokens R w))
  = (BeginNull, snd (beginGame now rnd tokens R w)).
Proof.
  apply beginGame_nothing_waiting. intros g Hg.
  apply (beginGame_leaves_nothing_waiting now rnd tokens R w g Hg).
Qed.

Lemma deckKey_ne_joinLock R : deckKeyOf R ≠ joinLockKeyOf R.
Proof. key_ne. Qed.

Lemma beginGame_started now rnd tokens R w g :
  getGame (redis w) R = Some g -> status g = waiting ->
  (2 <= length (players g))%nat ->
  fst (beginGame now rnd tokens R w)
  = BeginStarted (length (players g)) (joinNames (players g))
      "Game begins - Lowest card is OUT!"
  /\ getGame (redis (snd (beginGame now rnd tokens R w))) R = Some (begunGame now g)
  /\ getDeck (redis (snd (beginGame now rnd tokens R w))) R = Some (generateDeck rnd)
  /\ users (snd (beginGame now rnd tokens R w)) = users w
  /\ redis (snd (beginGame now rnd tokens R w)) !! joinLockKeyOf R
     = redis w !! joinLockKeyOf R.
Proof.
  intros Hg Hs Hlen. unfold beginGame.
  destruct (acquireLockWithRetry_cases (joinLockKeyOf R) tokens 4 (redis w))
    as [[Hfree ->]|[Hheld ->]].
  - rewrite (beginGame_locked_start now rnd R _ g); [|simpl|exact Hs|exact Hlen].
    2:{ rewrite getGame_insert_ne; [exact Hg|]. intros E. symmetry in E. revert E.
        apply gameKey_ne_joinLock. }
    simpl. unfold initializeDeck.
    assert (Hlock : (<[gameKeyOf R := VGame (begunGame now g)]>
                       (<[deckKeyOf R := VDeck (generateDeck rnd)]>
                          (<[joinLockKeyOf R := VStr (tokens 0%nat)]> (redis w))))
                    !! joinLockKeyOf R = Some (VStr (tokens 0%nat))).
    { rewrite !lookup_insert_ne by
        first [apply gameKey_ne_joinLock | apply deckKey_ne_joinLock].
      apply lookup_insert_eq. }
    split; [reflexivity|]. split; [|split; [|split]].
    + apply getGame_Some.
      rewrite releaseLock_lookup_ne by apply gameKey_ne_joinLock.
      apply lookup_insert_eq.
    + apply getDeck_Some.
      rewrite releaseLock_lookup_ne by apply deckKey_ne_joinLock.
      rewrite lookup_insert_ne by apply gameKey_ne_deck. apply lookup_insert_eq.
    + reflexivity.
    + rewrite releaseLock_own by exact Hlock. rewrite lookup_delete_eq, Hfree. reflexivity.
  - rewrite set_redis_id by reflexivity.
    rewrite (beginGame_locked_start now rnd R w g Hg Hs Hlen). simpl.
    unfold initializeDeck. split; [reflexivity|]. split; [|split; [|split]].
    + apply getGame_Some, lookup_insert_eq.
    + apply getDeck_Some. rewrite lookup_insert_ne by apply gameKey_ne_deck.
      apply lookup_insert_eq.
    + reflexivity.
    + rewrite !lookup_insert_ne by
        first [apply gameKey_ne_joinLock | apply deckKey_ne_joinLock]. reflexivity.
Qed.

(** A refused draw changes nothing, whether or not the draw lock was free. *)
Lemma drawCardForPlayer_refused_unchanged now rnd tokens R u name w :
  (forall g, getGame (redis w) R = Some g -> drawRefused now u g = true) ->
  success (fst (drawCardForPlayer now rnd tokens R u name w)) = false
  /\ snd (drawCardForPlayer now rnd tokens R u name w) = w.
Proof.
  intros Hno. unfold drawCardForPlayer.
  destruct (acquireLockWithRetry_cases (drawLockKeyOf R) tokens 2 (redis w))
    as [[Hfree ->]|[Hheld ->]]; [|auto].
  set (w0 := set_redis (fun _ => <[drawLockKeyOf R := VStr (tokens 0%nat)]> (redis w)) w).
  assert (Hg0 : getGame (redis w0) R = getGame (redis w) R).
  { simpl. apply getGame_insert_ne. intros E. symmetry in E. revert E.
    apply gameKey_ne_drawLock. }
  assert (Hl : success (fst (drawCardForPlayer_locked now rnd R u name w0)) = false
               /\ snd (drawCardForPlayer_locked now rnd R u name w0) = w0).
  { destruct (getGame (redis w) R) as [g|] eqn:Hg.
    - apply (drawCardForPlayer_locked_refused now rnd R u name w0 g Hg0).
      apply Hno. reflexivity.
    - unfold drawCardForPlayer_locked. rewrite Hg0. auto. }
  destruct (drawCardForPlayer_locked now rnd R u name w0) as [reply w'].
  simpl in *. destruct Hl as [Hs ->]. split; [exact Hs|].
  apply release_after_acquire_world, Hfree.
Qed.

(** X10. [beginGame] with two or more players starts round one: the
    snapshot is playing, nobody has drawn, a full deck is stored and no
    account changes.  While the three-second countdown it set is running,
    every draw is refused and leaves the world as it was.  ([now] is epoch
    time, hence not negative.) *)
Theorem beginGame_starts_with_countdown (now : Z) (rnd : nat -> nat)
    (tokens : nat -> string) (R : string) (w : World) (g : Game) :
  0 <= now ->
  getGame (redis w) R = Some g -> status g = waiting ->
  (2 <= length (players g))%nat ->
  let w' := snd (beginGame now rnd tokens R w) in
  (exists g', getActiveGame R w' = Some g'
     /\ status g' = playing /\ currentRound g' = 1
     /\ map userId (players g') = map userId (players g)
     /\ Forall (fun p => hasDrawn p = false /\ currentCard p = None) (players g')
     /\ pot g' = pot g
     /\ countdownEndsAt g' = Some (now + COUNTDOWN_DELAY)
     /\ roundDeadline g' = Some (now + COUNTDOWN_DELAY + DRAW_TIMEOUT))
  /\ getDeck (redis w') R = Some (generateDeck rnd)
  /\ users w' = users w
  /\ forall now' rnd' tokens' u name,
       now' < now + COUNTDOWN_DELAY ->
       success (fst (drawCardForPlayer now' rnd' tokens' R u name w')) = false
       /\ snd (drawCardForPlayer now' rnd' tokens' R u name w') = w'.
Proof.
  intros Hnow Hg Hs Hlen. cbv zeta.
  destruct (beginGame_started now rnd tokens R w g Hg Hs Hlen) as (_ & Hg' & Hd & Hu & _).
  split; [|split; [exact Hd|split; [exact Hu|]]].
  - exists (begunGame now g). split; [exact Hg'|]. simpl.
    split; [reflexivity|]. split; [reflexivity|].
    split; [rewrite map_map; reflexivity|].
    split; [|auto]. apply Forall_forall. intros p Hp.
    apply list_elem_of_fmap in Hp as (q & -> & _). auto.
  - intros now' rnd' tokens' u name Hlt.
    apply drawCardForPlayer_refused_unchanged. intros g0 Hg0.
    rewrite Hg' in Hg0. inversion Hg0; subst g0.
    unfold drawRefused. simpl.
    assert (E : (now + COUNTDOWN_DELAY =? 0) = false).
    { apply Z.eqb_neq. unfold COUNTDOWN_DELAY. lia. }
    rewrite E. apply Z.ltb_lt in Hlt. rewrite Hlt. reflexivity.
Qed.

Lemma beginGame_starts_with_countdown_witness :
  getDeck (redis (snd (beginGame 31000 (fun _ => O) (fun _ => "a1b2") "r1"
                         (worldWith (sampleGame waiting 10 [alice; bob])))))
    "r1" = Some (generateDeck (fun _ => O)).
Proof.
  refine (proj1 (proj2 (beginGame_starts_with_countdown 31000 (fun _ => O)
                          (fun _ => "a1b2") "r1"
                          (worldWith (sampleGame waiting 10 [alice; bob]))
                          (sampleGame waiting 10 [alice; bob]) _ _ _ _))).
  - lia.
  - reflexivity.
  - reflexivity.
  - simpl. lia.
Defined.

(** ** The table stays as it is while the game runs *)

Lemma samePerson_refl p : samePerson p p.
Proof. unfold samePerson. auto. Qed.

Lemma samePerson_trans p q r' : samePerson p q -> samePerson q r' -> samePerson p r'.
Proof. unfold samePerson. intros (? & ? & ?) (? & ? & ?). repeat split; try congruence; auto. Qed.

Lemma Forall2_samePerson_map (f : Player -> Player) ps :
  (forall p, samePerson p (f p)) -> Forall2 samePerson ps (map f ps).
Proof. intros Hf. induction ps; simpl; constructor; auto. Qed.

Lemma Forall2_samePerson_refl ps : Forall2 samePerson ps ps.
Proof. induction ps; constructor; auto using samePerson_refl. Qed.

Lemma Forall2_samePerson_insert ps : forall i p q,
  ps !! i = Some p -> samePerson p q -> Forall2 samePerson ps (<[i := q]> ps).
Proof.
  induction ps as [|x ps IH]; intros [|i] p q Hi Hpq; simpl in *; try discriminate.
  - inversion Hi; subst. constructor; [exact Hpq | apply Forall2_samePerson_refl].
  - constructor; [apply samePerson_refl | eapply IH; eauto].
Qed.

Lemma Forall2_samePerson_trans ps qs rs :
  Forall2 samePerson ps qs -> Forall2 samePerson qs rs -> Forall2 samePerson ps rs.
Proof. apply Forall2_trans. intros x y z. apply samePerson_trans. Qed.

Lemma samePerson_eliminate loser ps : Forall2 samePerson ps (eliminate loser ps).
Proof.
  unfold eliminate.
  destruct (list_find (fun p => userId p = userId loser) ps) as [[i p]|] eqn:Ef;
    [|apply Forall2_samePerson_refl].
  apply list_find_Some in Ef as (Hi & _ & _).
  apply (Forall2_samePerson_insert ps i p); [exact Hi|].
  unfold samePerson. simpl. auto.
Qed.

Lemma samePerson_resetSurvivor p : samePerson p (resetSurvivor p).
Proof.
  unfold resetSurvivor, samePerson. destruct (isEliminated p) eqn:E; simpl;
    repeat split; congruence.
Qed.

Lemma samePerson_markTied ids p : samePerson p (markTied ids p).
Proof.
  unfold markTied, samePerson. destruct (isEliminated p) eqn:E; [auto|].
  destruct (bool_decide (userId p ∈ ids)); simpl; repeat split; congruence.
Qed.

Lemma samePerson_clear p : samePerson p (set_inTieBreaker false p).
Proof. unfold samePerson. simpl. auto. Qed.

Lemma finishGame_deletes_game R g remaining loser w :
  redis (snd (finishGame R g remaining loser w)) !! gameKeyOf R = None.
Proof.
  unfold finishGame. cbv zeta. destruct (head remaining) as [wnr|].
  - destruct (addCredits (userId wnr) (pot g - houseFeeOf g) w) as [[ok bal] w1]. simpl.
    rewrite cleanupRedisKeys_lookup, decide_True by apply gameKey_in_roomKeys. reflexivity.
  - simpl.
    rewrite cleanupRedisKeys_lookup, decide_True by apply gameKey_in_roomKeys. reflexivity.
Qed.

Lemma tallyRound_table now R w g g' :
  getGame (redis w) R = Some g ->
  getGame (redis (snd (tallyRound now R w))) R = Some g' ->
  sameTable g g'.
Proof.
  intros Hg Hg'.
  assert (Hrefl : sameTable g g).
  { unfold sameTable. split; [apply Forall2_samePerson_refl | auto]. }
  destruct (currentHandsPlayers g) as [|h hands] eqn:Eh.
  { unfold tallyRound in Hg'. rewrite Hg, Eh in Hg'. simpl in Hg'.
    rewrite Hg in Hg'. inversion Hg'; subst. exact Hrefl. }
  assert (Hne : currentHandsPlayers g ≠ []) by (rewrite Eh; discriminate).
  rewrite (tallyRound_unfold now R w g Hg Hne) in Hg'.
  destruct (lowestInScope g) as [|loser [|second rest]].
  - simpl in Hg'. rewrite Hg in Hg'. inversion Hg'; subst. exact Hrefl.
  - cbv zeta in Hg'. destruct (length _ <? 2)%nat.
    + simpl in Hg'. apply getGame_Some in Hg'.
      rewrite finishGame_deletes_game in Hg'. discriminate.
    + simpl in Hg'. apply getGame_Some in Hg'. rewrite lookup_insert_eq in Hg'.
      inversion Hg'; subst g'. unfold sameTable. simpl.
      split; [|auto]. rewrite map_map.
      eapply Forall2_samePerson_trans; [apply (samePerson_eliminate loser)|].
      apply Forall2_samePerson_map. intros p.
      eapply samePerson_trans; [apply samePerson_clear | apply samePerson_resetSurvivor].
  - simpl in Hg'. apply getGame_Some in Hg'. rewrite lookup_insert_eq in Hg'.
    inversion Hg'; subst g'. unfold sameTable. simpl.
    split; [|auto]. apply Forall2_samePerson_map. intros p. apply samePerson_markTied.
Qed.

Lemma drawCardForPlayer_table now rnd tokens R u name w g g' :
  getGame (redis w) R = Some g ->
  getGame (redis (snd (drawCardForPlayer now rnd tokens R u name w))) R = Some g' ->
  sameTable g g'.
Proof.
  intros Hg Hg'.
  assert (Hrefl : sameTable g g).
  { unfold sameTable. split; [apply Forall2_samePerson_refl | auto]. }
  destruct (drawRefused now u g) eqn:Er.
  { destruct (drawCardForPlayer_refused_unchanged now rnd tokens R u name w) as [_ Hw].
    - intros g0 Hg0. congruence.
    - rewrite Hw, Hg in Hg'. inversion Hg'; subst. exact Hrefl. }
  unfold drawCardForPlayer in Hg'.
  destruct (acquireLockWithRetry_cases (drawLockKeyOf R) tokens 2 (redis w))
    as [[Hfree E]|[Hheld E]]; rewrite E in Hg'.
  2:{ simpl in Hg'. rewrite Hg in Hg'. inversion Hg'; subst. exact Hrefl. }
  set (w0 := set_redis (fun _ => <[drawLockKeyOf R := VStr (tokens 0%nat)]> (redis w)) w) in *.
  assert (Hg0 : getGame (redis w0) R = Some g).
  { simpl. rewrite getGame_insert_ne; [exact Hg|]. intros E'. symmetry in E'. revert E'.
    apply gameKey_ne_drawLock. }
  destruct (drawCardForPlayer_locked_accepted now rnd R u name w0 g Hg0 Er)
    as (i & p & cd & Hf & _ & Heq).
  rewrite Heq in Hg'. simpl in Hg'. apply getGame_Some in Hg'.
  rewrite releaseLock_lookup_ne in Hg' by apply gameKey_ne_drawLock.
  rewrite lookup_insert_eq in Hg'. inversion Hg'; subst g'.
  apply list_find_Some in Hf as (Hi & _ & _).
  unfold sameTable. simpl. split; [|auto].
  apply (Forall2_samePerson_insert (players g) i p); [exact Hi|].
  unfold samePerson. simpl. auto.
Qed.

Lemma autoDrawForTimeout_table rnd R w g g' :
  getGame (redis w) R = Some g ->
  getGame (redis (snd (autoDrawForTimeout rnd R w))) R = Some g' ->
  sameTable g g'.
Proof.
  intros Hg Hg'.
  destruct (autoDrawForTimeout_game rnd R w g Hg) as (ps' & Hgs & Hf & _).
  rewrite Hgs in Hg'. inversion Hg'; subst g'. unfold sameTable. simpl.
  split; [|auto]. eapply Forall2_impl; [exact Hf|].
  intros p p' Hpp. unfold autoDrawnPlayer in Hpp.
  destruct (skipsAutoDraw (isTieBreaker g) p); [subst; apply samePerson_refl|].
  destruct Hpp as [cd ->]. unfold samePerson. simpl. auto.
Qed.

(** X11. While a game runs the table is fixed: whatever a draw, the
    timeout draw or a tally writes, the snapshot has the same players in the
    same seats, the same entry amount, pot and starter; a player once
    eliminated stays eliminated and a playing game stays playing. *)
Theorem table_is_fixed_while_playing (R : string) (w : World) (g : Game) :
  getGame (redis w) R = Some g ->
  (forall now rnd tokens u name g',
     getGame (redis (snd (drawCardForPlayer now rnd tokens R u name w))) R = Some g' ->
     sameTable g g')
  /\ (forall rnd g',
        getGame (redis (snd (autoDrawForTimeout rnd R w))) R = Some g' -> sameTable g g')
  /\ (forall now g',
        getGame (redis (snd (tallyRound now R w))) R = Some g' -> sameTable g g').
Proof.
  intros Hg. split; [|split].
  - intros now rnd tokens u name g'. apply drawCardForPlayer_table, Hg.
  - intros rnd g'. apply autoDrawForTimeout_table, Hg.
  - intros now g'. apply tallyRound_table, Hg.
Qed.

Lemma table_is_fixed_while_playing_witness :
  exists g',
    getGame (redis (snd (tallyRound 5000 "r1" (worldWith tiedTable)))) "r1" = Some g'
    /\ sameTable tiedTable g'.
Proof.
  eexists. split; [vm_compute; reflexivity|].
  refine (proj2 (proj2 (table_is_fixed_while_playing "r1" (worldWith tiedTable)
                          tiedTable _)) 5000 _ _).
  - reflexivity.
  - vm_compute. reflexivity.
Defined.

(** ** One player out per round *)

Lemma survivors_markOut_other loser ps :
  loser ∉ ps ->
  length (survivors (map (markOut loser) ps)) = length (survivors ps).
Proof.
  induction ps as [|x ps IH]; intros Hn; [reflexivity|].
  apply not_elem_of_cons in Hn as [Hne Hn]. unfold survivors in *. simpl.
  unfold markOut at 1. rewrite bool_decide_eq_false_2 by congruence. simpl.
  destruct (isEliminated x); simpl; rewrite IH by exact Hn; reflexivity.
Qed.

Lemma survivors_markOut loser ps :
  NoDup ps -> loser ∈ ps -> isEliminated loser = false ->
  S (length (survivors (map (markOut loser) ps))) = length (survivors ps).
Proof.
  induction ps as [|x ps IH]; intros Hnd Hin He.
  - apply elem_of_nil in Hin. contradiction.
  - apply NoDup_cons in Hnd as [Hfresh Hnd]. unfold survivors in *. simpl.
    destruct (decide (x = loser)) as [->|Hne].
    + unfold markOut at 1. rewrite bool_decide_eq_true_2 by reflexivity. simpl.
      rewrite He. simpl. f_equal. apply (survivors_markOut_other loser ps Hfresh).
    + apply elem_of_cons in Hin as [->|Hin]; [congruence|].
      unfold markOut at 1. rewrite bool_decide_eq_false_2 by exact Hne. simpl.
      destruct (isEliminated x); simpl; rewrite <- (IH Hnd Hin He); reflexivity.
Qed.

Lemma survivors_markOut_elem loser ps q :
  q ∈ survivors (map (markOut loser) ps) ->
  exists p, p ∈ ps /\ p ≠ loser /\ isEliminated p = false
            /\ q = set_inTieBreaker false p.
Proof.
  intros Hq. apply survivors_elem in Hq as [Hq He].
  apply list_elem_of_fmap in Hq as (p & -> & Hp). exists p.
  unfold markOut in *. destruct (bool_decide (p = loser)) eqn:Eb.
  - simpl in He. discriminate.
  - apply bool_decide_eq_false in Eb. simpl in He. auto.
Qed.

(** X12. A round with a single lowest card takes exactly one player out.
    With two players left that ends the game: [finishGame] runs, the other
    player -- never the loser -- is the winner and the snapshot is gone.
    With three or more left the game goes on with one survivor fewer. *)
Theorem single_lowest_takes_one_out (now : Z) (R : string) (w : World) (g : Game)
    (loser : Player) :
  getGame (redis w) R = Some g ->
  NoDup (map userId (players g)) ->
  lowestInScope g = [loser] ->
  S (length (survivors (players (clearedGame loser g)))) = length (survivors (players g))
  /\ (length (survivors (players g)) = 2%nat ->
      exists wnr res,
        fst (tallyRound now R w) = TallyFinished res
        /\ wnr ∈ players g /\ isEliminated wnr = false /\ wnr ≠ loser
        /\ finishWinnerId res = Some (userId wnr)
        /\ winner res = Some (username wnr)
        /\ eliminated res = Some (username loser)
        /\ getGame (redis (snd (tallyRound now R w))) R = None)
  /\ ((3 <= length (survivors (players g)))%nat ->
      exists g',
        getGame (redis (snd (tallyRound now R w))) R = Some g'
        /\ length (survivors (players g')) = (length (survivors (players g)) - 1)%nat
        /\ currentRound g' = currentRound g + 1).
Proof.
  intros Hg Hnd El.
  assert (Hlow : loser ∈ lowestInScope g) by (rewrite El; apply elem_of_cons; auto).
  apply lowestInScope_elem in Hlow as (Hin & Hh & _).
  assert (He : isEliminated loser = false).
  { unfold holdsHand in Hh. destruct (isEliminated loser); [discriminate | reflexivity]. }
  assert (Hne : currentHandsPlayers g ≠ []).
  { intros E. unfold lowestInScope in El. rewrite E in El. discriminate. }
  assert (Hndp : NoDup (players g)) by (apply (NoDup_fmap_1 userId), Hnd).
  pose proof (survivors_markOut loser (players g) Hndp Hin He) as Hcount.
  pose proof (tallyRound_unfold now R w g Hg Hne) as Hun.
  rewrite El in Hun. cbv zeta in Hun.
  rewrite (cleared_players _ _ Hnd Hin) in Hun. fold (clearedGame loser g) in Hun.
  change (players (clearedGame loser g)) with (map (markOut loser) (players g)) in *.
  split; [exact Hcount|]. split.
  - intros H2. rewrite H2 in Hcount.
    destruct (survivors (map (markOut loser) (players g))) as [|q [|q' rest]] eqn:Es;
      simpl in Hcount; try lia.
    simpl in Hun.
    assert (Hq : q ∈ survivors (map (markOut loser) (players g)))
      by (rewrite Es; apply elem_of_cons; auto).
    apply survivors_markOut_elem in Hq as (p & Hp & Hpl & Hpe & ->).
    exists p, (fst (finishGame R (clearedGame loser g) [set_inTieBreaker false p]
                      (Some loser) w)).
    rewrite Hun. simpl fst. simpl snd.
    split; [reflexivity|]. split; [exact Hp|]. split; [exact Hpe|]. split; [exact Hpl|].
    destruct (finishGame_winner R (clearedGame loser g) (set_inTieBreaker false p) []
                (Some loser) w) as (_ & _ & Hid & _).
    split; [exact Hid|].
    unfold getGame. rewrite finishGame_deletes_game.
    unfold finishGame. cbv zeta. cbn [hd_error].
    destruct (addCredits _ _ w) as [[ok bal] w1]. simpl. auto.
  - intros H3.
    assert (Hge : (length (survivors (map (markOut loser) (players g))) <? 2)%nat = false)
      by (apply Nat.ltb_ge; lia).
    rewrite Hge in Hun. rewrite Hun. simpl snd.
    eexists. split; [apply getGame_Some, lookup_insert_eq|]. simpl.
    split; [|reflexivity].
    assert (Hsame : length (survivors (map resetSurvivor (map (markOut loser) (players g))))
                    = length (survivors (map (markOut loser) (players g)))).
    { generalize (map (markOut loser) (players g)). intros l.
      induction l as [|x l IH]; [reflexivity|]. unfold survivors in *. simpl.
      unfold resetSurvivor at 1. destruct (isEliminated x) eqn:Ex; simpl; rewrite ?Ex; simpl;
        rewrite IH; reflexivity. }
    rewrite Hsame. lia.
Qed.

Lemma single_lowest_takes_one_out_witness :
  exists g',
    getGame (redis (snd (tallyRound 5000 "r1" (worldWith plainTable)))) "r1" = Some g'
    /\ length (survivors (players g')) = 2%nat.
Proof.
  destruct (single_lowest_takes_one_out 5000 "r1" (worldWith plainTable) plainTable
              (holding h 5 alice)) as (_ & _ & H).
  - reflexivity.
  - compute_done.
  - reflexivity.
  - destruct H as (g' & Hg' & Hlen & _); [vm_compute; lia|].
    exists g'. split; [exact Hg' | exact Hlen].
Defined.

(** ** Cancelling *)

Lemma refundPlayers_others ps a w v :
  v ∉ map userId ps -> users (refundPlayers ps a w) !! v = users w !! v.
Proof.
  intros Hn. rewrite refundPlayers_lookup, timesListed_absent by exact Hn.
  destruct (users w !! v); simpl; [f_equal; lia | reflexivity].
Qed.

(** X13. Only the starter can cancel, and only a waiting game: any other
    cancel is refused and changes nothing.  A successful cancel closes the
    room: its six keys are gone, accounts of users who were not in the game
    are untouched, the games of other rooms are untouched, a later join is
    refused without charge and the pending [beginGame] finds nothing to do. *)
Theorem cancelByStarter_closes_the_room (R : string) (u : UserId) (name : string)
    (w : World) (g : Game) :
  getGame (redis w) R = Some g ->
  (status g ≠ waiting \/ startedBy g ≠ u ->
     success (fst (cancelByStarter R u name w)) = false
     /\ snd (cancelByStarter R u name w) = w)
  /\ (status g = waiting -> startedBy g = u ->
      let w' := snd (cancelByStarter R u name w) in
      success (fst (cancelByStarter R u name w)) = true
      /\ (forall k, k ∈ roomKeys R -> redis w' !! k = None)
      /\ (forall v, v ∉ map userId (players g) -> users w' !! v = users w !! v)
      /\ (forall R', R ≠ R' -> getGame (redis w') R' = getGame (redis w) R')
      /\ (forall mts now tokens v name',
            success (fst (joinGame mts now tokens R v name' w')) = false
            /\ snd (joinGame mts now tokens R v name' w') = w')
      /\ (forall now rnd tokens, beginGame now rnd tokens R w' = (BeginNull, w'))).
Proof.
  intros Hg. split.
  - intros Hno. unfold cancelByStarter. rewrite Hg.
    destruct (bool_decide (status g = waiting)) eqn:Es; [|auto].
    apply bool_decide_eq_true in Es. simpl.
    destruct Hno as [Hs|Hu]; [congruence|].
    apply Z.eqb_neq in Hu. rewrite Hu. auto.
  - intros Hs Hu. cbv zeta. unfold cancelByStarter. rewrite Hg.
    rewrite bool_decide_eq_true_2 by exact Hs. rewrite Hu, Z.eqb_refl. simpl.
    set (w1 := refundPlayers (players g) (entryAmount g) w).
    assert (Hgone : getGame (cleanupRedisKeys R (redis w1)) R = None).
    { unfold getGame.
      rewrite cleanupRedisKeys_lookup, decide_True by apply gameKey_in_roomKeys.
      reflexivity. }
    split; [reflexivity|]. split; [|split; [|split; [|split]]].
    + intros k Hk. rewrite cleanupRedisKeys_lookup, decide_True by exact Hk. reflexivity.
    + intros v Hv. apply refundPlayers_others, Hv.
    + intros R' Hne.
      destruct (cleanupRedisKeys_only_its_room_aux R R' (redis w1) Hne) as [E _].
      rewrite E. apply getGame_ext. apply refundPlayers_redis.
      intros v. apply gameKey_ne_credits.
    + intros mts now tokens v name'. apply joinGame_refused_unchanged.
      intros g0 Hg0. simpl in Hg0. rewrite Hgone in Hg0. discriminate.
    + intros now rnd tokens. apply beginGame_nothing_waiting.
      intros g0 Hg0. simpl in Hg0. rewrite Hgone in Hg0. discriminate.
Qed.

Lemma cancelByStarter_closes_the_room_witness :
  success (fst (cancelByStarter "r1" 2 "bob"
                  (worldWith (sampleGame waiting 10 [alice; bob])))) = false
  /\ snd (cancelByStarter "r1" 2 "bob" (worldWith (sampleGame waiting 10 [alice; bob])))
     = worldWith (sampleGame waiting 10 [alice; bob]).
Proof.
  refine (proj1 (cancelByStarter_closes_the_room "r1" 2 "bob"
                   (worldWith (sampleGame waiting 10 [alice; bob]))
                   (sampleGame waiting 10 [alice; bob]) _) _).
  - reflexivity.
  - right. simpl. lia.
Defined.

(** ** Starting over an existing game *)

Lemma stale_check_idle now R w :
  (forall g, getGame (redis w) R = Some g ->
     status g ≠ waiting \/ joinDeadline g = None
     \/ exists deadline, joinDeadline g = Some deadline
                         /\ now <= deadline + STALE_GAME_TIMEOUT) ->
  checkAndCleanupStaleGame now R w = (false, w).
Proof.
  intros H. unfold checkAndCleanupStaleGame.
  destruct (getGame (redis w) R) as [g|]; [|reflexivity].
  destruct (decide (status g = waiting)) as [Hw|]; [|reflexivity].
  destruct (joinDeadline g) as [deadline|] eqn:Ed; [|reflexivity].
  destruct (H g eq_refl) as [Hs|[Hn|(dl & Hdl & Hle)]]; try congruence.
  assert (dl = deadline) as -> by congruence.
  assert (E : (deadline + STALE_GAME_TIMEOUT <? now) = false) by (apply Z.ltb_ge; lia).
  rewrite E, andb_false_r. reflexivity.
Qed.

Lemma start_lock_round_trip R w :
  redis w !! startLockKeyOf R = None ->
  set_redis (delete (startLockKeyOf R))
    (set_redis (fun _ => <[startLockKeyOf R := VStr "1"]> (redis w)) w) = w.
Proof.
  intros Hfree. rewrite set_redis_set_redis. apply set_redis_id.
  apply delete_insert_id, Hfree.
Qed.

Lemma getTimer_insert_startLock R v (r : Redis) :
  getTimer (<[startLockKeyOf R := v]> r) R = getTimer r R.
Proof.
  unfold getTimer. rewrite lookup_insert_ne; [reflexivity|]. key_ne.
Qed.

(** X14. A second [startGame] does not disturb a game in progress: over a
    playing game, or over a waiting game that is not stale and either has
    its timer or was created at most 40 s ago, it answers "already in
    progress" and leaves the world exactly as it was -- nobody is refunded or
    charged and the start lock is released. *)
Theorem startGame_refuses_game_in_progress (mts : MerchantTagService) (now : Z)
    (env : StartEnv) (R : string) (u : UserId) (name : string) (amount : JsArg)
    (w : World) (g : Game) :
  redis w !! startLockKeyOf R = None ->
  getGame (redis w) R = Some g ->
  status g = playing
  \/ (status g = waiting
      /\ (joinDeadline g = None
          \/ exists deadline, joinDeadline g = Some deadline
                              /\ now <= deadline + STALE_GAME_TIMEOUT)
      /\ (is_Some (getTimer (redis w) R) \/ now - createdAt g <= 40000)) ->
  startGame mts now env R u name amount w
  = (reject (Some "A game is already in progress. Use !j to join.") false true, w).
Proof.
  intros Hfree Hg Hcase. unfold startGame. rewrite acquireLock_free by exact Hfree.
  set (w0 := set_redis (fun _ => <[startLockKeyOf R := VStr "1"]> (redis w)) w).
  assert (Hg0 : getGame (redis w0) R = Some g).
  { simpl. rewrite getGame_insert_ne; [exact Hg|]. intros E. symmetry in E. revert E.
    apply gameKey_ne_startLock. }
  assert (Hstale : checkAndCleanupStaleGame now R w0 = (false, w0)).
  { apply stale_check_idle. intros g0 Hg0'. rewrite Hg0 in Hg0'. inversion Hg0'; subst g0.
    destruct Hcase as [Hp|(_ & Hd & _)]; [left; rewrite Hp; discriminate|]. right. exact Hd. }
  unfold startGame_locked. rewrite Hstale. simpl snd.
  assert (He : startGame_existing now R w0 = None).
  { unfold startGame_existing. rewrite Hg0.
    rewrite decide_True by (destruct Hcase as [?|(? & _)]; auto).
    destruct Hcase as [Hp|(Hs & _ & Ht)].
    - rewrite (bool_decide_eq_false_2 (status g = waiting)) by (rewrite Hp; discriminate).
      rewrite andb_false_r. reflexivity.
    - destruct Ht as [Ht|Hyoung].
      + rewrite (bool_decide_eq_true_2 (is_Some (getTimer (redis w0) R))); [reflexivity|].
        simpl. rewrite getTimer_insert_startLock. exact Ht.
      + assert (E : (40000 <? now - createdAt g) = false) by (apply Z.ltb_ge; lia).
        rewrite E, andb_false_r. reflexivity. }
  rewrite He. f_equal. apply start_lock_round_trip, Hfree.
Qed.

Lemma startGame_refuses_game_in_progress_witness :
  startGame noTags 5000 healthy "r1" 3 "carol" JsUndefined
    (worldWith (sampleGame playing 10 [alice; bob]))
  = (reject (Some "A game is already in progress. Use !j to join.") false true,
     worldWith (sampleGame playing 10 [alice; bob])).
Proof.
  apply (startGame_refuses_game_in_progress noTags 5000 healthy "r1" 3 "carol" JsUndefined
           (worldWith (sampleGame playing 10 [alice; bob]))
           (sampleGame playing 10 [alice; bob])).
  - reflexivity.
  - reflexivity.
  - left. reflexivity.
Defined.

(** X15. With no game in the room and the start lock free, a requested
    amount other than zero that is outside the allowed range is refused
    without any effect: below the room's minimum (1, or 50 in a
    big-game room) with the "Minimal" reply, above 999,999,999 in an ordinary
    room with the "Maximal" reply. *)
Theorem startGame_amount_out_of_range (mts : MerchantTagService) (now : Z)
    (env : StartEnv) (R : string) (u : UserId) (name : string) (amount : JsArg)
    (w : World) (z : Z) :
  redis w !! startLockKeyOf R = None ->
  getGame (redis w) R = None ->
  parseInt amount = Some z -> z ≠ 0 ->
  (z < minEntryOf R w ->
     startGame mts now env R u name amount w
     = (reject (Some ("Minimal " +:+ pretty (minEntryOf R w) +:+ " COINS to start game."))
          false true, w))
  /\ (isBigGameRoom R w = false -> MAX_ENTRY < z ->
      startGame mts now env R u name amount w
      = (reject (Some "Maximal 999,999,999 COINS to start game.") false true, w))
  /\ (minEntryOf R w = if isBigGameRoom R w then 50 else 1).
Proof.
  intros Hfree Hg Hp Hz.
  set (w0 := set_redis (fun _ => <[startLockKeyOf R := VStr "1"]> (redis w)) w).
  assert (Hg0 : getGame (redis w0) R = None).
  { simpl. rewrite getGame_insert_ne; [exact Hg|]. intros E. symmetry in E. revert E.
    apply gameKey_ne_startLock. }
  assert (Hstale : checkAndCleanupStaleGame now R w0 = (false, w0)).
  { apply stale_check_idle. intros g0 Hg0'. congruence. }
  assert (He : startGame_existing now R w0 = Some w0).
  { unfold startGame_existing. rewrite Hg0. reflexivity. }
  assert (Hreq : forall m, requestedAmountOf amount m = z).
  { intros m. unfold requestedAmountOf. rewrite Hp.
    apply Z.eqb_neq in Hz. rewrite Hz. reflexivity. }
  assert (Hunf : startGame mts now env R u name amount w
                 = (fst (startGame_locked mts now env R u name amount w0),
                    set_redis (delete (startLockKeyOf R))
                      (snd (startGame_locked mts now env R u name amount w0)))).
  { unfold startGame. rewrite acquireLock_free by exact Hfree. fold w0.
    destruct (startGame_locked mts now env R u name amount w0). reflexivity. }
  split; [|split; [|reflexivity]].
  - intros Hlt. rewrite Hunf. unfold startGame_locked.
    rewrite Hstale. simpl snd. rewrite He. cbv zeta. rewrite Hreq.
    change (minEntryOf R w0) with (minEntryOf R w).
    apply Z.ltb_lt in Hlt. rewrite Hlt. simpl. f_equal.
    apply start_lock_round_trip, Hfree.
  - intros Hbig Hmax. rewrite Hunf. unfold startGame_locked.
    rewrite Hstale. simpl snd. rewrite He. cbv zeta. rewrite Hreq.
    change (minEntryOf R w0) with (minEntryOf R w).
    change (isBigGameRoom R w0) with (isBigGameRoom R w).
    assert (Hmin : (z <? minEntryOf R w) = false).
    { apply Z.ltb_ge. unfold minEntryOf. rewrite Hbig. unfold MIN_ENTRY, MAX_ENTRY in *. lia. }
    rewrite Hmin, Hbig. apply Z.ltb_lt in Hmax. rewrite Hmax. simpl. f_equal.
    apply start_lock_round_trip, Hfree.
Qed.

Lemma startGame_amount_out_of_range_witness :
  startGame noTags 5000 healthy "r1" 1 "alice" (JsString "1000000000") (sampleWorld 90 ∅)
  = (reject (Some "Maximal 999,999,999 COINS to start game.") false true,
     sampleWorld 90 ∅).
Proof.
  refine (proj1 (proj2 (startGame_amount_out_of_range noTags 5000 healthy "r1" 1 "alice"
                          (JsString "1000000000") (sampleWorld 90 ∅) 1000000000
                          _ _ _ _)) _ _).
  - reflexivity.
  - reflexivity.
  - reflexivity.
  - discriminate.
  - vm_compute. reflexivity.
  - reflexivity.
Defined.

(** ** Locks are given back *)

Lemma released k t (r : Redis) :
  r !! k = Some (VStr t) \/ r !! k = None -> releaseLock k t r !! k = None.
Proof.
  intros [E|E].
  - rewrite releaseLock_own by exact E. apply lookup_delete_eq.
  - rewrite releaseLock_foreign by (rewrite E; discriminate). exact E.
Qed.

Lemma joinLock_ne_credits R u : joinLockKeyOf R ≠ creditsKeyOf u.
Proof. key_ne. Qed.

Lemma drawLock_ne_credits R u : drawLockKeyOf R ≠ creditsKeyOf u.
Proof. key_ne. Qed.

Lemma joinGame_locked_lock mts now R u name w :
  redis (snd (joinGame_locked mts now R u name w)) !! joinLockKeyOf R
  = redis w !! joinLockKeyOf R.
Proof.
  unfold joinGame_locked.
  destruct (getGame (redis w) R) as [g|]; [|reflexivity].
  destruct (negb (bool_decide (status g = waiting))); [reflexivity|].
  destruct (match joinDeadline g with Some d0 => d0 <? now | None => false end);
    [reflexivity|].
  destruct (alreadyJoined u g); [reflexivity|].
  pose proof (deductCredits_redis mts u (entryAmount g) w (joinLockKeyOf R)
                (joinLock_ne_credits R u)) as Hr.
  destruct (deductCredits mts u (entryAmount g) w) as [[ok bal] w1]. simpl in Hr.
  destruct ok; simpl; [|exact Hr].
  rewrite lookup_insert_ne by apply gameKey_ne_joinLock. exact Hr.
Qed.

Lemma drawCardForPlayer_locked_lock now rnd R u name w :
  redis (snd (drawCardForPlayer_locked now rnd R u name w)) !! drawLockKeyOf R
  = redis w !! drawLockKeyOf R.
Proof.
  unfold drawCardForPlayer_locked.
  destruct (getGame (redis w) R) as [g|]; [|reflexivity].
  destruct (negb (bool_decide (status g = playing))); [reflexivity|].
  destruct (truthy (countdownEndsAt g) && (now <? default 0 (countdownEndsAt g)));
    [reflexivity|].
  destruct (list_find (activeWithId u) (players g)) as [[i p]|]; [|reflexivity].
  destruct (isTieBreaker g && negb (inTieBreaker p)); [reflexivity|].
  destruct (hasDrawn p); [reflexivity|].
  unfold drawCardFromDeck. simpl.
  rewrite lookup_insert_ne by apply gameKey_ne_drawLock.
  rewrite lookup_insert_ne by apply deckKey_ne_drawLock. reflexivity.
Qed.

Lemma beginGame_locked_lock now rnd R w :
  redis (snd (beginGame_locked now rnd R w)) !! joinLockKeyOf R = redis w !! joinLockKeyOf R
  \/ redis (snd (beginGame_locked now rnd R w)) !! joinLockKeyOf R = None.
Proof.
  unfold beginGame_locked.
  destruct (getGame (redis w) R) as [g|]; [|left; reflexivity].
  destruct (negb (bool_decide (status g = waiting))); [left; reflexivity|].
  destruct (length (players g) <? 2)%nat; simpl.
  - right. rewrite cleanupRedisKeys_lookup, decide_True by apply joinLock_in_roomKeys.
    reflexivity.
  - left. unfold initializeDeck.
    rewrite lookup_insert_ne by apply gameKey_ne_joinLock.
    rewrite lookup_insert_ne by apply deckKey_ne_joinLock. reflexivity.
Qed.

(** X16. No entry point leaves its lock behind: when the lock key was free
    before [startGame], [joinGame], [beginGame] or [drawCardForPlayer], it is
    free again afterwards, on every path. *)
Theorem no_lock_left_behind (mts : MerchantTagService) (now : Z) (env : StartEnv)
    (rnd : nat -> nat) (tokens : nat -> string) (R : string) (u : UserId)
    (name : string) (amount : JsArg) (w : World) :
  (redis w !! startLockKeyOf R = None ->
     redis (snd (startGame mts now env R u name amount w)) !! startLockKeyOf R = None)
  /\ (redis w !! joinLockKeyOf R = None ->
      redis (snd (joinGame mts now tokens R u name w)) !! joinLockKeyOf R = None)
  /\ (redis w !! joinLockKeyOf R = None ->
      redis (snd (beginGame now rnd tokens R w)) !! joinLockKeyOf R = None)
  /\ (redis w !! drawLockKeyOf R = None ->
      redis (snd (drawCardForPlayer now rnd tokens R u name w)) !! drawLockKeyOf R = None).
Proof.
  split; [|split; [|split]]; intros Hfree.
  - unfold startGame. rewrite acquireLock_free by exact Hfree.
    destruct (startGame_locked mts now env R u name amount _) as [reply w'].
    simpl. apply lookup_delete_eq.
  - unfold joinGame. unfold acquireLockWithRetry.
    rewrite acquireLockWithRetry_from_free by exact Hfree.
    pose proof (joinGame_locked_lock mts now R u name
                  (set_redis (fun _ => <[joinLockKeyOf R := VStr (tokens 0%nat)]> (redis w)) w))
      as Hl.
    destruct (joinGame_locked mts now R u name _) as [reply w']. simpl in *.
    apply released. left. rewrite Hl. apply lookup_insert_eq.
  - unfold beginGame. unfold acquireLockWithRetry.
    rewrite acquireLockWithRetry_from_free by exact Hfree.
    pose proof (beginGame_locked_lock now rnd R
                  (set_redis (fun _ => <[joinLockKeyOf R := VStr (tokens 0%nat)]> (redis w)) w))
      as Hl.
    destruct (beginGame_locked now rnd R _) as [res w']. simpl in *.
    apply released. destruct Hl as [Hl|Hl]; [left|right; exact Hl].
    rewrite Hl. apply lookup_insert_eq.
  - unfold drawCardForPlayer. unfold acquireLockWithRetry.
    rewrite acquireLockWithRetry_from_free by exact Hfree.
    pose proof (drawCardForPlayer_locked_lock now rnd R u name
                  (set_redis (fun _ => <[drawLockKeyOf R := VStr (tokens 0%nat)]> (redis w)) w))
      as Hl.
    destruct (drawCardForPlayer_locked now rnd R u name _) as [reply w']. simpl in *.
    apply released. left. rewrite Hl. apply lookup_insert_eq.
Qed.

(** ** The ledger *)

Lemma creditsKeyOf_inj u v : creditsKeyOf u = creditsKeyOf v -> u = v.
Proof.
  unfold creditsKeyOf. intros E.
  apply (inj (String.append "credits:")) in E. apply (inj pretty) in E. exact E.
Qed.

Lemma cacheCoherent_write u z w :
  cacheCoherent w ->
  cacheCoherent (set_redis <[creditsKeyOf u := VNum z]> (set_users <[u := z]> w)).
Proof.
  intros Hc v x. unfold balanceOf. simpl.
  destruct (decide (v = u)) as [->|Hne].
  - rewrite !lookup_insert_eq. intros E. inversion E. reflexivity.
  - rewrite lookup_insert_ne by (intros E; apply Hne; symmetry; apply creditsKeyOf_inj, E).
    rewrite lookup_insert_ne by congruence. apply Hc.
Qed.

Lemma getUserCredits_coherent u w :
  cacheCoherent w ->
  fst (getUserCredits u w) = balanceOf w u
  /\ cacheCoherent (snd (getUserCredits u w))
  /\ users (snd (getUserCredits u w)) = users w.
Proof.
  intros Hc. unfold getUserCredits.
  destruct (redis w !! creditsKeyOf u) as [v|] eqn:E.
  - rewrite (Hc u v E). simpl. auto.
  - simpl. split; [reflexivity|]. split; [|reflexivity].
    intros v x. unfold balanceOf. simpl.
    destruct (decide (v = u)) as [->|Hne].
    + rewrite lookup_insert_eq. intros E'. inversion E'. reflexivity.
    + rewrite lookup_insert_ne by (intros E'; apply Hne; symmetry; apply creditsKeyOf_inj, E').
      apply Hc.
Qed.

Lemma addCredits_coherent u a w : cacheCoherent w -> cacheCoherent (snd (addCredits u a w)).
Proof.
  intros Hc. unfold addCredits. destruct (users w !! u); simpl; [|exact Hc].
  apply cacheCoherent_write, Hc.
Qed.

Lemma deductCredits_coherent mts u a w :
  cacheCoherent w -> cacheCoherent (snd (deductCredits mts u a w)).
Proof.
  intros Hc. unfold deductCredits.
  destruct (getUserCredits_coherent u w Hc) as (_ & Hc1 & _).
  destruct (getUserCredits u w) as [current w1]. simpl in Hc1.
  repeat match goal with
         | |- context [if ?b then _ else _] => destruct b
         | |- context [match ?x with Some _ => _ | None => _ end] => destruct x
         | |- context [let '(_, _) := ?x in _] => destruct x
         end; simpl; try exact Hc1; apply cacheCoherent_write, Hc1.
Qed.

Lemma refundPlayers_coherent ps a : forall w,
  cacheCoherent w -> cacheCoherent (refundPlayers ps a w).
Proof.
  induction ps as [|p ps IH]; intros w Hc; [exact Hc|].
  unfold refundPlayers in *. simpl. apply IH, addCredits_coherent, Hc.
Qed.

(** X17. The balance cache is written through: if every cached balance
    agrees with [users.credits], it still does after [getUserCredits],
    [addCredits], [deductCredits] and a refund loop, and [getUserCredits]
    answers the balance of the table (0 for a user without a row). *)
Theorem ledger_keeps_cache_coherent (mts : MerchantTagService) (u : UserId) (a : Z)
    (ps : list Player) (w : World) :
  cacheCoherent w ->
  fst (getUserCredits u w) = balanceOf w u
  /\ cacheCoherent (snd (getUserCredits u w))
  /\ cacheCoherent (snd (addCredits u a w))
  /\ cacheCoherent (snd (deductCredits mts u a w))
  /\ cacheCoherent (refundPlayers ps a w).
Proof.
  intros Hc. destruct (getUserCredits_coherent u w Hc) as (H1 & H2 & _).
  split; [exact H1|]. split; [exact H2|].
  split; [apply addCredits_coherent, Hc|].
  split; [apply deductCredits_coherent, Hc | apply refundPlayers_coherent, Hc].
Qed.

Lemma sampleWorld_coherent : cacheCoherent (sampleWorld 90 ∅).
Proof. intros u v E. simpl in E. rewrite lookup_empty in E. discriminate. Qed.

Lemma ledger_keeps_cache_coherent_witness :
  fst (getUserCredits 1 (sampleWorld 90 ∅)) = balanceOf (sampleWorld 90 ∅) 1
  /\ cacheCoherent (snd (deductCredits noTags 1 10 (sampleWorld 90 ∅))).
Proof.
  destruct (ledger_keeps_cache_coherent noTags 1 10 [] (sampleWorld 90 ∅)
              sampleWorld_coherent) as (H1 & _ & _ & H4 & _).
  split; [exact H1 | exact H4].
Defined.

(** X18. With a coherent cache and no tagged credits, a deduction of a
    positive amount succeeds exactly when the balance covers it: then the
    balance goes down by the amount, and the new balance is reported; when
    it does not (or the user has no row) the deduction fails and no account
    changes. *)
Theorem deductCredits_succeeds_iff_covered (mts : MerchantTagService) (u : UserId)
    (a : Z) (w : World) :
  cacheCoherent w -> getTaggedBalance mts u <= 0 -> 0 < a ->
  (forall b, users w !! u = Some b -> a <= b ->
     fst (deductCredits mts u a w) = (true, b - a)
     /\ users (snd (deductCredits mts u a w)) = <[u := b - a]> (users w))
  /\ (balanceOf w u < a ->
      fst (fst (deductCredits mts u a w)) = false
      /\ users (snd (deductCredits mts u a w)) = users w).
Proof.
  intros Hc Htag Hpos.
  destruct (getUserCredits_coherent u w Hc) as (Hcur & _ & Hus).
  unfold deductCredits.
  destruct (0 <? getTaggedBalance mts u) eqn:Et; [apply Z.ltb_lt in Et; lia|].
  destruct (a <=? 0) eqn:Ea; [apply Z.leb_le in Ea; lia|].
  destruct (getUserCredits u w) as [current w1]. simpl in Hcur, Hus. subst current.
  split.
  - intros b Hb Hle. unfold balanceOf. rewrite Hb. simpl.
    assert (E1 : (b <? a) = false) by (apply Z.ltb_ge; lia). rewrite E1, Hus, Hb.
    assert (E2 : (a <=? b) = true) by (apply Z.leb_le; lia). rewrite E2. simpl.
    rewrite Hus. auto.
  - intros Hlt. apply Z.ltb_lt in Hlt. rewrite Hlt. simpl. auto.
Qed.

Lemma deductCredits_succeeds_iff_covered_witness :
  fst (deductCredits noTags 1 10 (sampleWorld 90 ∅)) = (true, 80)
  /\ fst (fst (deductCredits noTags 1 100 (sampleWorld 90 ∅))) = false.
Proof.
  split.
  - refine (proj1 (proj1 (deductCredits_succeeds_iff_covered noTags 1 10 (sampleWorld 90 ∅)
                            sampleWorld_coherent _ _) 90 _ _)).
    + simpl. lia.
    + lia.
    + reflexivity.
    + lia.
  - refine (proj1 (proj2 (deductCredits_succeeds_iff_covered noTags 1 100 (sampleWorld 90 ∅)
                            sampleWorld_coherent _ _) _)).
    + simpl. lia.
    + lia.
    + vm_compute. reflexivity.
Defined.

(** X19. Whatever the cache holds and whatever the merchant-tag service
    answers, [deductCredits] never drives an account into debt and never
    touches the account of another user; it takes nothing when it fails. *)
Theorem deductCredits_never_overdraws (mts : MerchantTagService) (u : UserId) (a : Z)
    (w : World) :
  (noDebt w -> noDebt (snd (deductCredits mts u a w)))
  /\ (forall v, v ≠ u -> users (snd (deductCredits mts u a w)) !! v = users w !! v)
  /\ (fst (fst (deductCredits mts u a w)) = false ->
      users (snd (deductCredits mts u a w)) = users w).
Proof.
  unfold deductCredits. pose proof (getUserCredits_users u w) as Hg.
  destruct (getUserCredits u w) as [current w1]. simpl in Hg.
  set (remaining := if 0 <? getTaggedBalance mts u
                    then match consumeForGame mts u a with
                         | Some (_, rem) => rem
                         | None => a
                         end
                    else a).
  assert (Hsame : (noDebt w -> noDebt w1)
                  /\ (forall v, v ≠ u -> users w1 !! v = users w !! v)
                  /\ (false = false -> users w1 = users w)).
  { split; [|split; [intros; rewrite Hg; reflexivity | intros; exact Hg]].
    intros Hnd v b. rewrite Hg. apply Hnd. }
  destruct (remaining <=? 0) eqn:Er.
  { destruct Hsame as (H1 & H2 & H3). simpl. split; [exact H1|].
    split; [exact H2 | intros; exact Hg]. }
  apply Z.leb_gt in Er.
  destruct (current <? remaining); [exact Hsame|].
  rewrite Hg. destruct (users w !! u) as [credits|] eqn:Eu; [|exact Hsame].
  destruct (remaining <=? credits) eqn:Ec; [|exact Hsame].
  apply Z.leb_le in Ec. simpl. rewrite Hg. split; [|split].
  - intros Hnd v b. unfold noDebt in Hnd. simpl. rewrite Hg.
    destruct (decide (v = u)) as [->|Hne].
    + rewrite lookup_insert_eq. intros E. inversion E. specialize (Hnd u credits Eu). lia.
    + rewrite lookup_insert_ne by congruence. apply Hnd.
  - intros v Hne. apply lookup_insert_ne. congruence.
  - discriminate.
Qed.

(** ** What a join costs *)

Lemma joinGame_locked_charged mts now R u name w :
  success (fst (joinGame_locked mts now R u name w)) = true ->
  exists g bal w1,
    getGame (redis w) R = Some g
    /\ deductCredits mts u (entryAmount g) w = ((true, bal), w1)
    /\ newBalance (fst (joinGame_locked mts now R u name w)) = Some bal
    /\ users (snd (joinGame_locked mts now R u name w)) = users w1.
Proof.
  unfold joinGame_locked.
  destruct (getGame (redis w) R) as [g|]; [|discriminate].
  destruct (negb (bool_decide (status g = waiting))); [discriminate|].
  destruct (match joinDeadline g with Some d0 => d0 <? now | None => false end);
    [discriminate|].
  destruct (alreadyJoined u g); [discriminate|].
  destruct (deductCredits mts u (entryAmount g) w) as [[ok bal] w1] eqn:Ed.
  destruct ok; [|discriminate]. simpl. intros _. exists g, bal, w1. auto.
Qed.

(** X20. A successful join costs exactly the entry, once: for a user
    without tagged credits joining a game with a positive entry, the balance
    covered the entry, it goes down by [entryAmount] and by nothing else, the
    new balance is reported, no other account changes and the pot of the
    stored snapshot goes up by the same amount. *)
Theorem joinGame_charges_the_entry_once (mts : MerchantTagService) (now : Z)
    (tokens : nat -> string) (R : string) (u : UserId) (name : string) (w : World)
    (g : Game) :
  getGame (redis w) R = Some g ->
  getTaggedBalance mts u <= 0 -> 0 < entryAmount g ->
  success (fst (joinGame mts now tokens R u name w)) = true ->
  exists b,
    users w !! u = Some b /\ entryAmount g <= b
    /\ users (snd (joinGame mts now tokens R u name w))
       = <[u := b - entryAmount g]> (users w)
    /\ newBalance (fst (joinGame mts now tokens R u name w)) = Some (b - entryAmount g)
    /\ exists g', getGame (redis (snd (joinGame mts now tokens R u name w))) R = Some g'
                  /\ pot g' = pot g + entryAmount g.
Proof.
  intros Hg Htag Hpos Hs.
  assert (Hslot : exists g', getGame (redis (snd (joinGame mts now tokens R u name w))) R
                             = Some g' /\ pot g' = pot g + entryAmount g).
  { destruct (joinGame_cases mts now tokens R u name w)
      as [(Hf & _)|(_ & g0 & Hg0 & _ & _ & E)]; [congruence|].
    assert (g0 = g) as -> by congruence.
    exists (addPlayer u name g). split; [apply getGame_Some, E | reflexivity]. }
  unfold joinGame in *.
  destruct (acquireLockWithRetry_cases (joinLockKeyOf R) tokens 4 (redis w))
    as [[Hfree E]|[Hheld E]]; rewrite E in *; [|discriminate Hs].
  set (w0 := set_redis (fun _ => <[joinLockKeyOf R := VStr (tokens 0%nat)]> (redis w)) w) in *.
  assert (Hg0 : getGame (redis w0) R = Some g).
  { simpl. rewrite getGame_insert_ne; [exact Hg|]. intros E'. symmetry in E'. revert E'.
    apply gameKey_ne_joinLock. }
  pose proof (joinGame_locked_charged mts now R u name w0) as Hch.
  destruct (joinGame_locked mts now R u name w0) as [reply w'] eqn:El. simpl in *.
  destruct (Hch Hs) as (g0 & bal & w1 & Hg0' & Hd & Hbal & Hus).
  assert (g0 = g) as -> by congruence.
  destruct (deductCredits_regular mts u (entryAmount g) w0 bal w1 Htag Hpos Hd)
    as (b & Hb & Hle & Hbal' & Hw1).
  exists b. simpl in Hb, Hw1. split; [exact Hb|]. split; [exact Hle|].
  split; [rewrite Hus; exact Hw1|]. split; [rewrite Hbal, Hbal'; reflexivity | exact Hslot].
Qed.

Lemma joinGame_charges_the_entry_once_witness :
  exists b,
    users (sampleWorld 90 {[ gameKeyOf "r1" := VGame (sampleGame waiting 10 [alice]) ]}) !! 2
    = Some b
    /\ users (snd (joinGame noTags 2000 (fun _ => "a1b2") "r1" 2 "bob"
                     (worldWith (sampleGame waiting 10 [alice]))))
       = <[2 := b - 10]> (users (worldWith (sampleGame waiting 10 [alice]))).
Proof.
  destruct (joinGame_charges_the_entry_once noTags 2000 (fun _ => "a1b2") "r1" 2 "bob"
              (worldWith (sampleGame waiting 10 [alice]))
              (sampleGame waiting 10 [alice])) as (b & Hb & _ & Hu & _).
  - reflexivity.
  - simpl. lia.
  - simpl. lia.
  - vm_compute. reflexivity.
  - exists b. split; [exact Hb | exact Hu].
Defined.

(** ** Mutual exclusion *)

(** X21. A lock excludes until its owner releases it: once [acquireLock]
    stored token [t], every further attempt fails, however many retries, and
    leaves the store as it is; a release with another token does nothing; after
    the owner's release the first attempt of the next party succeeds. *)
Theorem lock_excludes_until_released (k t : string) (r : Redis) :
  r !! k = None ->
  fst (acquireLock k t r) = Some t
  /\ (forall tokens n,
        acquireLockWithRetry k tokens n (snd (acquireLock k t r))
        = (None, snd (acquireLock k t r)))
  /\ (forall t', t' ≠ t ->
        releaseLock k t' (snd (acquireLock k t r)) = snd (acquireLock k t r))
  /\ (forall tokens n,
        fst (acquireLockWithRetry k tokens (S n)
               (releaseLock k t (snd (acquireLock k t r)))) = Some (tokens 0%nat)).
Proof.
  intros Hfree. rewrite acquireLock_free by exact Hfree. simpl.
  split; [reflexivity|]. split; [|split].
  - intros tokens n. apply acquireLockWithRetry_from_held.
    rewrite lookup_insert_eq. eauto.
  - intros t' Hne. apply releaseLock_foreign. rewrite lookup_insert_eq. congruence.
  - intros tokens n. rewrite release_after_acquire by exact Hfree.
    unfold acquireLockWithRetry. rewrite acquireLockWithRetry_from_free by exact Hfree.
    reflexivity.
Qed.

Lemma lock_excludes_until_released_witness :
  acquireLockWithRetry "lowcard:drawlock:r1" (fun _ => "ffff") 3
    (snd (acquireLock "lowcard:drawlock:r1" "a1b2" ∅))
  = (None, snd (acquireLock "lowcard:drawlock:r1" "a1b2" ∅)).
Proof.
  refine (proj1 (proj2 (lock_excludes_until_released "lowcard:drawlock:r1" "a1b2" ∅ _))
            (fun _ => "ffff") 3%nat).
  reflexivity.
Defined.

(** ** The bot of a room *)

Lemma botKey_ne_game R : botKeyOf R ≠ gameKeyOf R.
Proof. unfold botKeyOf, gameKeyOf. intros E. discriminate E. Qed.

Lemma botKey_ne_deck R : botKeyOf R ≠ deckKeyOf R.
Proof. unfold botKeyOf, deckKeyOf. intros E. discriminate E. Qed.

Lemma botKey_ne_credits R u : botKeyOf R ≠ creditsKeyOf u.
Proof. unfold botKeyOf, creditsKeyOf. intros E. discriminate E. Qed.

Lemma existsKey_true k (r : Redis) : existsKey k r = true <-> is_Some (r !! k).
Proof. unfold existsKey. apply bool_decide_eq_true. Qed.

Lemma existsKey_false k (r : Redis) : existsKey k r = false <-> r !! k = None.
Proof.
  unfold existsKey. rewrite bool_decide_eq_false. rewrite eq_None_not_Some. reflexivity.
Qed.

Lemma removeBotFromRoom_removed R sv :
  existsKey (botKeyOf R) (redis (world sv)) = true ->
  success (fst (removeBotFromRoom R sv)) = true
  /\ redis (world (snd (removeBotFromRoom R sv))) !! botKeyOf R = None
  /\ redis (world (snd (removeBotFromRoom R sv))) !! gameKeyOf R = None
  /\ redis (world (snd (removeBotFromRoom R sv))) !! deckKeyOf R = None
  /\ activeGameType (snd (removeBotFromRoom R sv)) !! R = None
  /\ users (world (snd (removeBotFromRoom R sv)))
     = users (match getGame (redis (world sv)) R with
              | Some game =>
                  if bool_decide (status game = waiting) then
                    refundPlayers (players game) (entryAmount game) (world sv)
                  else world sv
              | None => world sv
              end).
Proof.
  intros Hact. unfold removeBotFromRoom. cbv zeta. rewrite Hact. simpl negb. cbv iota.
  generalize (match getGame (redis (world sv)) R with
              | Some game =>
                  if bool_decide (status game = waiting) then
                    refundPlayers (players game) (entryAmount game) (world sv)
                  else world sv
              | None => world sv
              end).
  intros w1. simpl. unfold clearDeck.
  split; [reflexivity|]. split; [|split; [|split; [|split]]].
  - rewrite lookup_delete_ne by (intros E; symmetry in E; revert E; apply botKey_ne_deck).
    rewrite lookup_delete_ne by (intros E; symmetry in E; revert E; apply botKey_ne_game).
    apply lookup_delete_eq.
  - rewrite lookup_delete_ne by (intros E; symmetry in E; revert E; apply gameKey_ne_deck).
    apply lookup_delete_eq.
  - apply lookup_delete_eq.
  - apply lookup_delete_eq.
  - reflexivity.
Qed.

(** X22. One bot per room: [addBotToRoom] is refused, changing nothing,
    while a LowCard, Dice or Flag bot is in the room; otherwise the LowCard
    bot becomes active, the room's game type becomes lowcard and neither the
    game nor any account is touched.  Removing the bot right after adding it
    makes it inactive again, and a second add is refused. *)
Theorem addBotToRoom_one_bot_per_room (iso : string) (R : string) (sv : Service) :
  (is_Some (redis (world sv) !! botKeyOf R)
   \/ is_Some (redis (world sv) !! dicebotKeyOf R)
   \/ is_Some (redis (world sv) !! legendKeyOf R) ->
   success (fst (addBotToRoom iso R sv)) = false /\ snd (addBotToRoom iso R sv) = sv)
  /\ (redis (world sv) !! botKeyOf R = None ->
      redis (world sv) !! dicebotKeyOf R = None ->
      redis (world sv) !! legendKeyOf R = None ->
      let sv' := snd (addBotToRoom iso R sv) in
      success (fst (addBotToRoom iso R sv)) = true
      /\ isBotActive R (world sv') = true
      /\ activeGameType sv' !! R = Some LOWCARD
      /\ getGame (redis (world sv')) R = getGame (redis (world sv)) R
      /\ users (world sv') = users (world sv)
      /\ success (fst (addBotToRoom iso R sv')) = false
      /\ isBotActive R (world (snd (removeBotFromRoom R sv'))) = false
      /\ activeGameType (snd (removeBotFromRoom R sv')) !! R = None).
Proof.
  split.
  - intros Hany. unfold addBotToRoom. cbv zeta.
    destruct (existsKey (botKeyOf R) (redis (world sv))) eqn:E1; [auto|].
    destruct (existsKey (dicebotKeyOf R) (redis (world sv))) eqn:E2; [auto|].
    destruct (existsKey (legendKeyOf R) (redis (world sv))) eqn:E3; [auto|].
    apply existsKey_false in E1, E2, E3.
    destruct Hany as [[v H]|[[v H]|[v H]]]; congruence.
  - intros H1 H2 H3. cbv zeta.
    assert (Hadd : addBotToRoom iso R sv
                   = (accept ("[PVT] Bot is running. Min: " +:+ pretty MIN_ENTRY +:+ " COINS")
                        None None None,
                      {| world := set_redis <[botKeyOf R := VStr (botRecord iso)]> (world sv);
                         activeGameType := <[R := LOWCARD]> (activeGameType sv) |})).
    { unfold addBotToRoom. cbv zeta.
      rewrite (proj2 (existsKey_false _ _) H1), (proj2 (existsKey_false _ _) H2),
        (proj2 (existsKey_false _ _) H3). reflexivity. }
    rewrite Hadd. simpl fst. simpl snd.
    assert (Hact : existsKey (botKeyOf R)
                     (redis (set_redis <[botKeyOf R := VStr (botRecord iso)]> (world sv))) = true).
    { apply existsKey_true. simpl. rewrite lookup_insert_eq. eauto. }
    split; [reflexivity|]. split; [exact Hact|].
    split; [apply lookup_insert_eq|].
    split; [simpl; apply getGame_insert_ne, botKey_ne_game|].
    split; [reflexivity|]. split.
    + unfold addBotToRoom. cbv zeta. simpl world. rewrite Hact. reflexivity.
    + match goal with
      | |- context [removeBotFromRoom R ?s] =>
          destruct (removeBotFromRoom_removed R s Hact) as (_ & Hb & _ & _ & Ht & _)
      end.
      split; [|exact Ht]. unfold isBotActive. apply existsKey_false. exact Hb.
Qed.

Lemma addBotToRoom_one_bot_per_room_witness :
  isBotActive "r1"
    (world (snd (addBotToRoom "2026-01-01T00:00:00.000Z" "r1"
                   {| world := sampleWorld 90 ∅; activeGameType := ∅ |}))) = true.
Proof.
  refine (proj1 (proj2 (proj2 (addBotToRoom_one_bot_per_room "2026-01-01T00:00:00.000Z" "r1"
            {| world := sampleWorld 90 ∅; activeGameType := ∅ |}) _ _ _)));
    reflexivity.
Defined.

(** X23. What removing the bot does to the game of the room.  Without a bot
    the removal is refused and changes nothing.  With a bot, the snapshot, the
    deck and the bot record are gone afterwards and the room has no game type;
    a waiting game pays every participant the entry back, but a game that is
    not waiting (playing included) is deleted without any account being
    changed, so the pot of a running game is paid to nobody. *)
Theorem removeBotFromRoom_refunds_only_waiting (R : string) (sv : Service) :
  (redis (world sv) !! botKeyOf R = None ->
   success (fst (removeBotFromRoom R sv)) = false /\ snd (removeBotFromRoom R sv) = sv)
  /\ (is_Some (redis (world sv) !! botKeyOf R) ->
      let sv' := snd (removeBotFromRoom R sv) in
      success (fst (removeBotFromRoom R sv)) = true
      /\ isBotActive R (world sv') = false
      /\ getActiveGame R (world sv') = None
      /\ getDeck (redis (world sv')) R = None
      /\ activeGameType sv' !! R = None
      /\ forall g, getActiveGame R (world sv) = Some g ->
           (status g = waiting -> NoDup (map userId (players g)) ->
            forall p, p ∈ players g -> creditedBack (world sv) (world sv') g p)
           /\ (status g ≠ waiting -> users (world sv') = users (world sv))).
Proof.
  split.
  - intros Hno. unfold removeBotFromRoom. cbv zeta.
    rewrite (proj2 (existsKey_false _ _) Hno). auto.
  - intros Hbot. cbv zeta. apply existsKey_true in Hbot.
    destruct (removeBotFromRoom_removed R sv Hbot) as (Hs & Hb & Hg & Hd & Ht & Hu).
    split; [exact Hs|]. split; [apply existsKey_false; exact Hb|].
    split; [unfold getActiveGame, getGame; rewrite Hg; reflexivity|].
    split; [unfold getDeck; rewrite Hd; reflexivity|].
    split; [exact Ht|].
    intros g Hgame. unfold getActiveGame in Hgame. rewrite Hgame in Hu. split.
    + intros Hw Hnd p Hin b Hbal.
      rewrite bool_decide_eq_true_2 in Hu by exact Hw. rewrite Hu.
      apply (refundPlayers_creditedBack (world sv) (players g) g p Hnd Hin b Hbal).
    + intros Hw. rewrite bool_decide_eq_false_2 in Hu by exact Hw. exact Hu.
Qed.

Lemma removeBotFromRoom_refunds_only_waiting_witness :
  users (world (snd (removeBotFromRoom "r1"
           {| world := sampleWorld 90 {[ botKeyOf "r1" := VStr (botRecord "2026");
                                         gameKeyOf "r1" := VGame plainTable ]};
              activeGameType := {[ "r1" := LOWCARD ]} |})))
  = users (sampleWorld 90 ∅).
Proof.
  refine (proj2 (proj2 (proj2 (proj2 (proj2 (proj2 (proj2
            (removeBotFromRoom_refunds_only_waiting "r1"
               {| world := sampleWorld 90 {[ botKeyOf "r1" := VStr (botRecord "2026");
                                             gameKeyOf "r1" := VGame plainTable ]};
                  activeGameType := {[ "r1" := LOWCARD ]} |}) _))))) plainTable _) _).
  - vm_compute. eauto.
  - vm_compute. reflexivity.
  - discriminate.
Defined.

(** ** Levels *)

Lemma getXpThreshold_low l : l <= 0 -> getXpThreshold l = 0.
Proof. intros H. unfold getXpThreshold. destruct (Z.leb_spec l 0); [reflexivity | lia]. Qed.

Lemma getXpThreshold_beyond l :
  30 < l -> getXpThreshold l = 160000 + (l - 30) * 4000 + (l - 30) * (l - 30) * 500.
Proof.
  intros H. unfold getXpThreshold. change (Z.of_nat (length LEVEL_THRESHOLDS)) with 30.
  destruct (Z.leb_spec l 0); [lia|]. destruct (Z.leb_spec l 30); [lia|]. reflexivity.
Qed.

Lemma getXpThreshold_table_step :
  forallb (fun l => getXpThreshold l + 10 <=? getXpThreshold (l + 1))
    (map Z.of_nat (seq 1 30)) = true.
Proof. vm_compute. reflexivity. Qed.

(** From level 1 on every level asks for at least ten points more than the
    one before. *)
Lemma getXpThreshold_step l : 1 <= l -> getXpThreshold l + 10 <= getXpThreshold (l + 1).
Proof.
  intros H. destruct (Z_le_gt_dec l 30) as [Hs|Hb].
  - pose proof getXpThreshold_table_step as Ht.
    rewrite forallb_forall in Ht. apply Z.leb_le. apply Ht.
    apply in_map_iff. exists (Z.to_nat l). split; [lia|].
    apply in_seq. lia.
  - rewrite !getXpThreshold_beyond by lia. nia.
Qed.

Lemma getXpThreshold_step_weak l : getXpThreshold l <= getXpThreshold (l + 1).
Proof.
  destruct (Z_le_gt_dec 1 l) as [H|H].
  - pose proof (getXpThreshold_step l H). lia.
  - rewrite (getXpThreshold_low l) by lia.
    destruct (Z.eq_dec l 0) as [->|Hne]; [vm_compute; discriminate|].
    rewrite getXpThreshold_low by lia. lia.
Qed.

Lemma getXpThreshold_mono_nat a n : getXpThreshold a <= getXpThreshold (a + Z.of_nat n).
Proof.
  induction n as [|n IH]; [rewrite Z.add_0_r; lia|].
  replace (a + Z.of_nat (S n)) with (a + Z.of_nat n + 1) by lia.
  pose proof (getXpThreshold_step_weak (a + Z.of_nat n)). lia.
Qed.

Lemma getXpThreshold_mono a b : a <= b -> getXpThreshold a <= getXpThreshold b.
Proof.
  intros H. replace b with (a + Z.of_nat (Z.to_nat (b - a))) by lia.
  apply getXpThreshold_mono_nat.
Qed.

Lemma getXpThreshold_grows_nat n : Z.of_nat n <= getXpThreshold (1 + Z.of_nat n).
Proof.
  induction n as [|n IH]; [vm_compute; discriminate|].
  replace (1 + Z.of_nat (S n)) with (1 + Z.of_nat n + 1) by lia.
  pose proof (getXpThreshold_step (1 + Z.of_nat n)). lia.
Qed.

Lemma calculateLevel_loop_spec fuel xp : forall level,
  1 <= level ->
  xp < getXpThreshold (level + 1 + Z.of_nat fuel) ->
  level <= calculateLevel_loop fuel xp level
  /\ (getXpThreshold level <= xp ->
      getXpThreshold (calculateLevel_loop fuel xp level) <= xp)
  /\ (calculateLevel_loop fuel xp level = level
      \/ getXpThreshold (calculateLevel_loop fuel xp level) <= xp)
  /\ xp < getXpThreshold (calculateLevel_loop fuel xp level + 1).
Proof.
  induction fuel as [|n IH]; intros level Hl Hfuel.
  - simpl. rewrite Z.add_0_r in Hfuel. repeat split; auto; lia.
  - simpl. destruct (Z.leb_spec (getXpThreshold (level + 1)) xp) as [Hle|Hgt].
    + destruct (IH (level + 1)) as (H1 & H2 & H3 & H4); [lia| |].
      { replace (level + 1 + 1 + Z.of_nat n) with (level + 1 + Z.of_nat (S n)) by lia.
        exact Hfuel. }
      split; [lia|]. split; [auto|]. split; [right; auto|exact H4].
    + repeat split; auto; lia.
Qed.

Lemma calculateLevel_fuel xp : xp < getXpThreshold (1 + 1 + Z.of_nat (Z.to_nat xp)).
Proof.
  pose proof (getXpThreshold_grows_nat (S (Z.to_nat xp))) as H.
  replace (1 + Z.of_nat (S (Z.to_nat xp))) with (1 + 1 + Z.of_nat (Z.to_nat xp)) in H by lia.
  lia.
Qed.

Lemma calculateLevel_bounds xp :
  1 <= calculateLevel xp
  /\ (calculateLevel xp = 1 \/ getXpThreshold (calculateLevel xp) <= xp)
  /\ xp < getXpThreshold (calculateLevel xp + 1).
Proof.
  destruct (calculateLevel_loop_spec (Z.to_nat xp) xp 1) as (H1 & _ & H3 & H4);
    [lia | apply calculateLevel_fuel |].
  unfold calculateLevel. auto.
Qed.

Lemma calculateLevel_unique xp L :
  1 <= L -> (L = 1 \/ getXpThreshold L <= xp) -> xp < getXpThreshold (L + 1) ->
  calculateLevel xp = L.
Proof.
  intros HL Hlo Hhi. destruct (calculateLevel_bounds xp) as (H1 & H2 & H3).
  destruct (Z.lt_trichotomy (calculateLevel xp) L) as [Hlt|[Heq|Hgt]]; [|exact Heq|].
  - exfalso. destruct Hlo as [->|Hlo]; [lia|].
    pose proof (getXpThreshold_mono (calculateLevel xp + 1) L). lia.
  - exfalso. destruct H2 as [H2|H2]; [lia|].
    pose proof (getXpThreshold_mono (L + 1) (calculateLevel xp)). lia.
Qed.

Lemma calculateLevel_le xp1 xp2 :
  xp1 <= xp2 -> calculateLevel xp1 <= calculateLevel xp2.
Proof.
  intros Hle.
  destruct (calculateLevel_bounds xp1) as (Ha1 & Ha2 & Ha3).
  destruct (calculateLevel_bounds xp2) as (Hb1 & Hb2 & Hb3).
  destruct Ha2 as [->|Ha2]; [lia|].
  destruct (Z_le_gt_dec (calculateLevel xp1) (calculateLevel xp2)) as [|Hgt]; [assumption|].
  pose proof (getXpThreshold_mono (calculateLevel xp2 + 1) (calculateLevel xp1)). lia.
Qed.

(** X24. [calculateLevel] returns the one level whose bracket holds the
    points: it is [L] exactly when [L] is at least 1, the threshold of [L] is
    reached (or [L] is 1, which also takes points below zero) and the
    threshold of [L + 1] is not.  In particular the loop always ends. *)
Theorem calculateLevel_is_the_bracket (xp L : Z) :
  calculateLevel xp = L <->
  1 <= L /\ (L = 1 \/ getXpThreshold L <= xp) /\ xp < getXpForNextLevel L.
Proof.
  unfold getXpForNextLevel. split.
  - intros <-. apply calculateLevel_bounds.
  - intros (H1 & H2 & H3). apply calculateLevel_unique; assumption.
Qed.

(** X25. More points never give a lower level, and the level reaches [L]
    as soon as the points reach the threshold of [L]. *)
Theorem calculateLevel_monotone (xp1 xp2 : Z) :
  xp1 <= xp2 ->
  calculateLevel xp1 <= calculateLevel xp2
  /\ forall L, getXpThreshold L <= xp1 -> L <= calculateLevel xp2.
Proof.
  intros Hle.
  destruct (calculateLevel_bounds xp1) as (Ha1 & Ha2 & Ha3).
  destruct (calculateLevel_bounds xp2) as (Hb1 & Hb2 & Hb3).
  assert (Hreach : forall L, getXpThreshold L <= xp1 -> L <= calculateLevel xp2).
  { intros L HL. destruct (Z_le_gt_dec L (calculateLevel xp2)) as [|Hgt]; [assumption|].
    pose proof (getXpThreshold_mono (calculateLevel xp2 + 1) L). lia. }
  split; [|exact Hreach].
  destruct Ha2 as [->|Ha2]; [lia|]. apply Hreach. exact Ha2.
Qed.

Lemma calculateLevel_monotone_witness : calculateLevel 99 <= calculateLevel 100.
Proof. refine (proj1 (calculateLevel_monotone 99 100 _)). lia. Defined.

(** X26. [addXp] adds the amount to the stored points and leaves the
    stored level at the larger of the old level and the level of the new
    points, so a stored level never goes down; [leveledUp] tells whether it
    went up; rows of other users are untouched.  A level that was in step with
    the points stays in step when the amount is not negative. *)
Theorem addXp_level_never_goes_down (u : UserId) (amount : Z) (t : UserLevels) :
  let old := default {| row_xp := 0; row_level := 1 |} (t !! u) in
  let res := fst (addXp u amount t) in
  let t' := snd (addXp u amount t) in
  t' !! u = Some {| row_xp := row_xp old + amount;
                    row_level := Z.max (row_level old)
                                   (calculateLevel (row_xp old + amount)) |}
  /\ res_xp res = row_xp old + amount
  /\ res_level res = calculateLevel (row_xp old + amount)
  /\ (leveledUp res = true <-> row_level old < calculateLevel (row_xp old + amount))
  /\ (forall v, v ≠ u -> t' !! v = t !! v)
  /\ (0 <= amount -> levelInStep t u -> levelInStep t' u).
Proof.
  cbv zeta.
  assert (Hrow : match t !! u with
                 | Some old => {| row_xp := row_xp old + amount; row_level := row_level old |}
                 | None => {| row_xp := amount; row_level := 1 |}
                 end
                 = {| row_xp := row_xp (default {| row_xp := 0; row_level := 1 |} (t !! u))
                                + amount;
                      row_level := row_level
                                     (default {| row_xp := 0; row_level := 1 |} (t !! u)) |}).
  { destruct (t !! u); reflexivity. }
  assert (Hstep : 0 <= amount -> levelInStep t u ->
                  row_level (default {| row_xp := 0; row_level := 1 |} (t !! u))
                  <= calculateLevel
                       (row_xp (default {| row_xp := 0; row_level := 1 |} (t !! u)) + amount)).
  { intros Ha Hin. destruct (t !! u) as [row|] eqn:E; simpl.
    - rewrite (Hin row E). apply calculateLevel_le. lia.
    - apply calculateLevel_bounds. }
  unfold addXp. cbv zeta. rewrite Hrow. simpl row_xp. simpl row_level.
  generalize dependent (default {| row_xp := 0; row_level := 1 |} (t !! u)).
  intros old Hrow Hstep.
  destruct (Z.ltb_spec (row_level old) (calculateLevel (row_xp old + amount))) as [Hlt|Hge].
  - cbv beta iota delta [fst snd res_xp res_level leveledUp]. rewrite lookup_insert_eq.
    split; [f_equal; f_equal; lia|]. split; [reflexivity|]. split; [reflexivity|].
    split; [tauto|]. split.
    { intros v Hv. rewrite !lookup_insert_ne by congruence. reflexivity. }
    intros Ha Hin row Hr. rewrite lookup_insert_eq in Hr. inversion Hr. reflexivity.
  - cbv beta iota delta [fst snd res_xp res_level leveledUp]. rewrite lookup_insert_eq.
    split; [f_equal; f_equal; lia|]. split; [reflexivity|]. split; [reflexivity|].
    split; [split; [discriminate | lia]|]. split.
    { intros v Hv. rewrite !lookup_insert_ne by congruence. reflexivity. }
    intros Ha Hin. specialize (Hstep Ha Hin).
    intros row Hr. rewrite lookup_insert_eq in Hr. inversion Hr. simpl. lia.
Qed.

Lemma addXp_level_never_goes_down_witness :
  levelInStep (snd (addXp 1 5 {[ 1 := {| row_xp := 8; row_level := 1 |} ]})) 1.
Proof.
  refine (proj2 (proj2 (proj2 (proj2 (proj2
            (addXp_level_never_goes_down 1 5 {[ 1 := {| row_xp := 8; row_level := 1 |} ]})))))
            _ _).
  - lia.
  - intros row Hr. rewrite lookup_singleton_eq in Hr. inversion Hr. reflexivity.
Defined.

(** ** The command queue *)

Lemma ofRoom_app R l1 l2 : ofRoom R (l1 ++ l2) = (ofRoom R l1 ++ ofRoom R l2)%list.
Proof. apply List.filter_app. Qed.

Lemma ofRoom_one R x : roomOf x = R -> ofRoom R [x] = [x].
Proof. intros H. unfold ofRoom. simpl. rewrite bool_decide_eq_true_2 by exact H. reflexivity. Qed.

Lemma ofRoom_other R x : roomOf x ≠ R -> ofRoom R [x] = [].
Proof. intros H. unfold ofRoom. simpl. rewrite bool_decide_eq_false_2 by exact H. reflexivity. Qed.

Lemma ofRoom_elem R x l : x ∈ ofRoom R l -> roomOf x = R.
Proof.
  intros H. apply list_elem_of_In in H. apply List.filter_In in H as [_ H].
  apply bool_decide_eq_true in H. exact H.
Qed.

Lemma pendingOf_other st R l R' q :
  (forall R1 R2 l', roomQueues st !! R1 = Some l' -> roomQueues st !! R2 = Some l' -> R1 = R2) ->
  roomQueues st !! R = Some l -> R' ≠ R ->
  pendingOf (set_objects <[l := q]> st) R' = pendingOf st R'.
Proof.
  intros Hinj Hl Hne. unfold pendingOf. simpl.
  destruct (roomQueues st !! R') as [l'|] eqn:E; [|reflexivity].
  rewrite list_lookup_insert_ne; [reflexivity|].
  intros ->. apply Hne. eapply Hinj; eauto.
Qed.

Lemma whileLoop_restores R l arr st :
  QInvBut R l arr st -> QInv arr (whileLoop R l st).
Proof.
  intros [Hhere (q & Hq & Hp) Hfree Hlive Hsusp Hnd Hinj Hfifo].
  assert (Hlt : (l < length (objects st))%nat) by (eapply lookup_lt_Some; eauto).
  assert (Hother : forall R' l', R' ≠ R -> roomQueues st !! R' = Some l' -> l' ≠ l).
  { intros R' l' Hne Hl' ->. apply Hne. eapply Hinj; eauto. }
  unfold whileLoop. rewrite Hq. destruct (items q) as [|x rest] eqn:Hit.
  - split; cbn [roomQueues objects suspended handed].
    + intros R' l' Hl'. apply lookup_delete_Some in Hl' as [Hne Hl'].
      destruct (Hlive R' l') as (q' & x & Hq' & Hp' & Hin); [congruence|exact Hl'|].
      exists q', x. rewrite list_lookup_insert_ne by (symmetry; eapply Hother; eauto; congruence).
      auto.
    + intros R' l' x Hin. rewrite lookup_delete_ne; [eapply Hsusp; eauto|].
      intros <-. apply Hfree. apply list_elem_of_fmap. exists (R, l', x). auto.
    + exact Hnd.
    + intros R1 R2 l' H1 H2. apply lookup_delete_Some in H1 as [_ H1].
      apply lookup_delete_Some in H2 as [_ H2]. eapply Hinj; eauto.
    + intros R'. rewrite <- Hfifo. f_equal. unfold pendingOf; cbn [roomQueues objects suspended handed].
      destruct (decide (R' = R)) as [->|Hne].
      * rewrite lookup_delete_eq, Hhere, Hq, Hit. reflexivity.
      * rewrite lookup_delete_ne by congruence.
        destruct (roomQueues st !! R') as [l'|] eqn:E; [|reflexivity].
        rewrite list_lookup_insert_ne by (symmetry; eapply Hother; eauto). reflexivity.
  - assert (Hx : roomOf x = R).
    { apply (ofRoom_elem R x arr). rewrite <- Hfifo. apply elem_of_app. right.
      unfold pendingOf. rewrite Hhere, Hq, Hit. apply list_elem_of_here. }
    split; cbn [roomQueues objects suspended handed].
    + intros R' l' Hl'. destruct (decide (R' = R)) as [->|Hne].
      * assert (l' = l) as -> by congruence.
        exists {| items := rest; processing := processing q |}, x.
        rewrite list_lookup_insert_eq by exact Hlt. split; [reflexivity|]. split; [exact Hp|].
        apply elem_of_app. right. apply list_elem_of_here.
      * destruct (Hlive R' l' Hne Hl') as (q' & y & Hq' & Hp' & Hin).
        exists q', y. rewrite list_lookup_insert_ne by (symmetry; eapply Hother; eauto).
        split; [exact Hq'|]. split; [exact Hp'|]. apply elem_of_app. left. exact Hin.
    + intros R' l' y Hin. apply elem_of_app in Hin as [Hin|Hin]; [eapply Hsusp; eauto|].
      apply list_elem_of_singleton in Hin. inversion Hin; subst. exact Hhere.
    + rewrite map_app. apply NoDup_app. split; [exact Hnd|]. split.
      * intros y Hy Hy'. simpl in Hy'. apply list_elem_of_singleton in Hy'. subst y.
        apply Hfree. exact Hy.
      * simpl. apply NoDup_singleton.
    + exact Hinj.
    + intros R'. rewrite ofRoom_app. rewrite <- Hfifo. unfold pendingOf; cbn [roomQueues objects suspended handed].
      destruct (decide (R' = R)) as [->|Hne].
      * rewrite Hhere, Hq, Hit. rewrite list_lookup_insert_eq by exact Hlt. cbn [items].
        rewrite (ofRoom_one R x Hx). rewrite <- app_assoc. reflexivity.
      * rewrite ofRoom_other by congruence. rewrite app_nil_r. f_equal.
        destruct (roomQueues st !! R') as [l'|] eqn:E; [|reflexivity].
        rewrite list_lookup_insert_ne by (symmetry; eapply Hother; eauto). reflexivity.
Qed.

Lemma QInv_init : QInv [] initSubscriber.
Proof.
  split; simpl.
  - intros R l H. rewrite lookup_empty in H. discriminate.
  - intros R l x H. apply elem_of_nil in H. destruct H.
  - apply NoDup_nil_2.
  - intros R1 R2 l H. rewrite lookup_empty in H. discriminate.
  - reflexivity.
Qed.

Lemma insert_last_object (objs : list Queue) (q q' : Queue) :
  <[length objs := q']> (objs ++ [q])%list = (objs ++ [q'])%list.
Proof. rewrite insert_app_r_alt by lia. rewrite Nat.sub_diag. reflexivity. Qed.

Lemma lookup_last_object (objs : list Queue) (q : Queue) :
  (objs ++ [q])%list !! length objs = Some q.
Proof. apply list_lookup_middle. reflexivity. Qed.

(** A command for a room without a queue object: a new object is created
    and the loop is entered at once. *)
Lemma enqueueCommand_idle data st :
  roomQueues st !! roomOf data = None ->
  enqueueCommand data st
  = whileLoop (roomOf data) (length (objects st))
      {| roomQueues := <[roomOf data := length (objects st)]> (roomQueues st);
         objects := (objects st ++ [{| items := [data]; processing := true |}])%list;
         suspended := suspended st;
         handed := handed st |}.
Proof.
  intros Hroom. unfold enqueueCommand. cbv zeta. rewrite Hroom.
  cbn [roomQueues objects]. rewrite lookup_insert_eq, lookup_last_object.
  unfold processRoomQueue, set_objects. cbn [roomQueues objects suspended handed items processing].
  rewrite lookup_insert_eq, insert_last_object, lookup_last_object.
  cbn [items processing app orb]. rewrite bool_decide_eq_false_2 by discriminate.
  rewrite insert_last_object. reflexivity.
Qed.

(** A command for a room whose queue is being processed is only appended. *)
Lemma enqueueCommand_busy data st l q :
  roomQueues st !! roomOf data = Some l -> objects st !! l = Some q ->
  processing q = true ->
  enqueueCommand data st
  = set_objects <[l := {| items := (items q ++ [data])%list; processing := true |}]> st.
Proof.
  intros Hroom Hq Hp. unfold enqueueCommand. cbv zeta. rewrite Hroom, Hroom, Hq, Hp.
  unfold processRoomQueue, set_objects. cbn [roomQueues objects suspended handed].
  rewrite Hroom. rewrite list_lookup_insert_eq by (eapply lookup_lt_Some; eauto).
  reflexivity.
Qed.

Lemma enqueueCommand_inv data arr st :
  QInv arr st -> QInv (arr ++ [data]) (enqueueCommand data st).
Proof.
  intros [Hlive Hsusp Hnd Hinj Hfifo].
  destruct (roomQueues st !! roomOf data) as [l|] eqn:Hroom.
  - destruct (Hlive _ _ Hroom) as (q & x & Hq & Hp & Hin).
    rewrite (enqueueCommand_busy data st l q Hroom Hq Hp).
    assert (Hlt : (l < length (objects st))%nat) by (eapply lookup_lt_Some; eauto).
    split; cbn [set_objects roomQueues objects suspended handed].
    + intros R' l' Hl'. destruct (decide (l' = l)) as [->|Hne].
      * assert (R' = roomOf data) as -> by (eapply Hinj; eauto).
        eexists _, x. rewrite list_lookup_insert_eq by exact Hlt.
        split; [reflexivity|]. split; [reflexivity | exact Hin].
      * destruct (Hlive R' l' Hl') as (q' & y & Hq' & Hp' & Hin').
        exists q', y. rewrite list_lookup_insert_ne by congruence. auto.
    + exact Hsusp.
    + exact Hnd.
    + exact Hinj.
    + intros R'. rewrite ofRoom_app, <- Hfifo. unfold pendingOf.
      cbn [set_objects roomQueues objects suspended handed].
      destruct (decide (R' = roomOf data)) as [->|Hne].
      * rewrite Hroom, Hq, list_lookup_insert_eq by exact Hlt. cbn [items].
        rewrite ofRoom_one by reflexivity. rewrite app_assoc. reflexivity.
      * rewrite ofRoom_other by congruence. rewrite app_nil_r. f_equal.
        destruct (roomQueues st !! R') as [l'|] eqn:E; [|reflexivity].
        rewrite list_lookup_insert_ne; [reflexivity|].
        intros ->. apply Hne. eapply Hinj; eauto.
  - rewrite (enqueueCommand_idle data st Hroom).
    apply whileLoop_restores.
    assert (Hold : forall R' l', roomQueues st !! R' = Some l' ->
                   R' ≠ roomOf data /\ (l' < length (objects st))%nat).
    { intros R' l' Hl'. split; [congruence|].
      destruct (Hlive R' l' Hl') as (q' & y & Hq' & _). eapply lookup_lt_Some; eauto. }
    split; cbn [roomQueues objects suspended handed].
    + apply lookup_insert_eq.
    + eexists. rewrite lookup_last_object. split; reflexivity.
    + intros Hin. apply list_elem_of_fmap in Hin as ([[R' l'] y] & HR & Hin).
      unfold callRoom in HR. simpl in HR. subst R'.
      rewrite (Hsusp _ _ _ Hin) in Hroom. discriminate.
    + intros R' l' Hne Hl'. rewrite lookup_insert_ne in Hl' by congruence.
      destruct (Hlive R' l' Hl') as (q' & y & Hq' & Hp' & Hin').
      exists q', y. rewrite lookup_app_l by (eapply lookup_lt_Some; eauto). auto.
    + intros R' l' y Hin. pose proof (Hsusp _ _ _ Hin) as Hl'.
      rewrite lookup_insert_ne by (apply not_eq_sym, (Hold R' l' Hl')). exact Hl'.
    + exact Hnd.
    + intros R1 R2 l' H1 H2.
      destruct (decide (R1 = roomOf data)) as [->|Hn1];
        destruct (decide (R2 = roomOf data)) as [->|Hn2]; [reflexivity| | |].
      * rewrite lookup_insert_eq in H1. rewrite lookup_insert_ne in H2 by congruence.
        inversion H1; subst l'. destruct (Hold _ _ H2). lia.
      * rewrite lookup_insert_eq in H2. rewrite lookup_insert_ne in H1 by congruence.
        inversion H2; subst l'. destruct (Hold _ _ H1). lia.
      * rewrite lookup_insert_ne in H1, H2 by congruence. eapply Hinj; eauto.
    + intros R'. rewrite ofRoom_app, <- Hfifo. unfold pendingOf.
      cbn [roomQueues objects suspended handed].
      destruct (decide (R' = roomOf data)) as [->|Hne].
      * rewrite lookup_insert_eq, Hroom, lookup_last_object. cbn [items].
        rewrite ofRoom_one by reflexivity. rewrite app_nil_r. reflexivity.
      * rewrite lookup_insert_ne by congruence. rewrite ofRoom_other by congruence.
        rewrite app_nil_r. f_equal.
        destruct (roomQueues st !! R') as [l'|] eqn:E; [|reflexivity].
        rewrite lookup_app_l by (apply (Hold R' l' E)). reflexivity.
Qed.

Lemma handlerSettles_inv n arr st :
  QInv arr st -> QInv arr (handlerSettles n st).
Proof.
  intros Hinv. unfold handlerSettles.
  destruct (suspended st !! n) as [[[R l] x]|] eqn:Hn; [|exact Hinv].
  destruct Hinv as [Hlive Hsusp Hnd Hinj Hfifo].
  assert (Hin : (R, l, x) ∈ suspended st) by (eapply list_elem_of_lookup_2; eauto).
  pose proof (Hsusp _ _ _ Hin) as Hhere.
  assert (Hsplit : suspended st
                   = (take n (suspended st) ++ (R, l, x) :: drop (S n) (suspended st))%list).
  { symmetry. apply take_drop_middle. exact Hn. }
  assert (Hdel : delete n (suspended st)
                 = (take n (suspended st) ++ drop (S n) (suspended st))%list).
  { apply delete_take_drop. }
  assert (Hnd' : NoDup (map callRoom (take n (suspended st))
                        ++ R :: map callRoom (drop (S n) (suspended st)))).
  { rewrite Hsplit in Hnd. rewrite map_app in Hnd. exact Hnd. }
  apply NoDup_app in Hnd' as (Hnd1 & Hnd2 & Hnd3).
  apply NoDup_cons in Hnd3 as [Hnd3 Hnd4].
  assert (Hsub : forall k, k ∈ delete n (suspended st) -> k ∈ suspended st).
  { intros k Hk. rewrite Hdel in Hk. rewrite Hsplit.
    apply elem_of_app in Hk as [Hk|Hk]; apply elem_of_app; [left; exact Hk|].
    right. apply list_elem_of_further. exact Hk. }
  apply whileLoop_restores. split; cbn [roomQueues objects suspended handed].
  - exact Hhere.
  - destruct (Hlive _ _ Hhere) as (q & y & Hq & Hp & _). eauto.
  - rewrite Hdel, map_app. intros Hc. apply elem_of_app in Hc as [Hc|Hc].
    + apply (Hnd2 R Hc). apply list_elem_of_here.
    + exact (Hnd3 Hc).
  - intros R' l' Hne Hl'. destruct (Hlive R' l' Hl') as (q & y & Hq & Hp & Hy).
    exists q, y. split; [exact Hq|]. split; [exact Hp|].
    rewrite Hdel. rewrite Hsplit in Hy.
    apply elem_of_app in Hy as [Hy|Hy]; apply elem_of_app; [left; exact Hy|].
    right. apply elem_of_cons in Hy as [Hy|Hy]; [congruence | exact Hy].
  - intros R' l' y Hy. apply (Hsusp R' l' y), Hsub, Hy.
  - rewrite Hdel, map_app. apply NoDup_app. split; [exact Hnd1|]. split; [|exact Hnd4].
    intros y Hy Hy'. apply (Hnd2 y Hy). apply list_elem_of_further. exact Hy'.
  - exact Hinj.
  - exact Hfifo.
Qed.

Lemma arrived_snoc evs e :
  arrived (evs ++ [e])
  = (arrived evs ++ match e with Arrives data => [data] | Settles _ => [] end)%list.
Proof. unfold arrived. rewrite omap_app. destruct e; reflexivity. Qed.

Lemma subscriberRun_inv evs : QInv (arrived evs) (subscriberRun evs).
Proof.
  induction evs as [|e evs IH] using rev_ind; [apply QInv_init|].
  unfold subscriberRun in *. rewrite foldl_app. simpl. rewrite arrived_snoc.
  destruct e as [data|n]; simpl.
  - apply enqueueCommand_inv, IH.
  - rewrite app_nil_r. apply handlerSettles_inv, IH.
Qed.

(** X27. The subscriber hands the commands of a room to the handler in the
    order in which they arrived, one at a time, whatever the interleaving of
    arrivals and handler completions: what has been handed over for a room,
    followed by what waits in its queue, is what arrived for it; no two
    suspended calls serve the same room; a room has an entry in [roomQueues]
    exactly while a handler runs for it; and once no handler runs, every
    command that arrived has been handed over. *)
Theorem room_commands_run_in_order_one_at_a_time (evs : list Event) :
  let st := subscriberRun evs in
  (forall R, (ofRoom R (handed st) ++ pendingOf st R)%list = ofRoom R (arrived evs))
  /\ NoDup (map callRoom (suspended st))
  /\ (forall R, is_Some (roomQueues st !! R) <-> R ∈ map callRoom (suspended st))
  /\ (suspended st = [] ->
      roomQueues st = ∅ /\ forall R, ofRoom R (handed st) = ofRoom R (arrived evs)).
Proof.
  cbv zeta. destruct (subscriberRun_inv evs) as [Hlive Hsusp Hnd Hinj Hfifo].
  assert (Hiff : forall R, is_Some (roomQueues (subscriberRun evs) !! R)
                           <-> R ∈ map callRoom (suspended (subscriberRun evs))).
  { intros R. split.
    - intros [l Hl]. destruct (Hlive R l Hl) as (q & x & _ & _ & Hin).
      apply list_elem_of_fmap. exists (R, l, x). auto.
    - intros Hin. apply list_elem_of_fmap in Hin as ([[R' l] x] & HR & Hin).
      unfold callRoom in HR. simpl in HR. subst R'. rewrite (Hsusp _ _ _ Hin). eauto. }
  split; [exact Hfifo|]. split; [exact Hnd|]. split; [exact Hiff|].
  intros Hnone.
  assert (Hempty : forall R, roomQueues (subscriberRun evs) !! R = None).
  { intros R. apply eq_None_not_Some. rewrite Hiff, Hnone. simpl. apply not_elem_of_nil. }
  split; [apply map_empty; exact Hempty|].
  intros R. rewrite <- Hfifo. unfold pendingOf. rewrite Hempty, app_nil_r. reflexivity.
Qed.

(** ** Refunds after a restart *)

Lemma refundPlayer_users u a w :
  users (refundPlayer u a w) = users (snd (addCredits u a w)).
Proof. unfold refundPlayer, addCredits. destruct (users w !! u); reflexivity. Qed.

Lemma refundPlayer_redis u a w :
  redis (refundPlayer u a w) = delete (creditsKeyOf u) (redis w).
Proof. unfold refundPlayer. destruct (users w !! u); reflexivity. Qed.

Lemma restart_refund_users ps a : forall w w',
  users w = users w' ->
  users (foldl (fun acc p => refundPlayer (userId p) a acc) w ps)
  = users (refundPlayers ps a w').
Proof.
  induction ps as [|p ps IH]; intros w w' E; [exact E|].
  unfold refundPlayers in *. simpl. apply IH.
  rewrite refundPlayer_users. unfold addCredits. rewrite E.
  destruct (users w' !! userId p); simpl; [rewrite E|]; auto.
Qed.

Lemma restart_refund_shrinks ps a k : forall w,
  redis (foldl (fun acc p => refundPlayer (userId p) a acc) w ps) !! k = None
  \/ redis (foldl (fun acc p => refundPlayer (userId p) a acc) w ps) !! k = redis w !! k.
Proof.
  induction ps as [|p ps IH]; intros w; [right; reflexivity|].
  simpl. destruct (IH (refundPlayer (userId p) a w)) as [H|H]; [left; exact H|].
  rewrite H, refundPlayer_redis.
  destruct (decide (k = creditsKeyOf (userId p))) as [->|Hne].
  - left. apply lookup_delete_eq.
  - right. apply lookup_delete_ne. congruence.
Qed.

Lemma restart_refund_drops_cache ps a p : forall w,
  p ∈ ps ->
  redis (foldl (fun acc q => refundPlayer (userId q) a acc) w ps)
    !! creditsKeyOf (userId p) = None.
Proof.
  induction ps as [|q ps IH]; intros w Hin; [apply elem_of_nil in Hin; destruct Hin|].
  simpl. apply elem_of_cons in Hin as [->|Hin]; [|apply IH, Hin].
  destruct (restart_refund_shrinks ps a (creditsKeyOf (userId q))
              (refundPlayer (userId q) a w)) as [H|H]; [exact H|].
  rewrite H, refundPlayer_redis. apply lookup_delete_eq.
Qed.

Lemma refundPlayer_coherent u a w : cacheCoherent w -> cacheCoherent (refundPlayer u a w).
Proof.
  intros Hc v x. rewrite refundPlayer_redis. intros Hx.
  apply lookup_delete_Some in Hx as [Hne Hx].
  assert (Hv : v ≠ u) by congruence.
  rewrite (Hc v x Hx). f_equal. unfold balanceOf, refundPlayer.
  destruct (users w !! u); simpl; [|reflexivity].
  rewrite lookup_insert_ne by congruence. reflexivity.
Qed.

Lemma restart_refund_coherent ps a : forall w,
  cacheCoherent w -> cacheCoherent (foldl (fun acc p => refundPlayer (userId p) a acc) w ps).
Proof.
  induction ps as [|p ps IH]; intros w Hc; [exact Hc|].
  simpl. apply IH, refundPlayer_coherent, Hc.
Qed.

Lemma lastSegment_gameKey R : hasColon R = false -> lastSegment (gameKeyOf R) = R.
Proof.
  intros H. unfold gameKeyOf. simpl. change ("" +:+ R) with R. rewrite H. reflexivity.
Qed.

(** What the loop body leaves in the store is what was there, minus keys. *)
Lemma restartLowcardKey_shrinks key w k :
  redis (restartLowcardKey key w) !! k = None
  \/ redis (restartLowcardKey key w) !! k = redis w !! k.
Proof.
  unfold restartLowcardKey. cbv zeta. simpl.
  destruct (decide (k = deckKeyOf (lastSegment key))) as [->|Hn1];
    [left; apply lookup_delete_eq|].
  rewrite lookup_delete_ne by congruence.
  destruct (decide (k = key)) as [->|Hn2]; [left; apply lookup_delete_eq|].
  rewrite lookup_delete_ne by congruence.
  destruct (redis w !! key) as [[| |game| |]|]; auto.
  destruct (bool_decide (status game = waiting) || bool_decide (status game = playing)); auto.
  apply restart_refund_shrinks.
Qed.

Lemma restartLowcardKey_deletes key w : redis (restartLowcardKey key w) !! key = None.
Proof.
  unfold restartLowcardKey. cbv zeta. simpl.
  destruct (decide (key = deckKeyOf (lastSegment key))) as [E|Hn];
    [rewrite <- E; apply lookup_delete_eq|].
  rewrite lookup_delete_ne by congruence. apply lookup_delete_eq.
Qed.

Lemma restartLowcardKey_absent key w :
  redis w !! key = None -> users (restartLowcardKey key w) = users w.
Proof. intros H. unfold restartLowcardKey. rewrite H. reflexivity. Qed.

Lemma restartLowcardRefunds_gone ks k : forall w,
  k ∈ ks \/ redis w !! k = None -> redis (restartLowcardRefunds ks w) !! k = None.
Proof.
  induction ks as [|k0 ks IH]; intros w H.
  - destruct H as [H|H]; [apply elem_of_nil in H; destruct H | exact H].
  - unfold restartLowcardRefunds in *. simpl. apply IH.
    destruct H as [H|H].
    + apply elem_of_cons in H as [->|H]; [right; apply restartLowcardKey_deletes | left; exact H].
    + right. destruct (restartLowcardKey_shrinks k0 w k) as [E|E]; congruence.
Qed.

Lemma restartLowcardRefunds_shrinks ks k : forall w,
  redis (restartLowcardRefunds ks w) !! k = None
  \/ redis (restartLowcardRefunds ks w) !! k = redis w !! k.
Proof.
  induction ks as [|k0 ks IH]; intros w; [right; reflexivity|].
  unfold restartLowcardRefunds in *. simpl.
  destruct (IH (restartLowcardKey k0 w)) as [H|H]; [left; exact H|].
  rewrite H. apply restartLowcardKey_shrinks.
Qed.

Lemma restartLowcardRefunds_idle ks : forall w,
  (forall k, k ∈ ks -> redis w !! k = None) ->
  users (restartLowcardRefunds ks w) = users w.
Proof.
  induction ks as [|k0 ks IH]; intros w H; [reflexivity|].
  unfold restartLowcardRefunds in *. simpl. rewrite IH.
  - apply restartLowcardKey_absent, H, list_elem_of_here.
  - intros k Hk. destruct (restartLowcardKey_shrinks k0 w k) as [E|E]; [exact E|].
    rewrite E. apply H, list_elem_of_further, Hk.
Qed.

(** X28. A restart gives every stake of an interrupted game back: for the
    snapshot of a room (whose name has no colon) that is waiting or playing,
    the loop body credits every listed player, eliminated or not, with the
    entry amount, leaves the other accounts alone, deletes the snapshot and the
    deck, and drops the cached balances of the players, which keeps the cache
    in step with the table. *)
Theorem restart_refunds_every_stake (R : string) (g : Game) (w : World) :
  hasColon R = false ->
  getGame (redis w) R = Some g ->
  status g = waiting \/ status g = playing ->
  NoDup (map userId (players g)) ->
  let w' := restartLowcardKey (gameKeyOf R) w in
  (forall p, p ∈ players g -> creditedBack w w' g p)
  /\ (forall u, u ∉ map userId (players g) -> users w' !! u = users w !! u)
  /\ getGame (redis w') R = None
  /\ getDeck (redis w') R = None
  /\ (forall p, p ∈ players g -> redis w' !! creditsKeyOf (userId p) = None)
  /\ (cacheCoherent w -> cacheCoherent w').
Proof.
  intros Hcolon Hg Hst Hnd. cbv zeta.
  apply getGame_Some in Hg.
  assert (Hopen : bool_decide (status g = waiting) || bool_decide (status g = playing) = true).
  { destruct Hst as [-> | ->]; reflexivity. }
  assert (Hw : restartLowcardKey (gameKeyOf R) w
               = set_redis (fun r => delete (deckKeyOf R) (delete (gameKeyOf R) r))
                   (foldl (fun acc p => refundPlayer (userId p) (entryAmount g) acc) w
                      (players g))).
  { unfold restartLowcardKey. rewrite Hg, Hopen, (lastSegment_gameKey R Hcolon). reflexivity. }
  rewrite Hw. clear Hw.
  assert (Hu : users (set_redis (fun r => delete (deckKeyOf R) (delete (gameKeyOf R) r))
                        (foldl (fun acc p => refundPlayer (userId p) (entryAmount g) acc) w
                           (players g)))
               = users (refundPlayers (players g) (entryAmount g) w)).
  { simpl. apply restart_refund_users. reflexivity. }
  split; [|split; [|split; [|split; [|split]]]].
  - intros p Hin b Hb. rewrite Hu.
    apply (refundPlayers_creditedBack w (players g) g p Hnd Hin b Hb).
  - intros u Hn. rewrite Hu. apply refundPlayers_others, Hn.
  - unfold getGame. simpl.
    rewrite lookup_delete_ne by (apply not_eq_sym, gameKey_ne_deck).
    rewrite lookup_delete_eq. reflexivity.
  - unfold getDeck. simpl. rewrite lookup_delete_eq. reflexivity.
  - intros p Hin. simpl.
    rewrite lookup_delete_ne
      by (intros E; unfold creditsKeyOf, deckKeyOf in E; discriminate E).
    rewrite lookup_delete_ne
      by (intros E; unfold creditsKeyOf, gameKeyOf in E; discriminate E).
    apply restart_refund_drops_cache, Hin.
  - intros Hc u v Hv. simpl in Hv.
    apply lookup_delete_Some in Hv as [_ Hv]. apply lookup_delete_Some in Hv as [_ Hv].
    apply (restart_refund_coherent (players g) (entryAmount g) w Hc u v Hv).
Qed.

Lemma restart_refunds_every_stake_witness :
  users (restartLowcardKey (gameKeyOf "r1") (worldWith plainTable)) !! 1 = Some 100
  /\ getGame (redis (restartLowcardKey (gameKeyOf "r1") (worldWith plainTable))) "r1" = None.
Proof.
  destruct (restart_refunds_every_stake "r1" plainTable (worldWith plainTable))
    as (Hback & _ & Hgone & _).
  - reflexivity.
  - reflexivity.
  - right. reflexivity.
  - compute_done.
  - split; [|exact Hgone].
    exact (Hback (holding h 5 alice) (list_elem_of_here _ _) 90 eq_refl).
Defined.

(** X29. The restart scan leaves no game behind and refunds each game
    once: when the scanned keys include every stored key that matches
    [lowcard:game:*], no such key is stored afterwards; the scan only removes
    keys; and a second scan of game keys changes no account. *)
Theorem restart_scan_leaves_no_game (lowcardKeys : list string) (w : World) :
  scansAllGames lowcardKeys w ->
  let w' := restartLowcardRefunds lowcardKeys w in
  (forall key, isGameKey key = true -> redis w' !! key = None)
  /\ (forall k, redis w' !! k = None \/ redis w' !! k = redis w !! k)
  /\ (forall again, (forall key, key ∈ again -> isGameKey key = true) ->
       users (restartLowcardRefunds again w') = users w').
Proof.
  intros Hscan. cbv zeta.
  assert (Hgone : forall key, isGameKey key = true ->
                    redis (restartLowcardRefunds lowcardKeys w) !! key = None).
  { intros key Hk. apply restartLowcardRefunds_gone.
    destruct (redis w !! key) as [v|] eqn:E; [left; apply Hscan; eauto | right; reflexivity]. }
  split; [exact Hgone|]. split; [intros k; apply restartLowcardRefunds_shrinks|].
  intros again Hall. apply restartLowcardRefunds_idle.
  intros k Hk. apply Hgone, Hall, Hk.
Qed.

Lemma restart_scan_leaves_no_game_witness :
  redis (restartLowcardRefunds [gameKeyOf "r1"] (worldWith plainTable)) !! gameKeyOf "r1"
  = None.
Proof.
  refine (proj1 (restart_scan_leaves_no_game [gameKeyOf "r1"] (worldWith plainTable) _)
            (gameKeyOf "r1") _); [|reflexivity].
  intros key _ [v Hv]. unfold worldWith, sampleWorld in Hv. simpl in Hv.
  apply lookup_singleton_Some in Hv as [<- _]. apply list_elem_of_here.
Defined.

(** ** Timers *)

Lemma TIMER_KEY_inj R R' : TIMER_KEY R = TIMER_KEY R' -> R = R'.
Proof.
  unfold TIMER_KEY. intros E. apply (inj (String.append "room:")) in E.
  apply append_cancel_r in E. exact E.
Qed.

(** X30. Every room has a timer of its own: [getTimer] reads back what
    [setTimer] wrote for the room, with the time of the call as creation
    time; [clearTimer] removes it; neither changes the timer of another room
    or any snapshot. *)
Theorem timer_belongs_to_its_room (now : Z) (R ph : string) (expires : Z)
    (round : option Z) (r : Redis) :
  getTimer (setTimer now R ph expires round r) R
  = Some {| phase := ph; expiresAt := expires; timerCreatedAt := now;
            roundNumber := round |}
  /\ getTimer (clearTimer R (setTimer now R ph expires round r)) R = None
  /\ (forall R', R' ≠ R ->
        getTimer (setTimer now R ph expires round r) R' = getTimer r R'
        /\ getTimer (clearTimer R r) R' = getTimer r R')
  /\ (forall R',
        getGame (setTimer now R ph expires round r) R' = getGame r R'
        /\ getGame (clearTimer R r) R' = getGame r R').
Proof.
  unfold getTimer, setTimer, clearTimer, getGame.
  split; [rewrite lookup_insert_eq; reflexivity|].
  split; [rewrite lookup_delete_eq; reflexivity|]. split.
  - intros R' Hne.
    assert (Hk : TIMER_KEY R ≠ TIMER_KEY R').
    { intros E. apply Hne. symmetry. apply TIMER_KEY_inj, E. }
    rewrite lookup_insert_ne by exact Hk. rewrite lookup_delete_ne by exact Hk.
    split; reflexivity.
  - intros R'.
    assert (Hk : TIMER_KEY R ≠ gameKeyOf R').
    { unfold TIMER_KEY, gameKeyOf. intros E. discriminate E. }
    rewrite lookup_insert_ne by exact Hk. rewrite lookup_delete_ne by exact Hk.
    split; reflexivity.
Qed.
